(** * dataset_creation.py: alignment and chunking of spectrogram / piano roll

    A shallow embedding of [src/dataset/dataset_creation.py]
    ([norm_sg], [save_array], [extract_chunk], [create_tensor]) and of the
    Python / NumPy / torch primitives these functions call, followed by the
    properties of the alignment and chunking engine.

    Python's [int] is [Z]; Python's [float] and the array elements are IEEE 754
    binary floating-point numbers, modelled by [spec_float] and the
    operations of [SpecFloat] (round to nearest, ties to even); exceptions are
    values of [exn]; the files written by [np.save] are a log of writes. *)

From Stdlib Require Import String Ascii ZArith List Bool Lia.
From Stdlib Require Import Floats.SpecFloat.
From Stdlib Require Import DecimalString DecimalZ.
Import ListNotations.

Local Open Scope Z_scope.

(** ** Exceptions and results *)

(** The exception classes the modelled code can raise.  [InvalidInputError]
    is the class the specification asks for; no function of the source
    raises it. *)
Inductive exn : Type :=
| ZeroDivisionError
| OverflowError
| ValueError
| RuntimeError
| OSError
| InvalidInputError.

Inductive result (A : Type) : Type :=
| Ok (a : A)
| Raise (e : exn).

Arguments Ok {A} a.
Arguments Raise {A} e.

Definition rbind {A B : Type} (r : result A) (k : A -> result B) : result B :=
  match r with
  | Ok a => k a
  | Raise e => Raise e
  end.

Declare Scope py_scope.
Delimit Scope py_scope with py.

Notation "x <- c1 ;; c2" := (rbind c1 (fun x => c2))
  (at level 61, c1 at next level, right associativity) : py_scope.

(** ** Python [float]: IEEE 754 binary64 *)

Module PyFloat.

Definition prec : Z := 53.
Definition emax : Z := 1024.

Definition float := spec_float.

(** An infinite result of an [int] to [float] conversion or of a true
    division is reported by CPython as [OverflowError]. *)
Definition finite_or_overflow (f : float) : result float :=
  match f with
  | S754_infinity _ => Raise OverflowError
  | S754_nan => Raise ValueError
  | _ => Ok f
  end.

(** [float(n)] for an [int] [n]: the nearest double, ties to even. *)
Definition of_int (n : Z) : result float :=
  finite_or_overflow (binary_normalize prec emax n 0 false).

(** [a / b] for two [int]s: the correctly rounded quotient. *)
Definition int_true_div (a b : Z) : result float :=
  if b =? 0 then Raise ZeroDivisionError
  else if a =? 0 then Ok (S754_zero (b <? 0))
  else
    let '(q, e, l) := SFdiv_core_binary prec emax (Z.abs a) 0 (Z.abs b) 0 in
    finite_or_overflow
      (binary_round_aux prec emax (xorb (a <? 0) (b <? 0)) q e l).

(** [n * x] for an [int] [n] and a [float] [x]: [n] is converted first. *)
Definition int_mul_float (n : Z) (x : float) : result float :=
  (fn <- of_int n ;; Ok (SFmul prec emax fn x))%py.

(** Nearest integer to [m / 2^k], ties to the even integer. *)
Definition round_half_even_shift (m : Z) (k : Z) : Z :=
  let q := Z.shiftr m k in
  let r := m - Z.shiftl q k in
  match (2 * r ?= Z.shiftl 1 k) with
  | Lt => q
  | Gt => q + 1
  | Eq => if Z.even q then q else q + 1
  end.

(** The builtin [round(x)] with one argument: an [int], ties to even. *)
Definition round (x : float) : result Z :=
  match x with
  | S754_nan => Raise ValueError
  | S754_infinity _ => Raise OverflowError
  | S754_zero _ => Ok 0
  | S754_finite s m e =>
      let a := if 0 <=? e then Z.shiftl (Zpos m) e
               else round_half_even_shift (Zpos m) (- e) in
      Ok (if s then - a else a)
  end.

End PyFloat.

(** ** The builtin [range] *)

Fixpoint range_loop (fuel : nat) (i stop step : Z) : list Z :=
  match fuel with
  | O => []
  | S fuel' =>
      if ((0 <? step) && (i <? stop)) || ((step <? 0) && (stop <? i))
      then i :: range_loop fuel' (i + step) stop step
      else []
  end.

(** [range(start, stop, step)]; a zero step raises [ValueError].  Every
    iteration moves [i] by at least one towards [stop], so
    [|stop - start|] iterations are enough. *)
Definition py_range (start stop step : Z) : result (list Z) :=
  if step =? 0 then Raise ValueError
  else Ok (range_loop (Z.to_nat (Z.abs (stop - start))) start stop step).

(** ** [str] of an [int], as an f-string field prints it *)

Definition str_int (n : Z) : string :=
  NilZero.string_of_int (Z.to_int n).

(** ** Two-dimensional arrays *)

(** A 2-D array of shape [(nrows, ncols)], stored row by row.  The column
    count is kept apart from the rows so that an array without rows still has
    a width, as [numpy] and [torch] arrays do. *)
Record ndarray : Type := mk_ndarray {
  ncols : nat;
  rows : list (list spec_float)
}.

Definition nrows (a : ndarray) : nat := length (rows a).

Definition shape (a : ndarray) : nat * nat := (nrows a, ncols a).

Definition wf_ndarray (a : ndarray) : bool :=
  forallb (fun r => Nat.eqb (length r) (ncols a)) (rows a).

(** The values [0.0] and [1.0] of a [float64] array. *)
Definition f_zero : spec_float := S754_zero false.
Definition f_one : spec_float := S754_finite false 4503599627370496 (-52).

(** Bound of a slice [lo:hi] on an axis of length [n]: a negative index
    counts from the end, and the result is clamped to [0 .. n]. *)
Definition slice_index (n : nat) (i : Z) : nat :=
  if i <? 0 then Z.to_nat (Z.max 0 (i + Z.of_nat n))
  else Z.to_nat (Z.min i (Z.of_nat n)).

Definition slice_len (n : nat) (lo hi : Z) : nat :=
  (slice_index n hi - slice_index n lo)%nat.

Definition slice_list {A : Type} (l : list A) (lo hi : Z) : list A :=
  firstn (slice_len (length l) lo hi) (skipn (slice_index (length l) lo) l).

(** [a[:, lo:hi]] *)
Definition slice_cols (a : ndarray) (lo hi : Z) : ndarray :=
  {| ncols := slice_len (ncols a) lo hi;
     rows := map (fun r => slice_list r lo hi) (rows a) |}.

(** [np.zeros(shape=(r, c))] *)
Definition np_zeros (r c : nat) : ndarray :=
  {| ncols := c; rows := repeat (repeat f_zero c) r |}.

(** [np.expand_dims(np.array(l), 0)]: the list as a single row. *)
Definition expand_dims0 (l : list spec_float) : ndarray :=
  {| ncols := length l; rows := [l] |}.

(** [np.transpose] of a 2-D array. *)
Definition np_transpose (a : ndarray) : ndarray :=
  {| ncols := nrows a;
     rows := map (fun j => map (fun r => nth j r f_zero) (rows a))
                 (seq 0 (ncols a)) |}.

(** [np.concatenate([a, b], axis=0)]: [b] below [a]. *)
Definition concatenate0 (a b : ndarray) : result ndarray :=
  if Nat.eqb (ncols a) (ncols b)
  then Ok {| ncols := ncols a; rows := rows a ++ rows b |}
  else Raise ValueError.

(** [np.concatenate([a, b], axis=1)]: [b] to the right of [a]. *)
Definition concatenate1 (a b : ndarray) : result ndarray :=
  if Nat.eqb (nrows a) (nrows b)
  then Ok {| ncols := ncols a + ncols b;
             rows := map (fun rr => fst rr ++ snd rr)
                         (combine (rows a) (rows b)) |}
  else Raise ValueError.

(** Column [j] of an array, top to bottom, and its last row. *)
Definition column (a : ndarray) (j : nat) : list spec_float :=
  map (fun r => nth j r f_zero) (rows a).

Definition last_row (a : ndarray) : list spec_float :=
  last (rows a) [].

(** ** [norm_sg] *)

Section Normalizer.

(** The floating-point format of the array: [prec = 24], [emax = 128]
    for the [float32] tensors of [torchaudio], [53] and [1024] for
    [float64]. *)
Variables prec emax : Z.

(** Minimum and maximum of two elements as the reductions [min()] and
    [max()] take them: a NaN operand gives NaN. *)
Definition fmin (x y : spec_float) : spec_float :=
  match x, y with
  | S754_nan, _ | _, S754_nan => S754_nan
  | _, _ => if SFltb y x then y else x
  end.

Definition fmax (x y : spec_float) : spec_float :=
  match x, y with
  | S754_nan, _ | _, S754_nan => S754_nan
  | _, _ => if SFltb x y then y else x
  end.

Definition elements (a : ndarray) : list spec_float := concat (rows a).

(** [a.min()] and [a.max()] over all elements; an array without elements
    has no minimum and the reduction raises. *)
Definition array_min (a : ndarray) : result spec_float :=
  match elements a with
  | [] => Raise RuntimeError
  | x :: xs => Ok (fold_left fmin xs x)
  end.

Definition array_max (a : ndarray) : result spec_float :=
  match elements a with
  | [] => Raise RuntimeError
  | x :: xs => Ok (fold_left fmax xs x)
  end.

Definition map_array (f : spec_float -> spec_float) (a : ndarray) : ndarray :=
  {| ncols := ncols a; rows := map (map f) (rows a) |}.

Definition norm_sg (spectrogram : ndarray) : result ndarray :=
  (lo <- array_min spectrogram ;;
   hi <- array_max spectrogram ;;
   lo' <- array_min spectrogram ;;
   Ok (map_array
         (fun v => SFdiv prec emax (SFsub prec emax v lo)
                                   (SFsub prec emax hi lo'))
         spectrogram))%py.

End Normalizer.

(** ** Persistence: [save_array] *)

(** A path is the list of its components; [joinpath] appends one. *)
Definition Path : Type := list string.

Definition joinpath (p : Path) (name : string) : Path := p ++ [name].

Definition path_name (p : Path) : string := last p EmptyString.

(** The storage: the log of the arrays written so far, oldest first, and
    an oracle telling whether the next write of a path succeeds.  A file
    written twice holds the array of its latest write. *)
Record storage : Type := mk_storage {
  can_write : list (Path * ndarray) -> Path -> bool;
  written : list (Path * ndarray)
}.

Definition IO (A : Type) : Type := storage -> result A * storage.

Definition io_ret {A : Type} (a : A) : IO A := fun st => (Ok a, st).

Definition io_bind {A B : Type} (c : IO A) (k : A -> IO B) : IO B :=
  fun st =>
    match c st with
    | (Ok a, st') => k a st'
    | (Raise e, st') => (Raise e, st')
    end.

Definition io_lift {A : Type} (r : result A) : IO A := fun st => (r, st).

Notation "x <~ c1 ;; c2" := (io_bind c1 (fun x => c2))
  (at level 61, c1 at next level, right associativity) : py_scope.

(** A [for] loop over a list: an exception in the body leaves the loop. *)
Fixpoint io_for {X : Type} (l : list X) (body : X -> IO unit) : IO unit :=
  match l with
  | [] => io_ret tt
  | x :: l' => (_ <~ body x ;; io_for l' body)%py
  end.

(** [np.save(file=save_fp, arr=arr)]: writes the file or raises [OSError]. *)
Definition save_array (arr : ndarray) (save_fp : Path) : IO unit :=
  fun st =>
    if can_write st (written st) save_fp
    then (Ok tt, {| can_write := can_write st;
                    written := written st ++ [(save_fp, arr)] |})
    else (Raise OSError, st).

(** ** [extract_chunk] *)

Definition extract_chunk (piano_roll norm_db : ndarray) (start stop song_len : Z)
  : result (ndarray * ndarray) :=
  (let pr_frames := Z.of_nat (ncols piano_roll) in
   pr_to_sg <- PyFloat.int_true_div pr_frames song_len ;;
   start_x <- PyFloat.int_mul_float start pr_to_sg ;;
   start_pr <- PyFloat.round start_x ;;
   stop_x <- PyFloat.int_mul_float stop pr_to_sg ;;
   end_pr <- PyFloat.round stop_x ;;
   let pr_chunk := slice_cols piano_roll start_pr end_pr in
   pr_chunk <- concatenate0 pr_chunk (np_zeros 1 (ncols pr_chunk)) ;;
   let eos_token :=
     np_transpose
       (expand_dims0 (repeat f_zero (nrows pr_chunk - 1) ++ [f_one])) in
   pr_chunk <- concatenate1 pr_chunk eos_token ;;
   let sg_chunk := slice_cols norm_db start stop in
   Ok (pr_chunk, sg_chunk))%py.

(** ** [create_tensor] *)

(** The name of an artifact, as the f-strings of [create_tensor] build it. *)
Definition artifact_name (m_sec chunk_len : Z) (stem kind : string) : string :=
  (str_int m_sec ++ "-" ++ str_int (m_sec + chunk_len) ++ "-" ++ stem
     ++ "-" ++ kind ++ ".npy")%string.

(** The body of the loop of [create_tensor] for one value of [m_sec]. *)
Definition create_tensor_step (piano_roll norm_db : ndarray) (song_len : Z)
    (stem : string) (chunk_len : Z) (save_path : Path) (m_sec : Z) : IO unit :=
  (chunks <~ io_lift (extract_chunk piano_roll norm_db
                        m_sec (m_sec + chunk_len) song_len) ;;
   let '(pr_chunk, sg_chunk) := chunks in
   _ <~ save_array sg_chunk
          (joinpath save_path (artifact_name m_sec chunk_len stem "spec")) ;;
   save_array pr_chunk
     (joinpath save_path (artifact_name m_sec chunk_len stem "piano")))%py.

(** [create_tensor] from the point where the piano roll and the decibel
    mel spectrogram of the recording are loaded (the audio, MIDI and
    spectral transforms are library calls): [mel_spectrogram_db] is the
    [float32] result of [convert_to_DB], [stem] is [audio_path.stem].  The
    plots of [debug_vis] write no file. *)
Definition create_tensor (piano_roll mel_spectrogram_db : ndarray)
    (stem : string) (chunk_len : Z) (save_path : Path) : IO unit :=
  (norm_db <~ io_lift (norm_sg 24 128 mel_spectrogram_db) ;;
   let song_len := Z.of_nat (ncols norm_db) in
   m_secs <~ io_lift (py_range 0 song_len chunk_len) ;;
   io_for m_secs
     (create_tensor_step piano_roll norm_db song_len stem chunk_len save_path))%py.

(** ** Windows of a recording *)

(** The windows [(start, stop)] that the loop of [create_tensor] hands to
    [extract_chunk]: [start = m_sec] and [stop = m_sec + chunk_len] for the
    values [m_sec] of [range(0, song_len, chunk_len)]. *)
Definition windows (song_len chunk_len : Z) : result (list (Z * Z)) :=
  (m_secs <- py_range 0 song_len chunk_len ;;
   Ok (map (fun m_sec => (m_sec, m_sec + chunk_len)) m_secs))%py.

(** [ceil(n / l)] for a positive [l]. *)
Definition ceil_div (n l : Z) : Z := (n + l - 1) / l.

(** The frames [a, a+1, ..., b-1] of the half-open range [[a, b)]. *)
Definition frames (a b : Z) : list Z :=
  map (fun k => a + Z.of_nat k) (seq 0 (Z.to_nat (b - a))).

(** The frames of a window, clipped to a recording of [n] frames. *)
Definition clipped_frames (n : Z) (w : Z * Z) : list Z :=
  frames (fst w) (Z.min (snd w) n).

(** [a[:, js]]: the frames [js] of an array, in that order. *)
Definition frames_of (a : ndarray) (js : list Z) : ndarray :=
  {| ncols := length js;
     rows := map (fun r => map (fun j => nth (Z.to_nat j) r f_zero) js) (rows a) |}.

(** The two artifacts [create_tensor] writes for the window starting at
    [m_sec], in the order of the writes. *)
Definition window_artifacts (piano_roll norm_db : ndarray) (song_len : Z)
    (stem : string) (chunk_len : Z) (save_path : Path) (m_sec : Z)
  : result (list (Path * ndarray)) :=
  (chunks <- extract_chunk piano_roll norm_db m_sec (m_sec + chunk_len) song_len ;;
   Ok [(joinpath save_path (artifact_name m_sec chunk_len stem "spec"), snd chunks);
       (joinpath save_path (artifact_name m_sec chunk_len stem "piano"), fst chunks)])%py.

(** ** The aligned chunk pair, stated directly *)

(** The symbolic frame index [extract_chunk] computes for the acoustic frame
    index [i]: [round(i * (pr_frames / song_len))]. *)
Definition sym_index (pr_frames song_len i : Z) : result Z :=
  (pr_to_sg <- PyFloat.int_true_div pr_frames song_len ;;
   x <- PyFloat.int_mul_float i pr_to_sg ;;
   PyFloat.round x)%py.

(** A symbolic slice with its terminal marker: a zero is appended to every
    row, and a last row is added that is zero except for a final one. *)
Definition with_marker (c : ndarray) : ndarray :=
  {| ncols := ncols c + 1;
     rows := map (fun r => r ++ [f_zero]) (rows c)
             ++ [repeat f_zero (ncols c) ++ [f_one]] |}.

(** The paths of the two artifacts of the window starting at [m_sec]. *)
Definition spec_path (save_path : Path) (stem : string) (chunk_len m_sec : Z) : Path :=
  joinpath save_path (artifact_name m_sec chunk_len stem "spec").

Definition piano_path (save_path : Path) (stem : string) (chunk_len m_sec : Z) : Path :=
  joinpath save_path (artifact_name m_sec chunk_len stem "piano").

(** [w] is an artifact of one of the windows starting at [m_secs]. *)
Definition artifact_of (save_path : Path) (stem : string) (chunk_len : Z)
    (m_secs : list Z) (w : Path * ndarray) : Prop :=
  exists m_sec kind,
    In m_sec m_secs /\ (kind = "spec"%string \/ kind = "piano"%string) /\
    fst w = joinpath save_path (artifact_name m_sec chunk_len stem kind).

(** A storage that accepts every write, and one that refuses the
    spectrogram artifact of the window [(0, 2)] of recording [a]. *)
Definition ex_storage : storage :=
  {| can_write := fun _ _ => true; written := [] |}.

Definition ex_storage_refusing : storage :=
  {| can_write := fun _ p => negb (String.eqb (path_name p) "0-2-a-spec.npy");
     written := [] |}.

(** ** Sample inputs *)

(** A piano roll of two pitches and ten frames, and a decibel spectrogram of
    two mel bins and five frames, with small integer entries. *)
Definition ex_piano_roll : ndarray :=
  {| ncols := 10;
     rows := map (map (fun n => binary_normalize 53 1024 n 0 false))
               [[1; 2; 3; 4; 5; 6; 7; 8; 9; 10];
                [0; 0; 64; 64; 64; 0; 0; 80; 80; 0]] |}.

Definition ex_mel : ndarray :=
  {| ncols := 5;
     rows := map (map (fun n => binary_normalize 24 128 n 0 false))
               [[-80; -60; -40; -20; 0];
                [-80; -80; -70; -30; -10]] |}.

(** ** Rounding, stated on integers *)

(** Position of the fraction [n / d] between [n / d] and its successor. *)
Definition loc_of (n d : Z) : location :=
  if n mod d =? 0 then loc_Exact else loc_Inexact (2 * (n mod d) ?= d).

(** Nearest integer to [n / d], ties to even. *)
Definition rne (n d : Z) : Z :=
  match 2 * (n mod d) ?= d with
  | Lt => n / d
  | Eq => if Z.even (n / d) then n / d else n / d + 1
  | Gt => n / d + 1
  end.

(** [mrs] holds the integer part of [n / d] with its round and sticky bits. *)
Definition repr (mrs : shr_record) (n d : Z) : Prop :=
  shr_m mrs = n / d /\
  shr_r mrs = (d <=? 2 * (n mod d)) /\
  shr_s mrs = negb ((n mod d =? 0) || (2 * (n mod d) =? d)).

Definition is_finite (f : spec_float) : bool :=
  match f with
  | S754_zero _ | S754_finite _ _ _ => true
  | _ => false
  end.

(** The value of a finite float in units of [2^emin], an integer. *)
Definition sf_ord (prec emax : Z) (f : spec_float) : Z :=
  match f with
  | S754_finite s m e => cond_Zopp s (Zpos m * 2 ^ (e - emin prec emax))
  | _ => 0
  end.

(** The result of rounding the fraction [n / d] scaled by [2^e], in units
    of [2^emin]. *)
Definition sf_rounded (prec emax : Z) (n d e : Z) : Z :=
  let c := fexp prec emax (Zdigits2 (n / d) + e) in
  rne n (d * 2 ^ (c - e)) * 2 ^ (c - emin prec emax).

(** Rounding [v] units of [2^emin] to [prec] significant bits. *)
Definition sf_rnd (prec : Z) (v : Z) : Z :=
  let k := Z.max (Zdigits2 v - prec) 0 in rne v (2 ^ k) * 2 ^ k.

(** [r] is the float of sign [s] and magnitude [w] units of [2^emin], or
    the infinity of sign [s] when [w] is out of range. *)
Definition sf_is_rounding (prec emax : Z) (s : bool) (w : Z) (r : spec_float) : Prop :=
  (w = 0 -> r = S754_zero s) /\
  (0 < w < 2 ^ (emax - emin prec emax) ->
   exists m e, r = S754_finite s m e /\ valid_binary prec emax r = true /\
               Zpos m * 2 ^ (e - emin prec emax) = w) /\
  (2 ^ (emax - emin prec emax) <= w -> r = S754_infinity s).

(** A finite float of the format: a zero, a normal or a subnormal number
    in canonical form. *)
Definition finite_valid (prec emax : Z) (v : spec_float) : bool :=
  valid_binary prec emax v && is_finite v.

(** The value [norm_sg] puts in place of [v] when the minimum and the
    maximum of the array are [lo] and [hi]. *)
Definition norm_value (prec emax : Z) (lo hi v : spec_float) : spec_float :=
  SFdiv prec emax (SFsub prec emax v lo) (SFsub prec emax hi lo).

(** A [float32] array holding the lowest and the largest finite number. *)
Definition ex_wide : ndarray :=
  {| ncols := 2;
     rows := [[S754_finite true 16777215 104; S754_finite false 16777215 104]] |}.

Definition is_nan (f : spec_float) : bool :=
  match f with
  | S754_nan => true
  | _ => false
  end.

(** A number of the format: any float but NaN, finite ones in canonical
    form. *)
Definition number_valid (prec emax : Z) (v : spec_float) : bool :=
  valid_binary prec emax v && negb (is_nan v).

(** [sf_ord] extended to the infinities, which lie beyond every finite
    float. *)
Definition sf_eord (prec emax : Z) (f : spec_float) : Z :=
  match f with
  | S754_infinity s => cond_Zopp s (2 ^ (emax - emin prec emax))
  | _ => sf_ord prec emax f
  end.

(** A constant [float32] array, and an array without elements. *)
Definition ex_const : ndarray :=
  {| ncols := 2;
     rows := map (map (fun n => binary_normalize 24 128 n 0 false))
               [[-35; -35]; [-35; -35]] |}.

Definition ex_empty : ndarray := {| ncols := 0; rows := [[]; []] |}.

(** A finite float that is [+0.0] or positive, of value at most [2^t]. *)
Definition nonneg_upto (prec emax : Z) (t : Z) (f : spec_float) : Prop :=
  finite_valid prec emax f = true /\
  (f = S754_zero false \/ exists m e, f = S754_finite false m e) /\
  sf_ord prec emax f <= 2 ^ (t - emin prec emax).

(** A decibel spectrogram of one mel bin and 95 frames. *)
Definition ex_mel95 : ndarray :=
  {| ncols := 95;
     rows := [map (fun k => binary_normalize 24 128 (- Z.of_nat k) 0 false)
                  (seq 0 95)] |}.

(** ** Chunks of a run, put together again *)

(** [np.concatenate([a, b1, ..., bk], axis=1)], from left to right. *)
Fixpoint concatenate1_from (a : ndarray) (l : list ndarray) : result ndarray :=
  match l with
  | [] => Ok a
  | b :: l' => (c <- concatenate1 a b ;; concatenate1_from c l')%py
  end.

(** [np.concatenate(l, axis=1)]; an empty sequence raises [ValueError]. *)
Definition concatenate1_all (l : list ndarray) : result ndarray :=
  match l with
  | [] => Raise ValueError
  | a :: l' => concatenate1_from a l'
  end.

(** The symbolic index when it is computed, [0] otherwise. *)
Definition sym_index_of (pr_frames song_len i : Z) : Z :=
  match sym_index pr_frames song_len i with
  | Ok k => k
  | Raise _ => 0
  end.

(** The starts of the windows of a recording of [n] frames. *)
Definition window_starts (n l : Z) : list Z :=
  map (fun k => Z.of_nat k * l) (seq 0 (Z.to_nat (ceil_div n l))).

(** The two artifacts of the window starting at [m_sec], stated directly. *)
Definition artifacts_of_window (piano_roll norm_db : ndarray) (stem : string)
    (chunk_len : Z) (save_path : Path) (m_sec : Z) : list (Path * ndarray) :=
  let t := Z.of_nat (ncols piano_roll) in
  let n := Z.of_nat (ncols norm_db) in
  [(spec_path save_path stem chunk_len m_sec,
    slice_cols norm_db m_sec (m_sec + chunk_len));
   (piano_path save_path stem chunk_len m_sec,
    with_marker (slice_cols piano_roll (sym_index_of t n m_sec)
                   (sym_index_of t n (m_sec + chunk_len))))].

(** The three arrays of a window of a run: its start, the acoustic chunk
    and the symbolic chunk. *)
Definition spec_chunks (pieces : list (Z * ndarray * ndarray)) : list ndarray :=
  map (fun x => snd (fst x)) pieces.

Definition piece_artifacts (save_path : Path) (stem : string) (chunk_len : Z)
    (x : Z * ndarray * ndarray) : list (Path * ndarray) :=
  [(spec_path save_path stem chunk_len (fst (fst x)), snd (fst x));
   (piano_path save_path stem chunk_len (fst (fst x)), snd x)].

(** Rounding the fraction [n / d] of units of [2^emin] to [prec] significant
    bits. *)
Definition sf_frnd (prec : Z) (n d : Z) : Z :=
  let k := Z.max (Zdigits2 (n / d) - prec) 0 in rne n (d * 2 ^ k) * 2 ^ k.

(** The number of units [2^emin] of binary64 that make [1.0]. *)
Definition unit64 : Z := 2 ^ 1074.

(** The symbolic index as a rounding of integers: the quotient
    [pr_frames / song_len], the conversion of [i], their product, each
    rounded to 53 bits, and the nearest integer of the product. *)
Definition sym_index_value (pr_frames song_len i : Z) : Z :=
  rne (sf_frnd 53 (sf_rnd 53 (i * unit64)
                    * sf_frnd 53 (pr_frames * unit64) song_len) unit64)
      unit64.

(** A [float32] array with one NaN. *)
Definition ex_nan : ndarray :=
  {| ncols := 2;
     rows := [[S754_finite true 10485760 (-17); S754_nan];
              [S754_zero false; S754_finite true 10485760 (-17)]] |}.

(** ** The folder driver: [convert_folder] and [main] *)

(** A path as [pathlib] joins it: whether it has a root, and its
    components. *)
Record PurePath : Type := mk_path {
  rooted : bool;
  parts : list string
}.

(** [p / name]: the entries [p.iterdir()] yields are the children of [p]. *)
Definition child (p : PurePath) (name : string) : PurePath :=
  {| rooted := rooted p; parts := parts p ++ [name] |}.

(** [p.joinpath(q)]: a rooted [q] replaces [p], any other [q] is appended. *)
Definition path_joinpath (p q : PurePath) : PurePath :=
  if rooted q then q
  else {| rooted := rooted p; parts := parts p ++ parts q |}.

(** [p.name]: the last component. *)
Definition name_of (p : PurePath) : string := last (parts p) EmptyString.

(** [sub in s] for two strings. *)
Fixpoint contains (sub s : string) : bool :=
  prefix sub s ||
  match s with
  | EmptyString => false
  | String _ s' => contains sub s'
  end.

(** The exceptions that leave the driver: the [IndexError] of an empty list
    of matching MIDI files, or an exception of the listing, of the loaders
    or of [create_tensor]. *)
Inductive driver_exn : Type :=
| IndexError
| Raised (e : exn).

Inductive driver_result : Type :=
| DOk
| DRaise (e : driver_exn).

Definition of_result (r : result unit) : driver_result :=
  match r with
  | Ok _ => DOk
  | Raise e => DRaise (Raised e)
  end.

(** What the driver reads from its surroundings: the names in a directory
    in the order [iterdir] yields them (or the [OSError] of a directory
    that cannot be listed), [is_dir], the paths [glob] yields for a
    pattern, [stem], and the arrays the audio and MIDI libraries compute
    from a pair of files: the piano roll (at 100 frames per second) and the
    decibel mel spectrogram (40 bins). *)
Record environment : Type := mk_environment {
  listdir : PurePath -> result (list string);
  is_dir : PurePath -> bool;
  glob : PurePath -> string -> list PurePath;
  path_stem : PurePath -> string;
  load_arrays : PurePath -> PurePath -> Z -> result (ndarray * ndarray)
}.

(** [create_tensor] from its two paths: the arrays are loaded, then cut
    and written. *)
Definition create_tensor_paths (env : environment) (audio_path midi_path : PurePath)
    (sr chunk_len : Z) (save_path : Path) : IO unit :=
  (loaded <~ io_lift (load_arrays env audio_path midi_path sr) ;;
   create_tensor (fst loaded) (snd loaded) (path_stem env audio_path)
     chunk_len save_path)%py.

(** A [for] loop of the driver: an exception in the body leaves the loop. *)
Fixpoint driver_for {X : Type} (l : list X)
    (body : X -> storage -> driver_result * storage) (st : storage)
  : driver_result * storage :=
  match l with
  | [] => (DOk, st)
  | x :: l' =>
      match body x st with
      | (DOk, st') => driver_for l' body st'
      | (DRaise e, st') => (DRaise e, st')
      end
  end.

(** The body of the loop of [convert_folder] for one audio file. *)
Definition convert_one (env : environment) (audio_midi_dir : PurePath)
    (sr chunk_len : Z) (save_path : Path) (audio_path : PurePath)
    (st : storage) : driver_result * storage :=
  match glob env audio_midi_dir
          ("*" ++ path_stem env audio_path ++ ".midi")%string with
  | [] => (DRaise IndexError, st)
  | matching_midi_path :: _ =>
      let '(r, st') :=
        create_tensor_paths env audio_path matching_midi_path sr chunk_len
          save_path st in
      (of_result r, st')
  end.

(** The audio files of a directory: the entries whose name contains
    [.wav]. *)
Definition audio_list (audio_midi_dir : PurePath) (names : list string)
  : list PurePath :=
  filter (fun x => contains ".wav" (name_of x))
         (map (child audio_midi_dir) names).

(** [convert_folder]; the progress bar of [tqdm] hands the list on as it
    is. *)
Definition convert_folder (env : environment) (audio_midi_dir : PurePath)
    (sr chunk_len : Z) (save_path : Path) (st : storage)
  : driver_result * storage :=
  match listdir env audio_midi_dir with
  | Raise e => (DRaise (Raised e), st)
  | Ok names =>
      driver_for (audio_list audio_midi_dir names)
        (convert_one env audio_midi_dir sr chunk_len save_path) st
  end.

(** [main], with the parsed arguments as parameters. *)
Definition main (env : environment) (maestro_dir : PurePath) (sr chunk_len : Z)
    (ds_save_path : Path) (st : storage) : driver_result * storage :=
  match listdir env maestro_dir with
  | Raise e => (DRaise (Raised e), st)
  | Ok names =>
      driver_for (map (child maestro_dir) names)
        (fun year_folder st' =>
           if is_dir env year_folder
           then convert_folder env (path_joinpath maestro_dir year_folder)
                  sr chunk_len ds_save_path st'
           else (DOk, st'))
        st
  end.

(** A relative directory [data] with the year folder [2004] that holds one
    recording: the surroundings of a run of [main]. *)
Definition ex_data : PurePath := {| rooted := false; parts := ["data"%string] |}.

Definition path_eqb (p q : PurePath) : bool :=
  Bool.eqb (rooted p) (rooted q) &&
  (if list_eq_dec string_dec (parts p) (parts q) then true else false).

Definition ex_env : environment :=
  {| listdir := fun p =>
       if path_eqb p ex_data then Ok ["2004"%string; "README"%string]
       else if path_eqb p (child ex_data "2004")
            then Ok ["a.wav"%string; "a.midi"%string; "b.wav"%string]
            else Raise OSError;
     is_dir := fun p => path_eqb p ex_data || path_eqb p (child ex_data "2004");
     glob := fun p pattern =>
       if path_eqb p (child ex_data "2004") && String.eqb pattern "*a.midi"
       then [child (child ex_data "2004") "a.midi"] else [];
     path_stem := fun p =>
       if String.eqb (name_of p) "a.wav" then "a"%string
       else if String.eqb (name_of p) "b.wav" then "b"%string
            else name_of p;
     load_arrays := fun _ _ _ => Ok (ex_piano_roll, ex_mel) |}.

(* ================================================================== *)
(** * Properties *)

(** ** The builtin [range] and the windows *)

Lemma range_loop_pos (l n : Z) (fuel : nat) (i : Z) :
  0 < l -> n - i <= Z.of_nat fuel ->
  range_loop fuel i n l =
  map (fun k => i + Z.of_nat k * l) (seq 0 (Z.to_nat (ceil_div (n - i) l))).
Proof.
  intros Hl. revert i. induction fuel as [|fuel IH]; intros i Hf.
  - assert (Hc : ceil_div (n - i) l <= 0).
    { unfold ceil_div. apply Z.lt_succ_r. apply Z.div_lt_upper_bound; lia. }
    simpl. replace (Z.to_nat _) with O by lia. reflexivity.
  - cbn [range_loop].
    destruct (Z.ltb_spec 0 l) as [_|]; [|lia].
    destruct (Z.ltb_spec i n) as [Hin|Hin]; cbn [andb orb].
    + rewrite IH by lia.
      assert (Hc : ceil_div (n - i) l = ceil_div (n - (i + l)) l + 1).
      { unfold ceil_div.
        replace (n - i + l - 1) with (n - (i + l) + l - 1 + 1 * l) by lia.
        rewrite Z.div_add by lia. reflexivity. }
      assert (Hc0 : 0 <= ceil_div (n - (i + l)) l).
      { unfold ceil_div. apply Z.div_pos; lia. }
      replace (Z.to_nat (ceil_div (n - i) l))
        with (S (Z.to_nat (ceil_div (n - (i + l)) l))) by lia.
      cbn [seq map]. f_equal; [lia|].
      rewrite <- seq_shift, map_map. apply map_ext. intros k. lia.
    + destruct (Z.ltb_spec l 0); [lia|]. cbn [andb].
      assert (Hc : ceil_div (n - i) l <= 0).
      { unfold ceil_div. apply Z.lt_succ_r. apply Z.div_lt_upper_bound; lia. }
      replace (Z.to_nat _) with O by lia. reflexivity.
Qed.

Lemma py_range_pos (n l : Z) :
  0 <= n -> 0 < l ->
  py_range 0 n l =
  Ok (map (fun k => Z.of_nat k * l) (seq 0 (Z.to_nat (ceil_div n l)))).
Proof.
  intros Hn Hl. unfold py_range.
  destruct (Z.eqb_spec l 0); [lia|].
  rewrite range_loop_pos by lia. rewrite Z.sub_0_r. reflexivity.
Qed.

Lemma ceil_div_bounds (n l : Z) :
  0 <= n -> 0 < l ->
  0 <= ceil_div n l /\ n <= ceil_div n l * l /\ (ceil_div n l - 1) * l < n.
Proof.
  intros Hn Hl. unfold ceil_div.
  pose proof (Z.div_mod (n + l - 1) l ltac:(lia)) as Hd.
  pose proof (Z.mod_pos_bound (n + l - 1) l Hl) as Hm.
  assert (0 <= (n + l - 1) / l) by (apply Z.div_pos; lia).
  nia.
Qed.

Lemma map_seq_from {A : Type} (f : nat -> A) (s m : nat) :
  map f (seq s m) = map (fun k => f (s + k)%nat) (seq 0 m).
Proof.
  revert s. induction m as [|m IH]; intros s; [reflexivity|].
  cbn [seq map]. rewrite Nat.add_0_r. f_equal.
  rewrite IH, <- (seq_shift m 0), map_map. apply map_ext. intros k.
  f_equal. lia.
Qed.

Lemma frames_app (a b c : Z) :
  a <= b -> b <= c -> frames a c = frames a b ++ frames b c.
Proof.
  intros Hab Hbc. unfold frames.
  replace (Z.to_nat (c - a)) with (Z.to_nat (b - a) + Z.to_nat (c - b))%nat by lia.
  rewrite seq_app, map_app. f_equal.
  rewrite map_seq_from. apply map_ext. intros k. lia.
Qed.

Lemma frames_empty (a b : Z) : b <= a -> frames a b = [].
Proof.
  intros H. unfold frames. replace (Z.to_nat (b - a)) with O by lia. reflexivity.
Qed.

Lemma clipped_frames_prefix (n l : Z) (c : nat) :
  0 <= n -> 0 < l ->
  flat_map (clipped_frames n)
    (map (fun k => (Z.of_nat k * l, (Z.of_nat k + 1) * l)) (seq 0 c)) =
  frames 0 (Z.min (Z.of_nat c * l) n).
Proof.
  intros Hn Hl. induction c as [|c IH].
  - simpl. rewrite frames_empty; [reflexivity|lia].
  - rewrite seq_S, map_app, flat_map_app, IH. cbn [map flat_map Nat.add].
    rewrite app_nil_r. unfold clipped_frames. cbn [fst snd].
    replace (Z.of_nat (S c) * l) with ((Z.of_nat c + 1) * l) by lia.
    destruct (Z.le_gt_cases (Z.of_nat c * l) n) as [Hc|Hc].
    + rewrite (Z.min_l (Z.of_nat c * l) n) by lia.
      symmetry. apply frames_app; lia.
    + rewrite (frames_empty (Z.of_nat c * l)) by lia.
      rewrite app_nil_r. f_equal. lia.
Qed.

(** ** Arrays *)

Lemma map_nth_seq {A : Type} (l : list A) (d : A) :
  map (fun j => nth j l d) (seq 0 (length l)) = l.
Proof.
  induction l as [|x l IH]; [reflexivity|].
  cbn [length seq map nth]. f_equal.
  rewrite <- seq_shift, map_map. exact IH.
Qed.

Lemma combine_snoc {A B : Type} (l : list A) (l' : list B) (x : A) (y : B) :
  length l = length l' ->
  combine (l ++ [x]) (l' ++ [y]) = combine l l' ++ [(x, y)].
Proof.
  revert l'. induction l as [|a l IH]; intros [|b l'] H; try discriminate.
  - reflexivity.
  - cbn [app combine]. f_equal. apply IH. now injection H.
Qed.

Lemma combine_repeat_r {A B : Type} (l : list A) (y : B) :
  combine l (repeat y (length l)) = map (fun a => (a, y)) l.
Proof.
  induction l as [|a l IH]; [reflexivity|].
  cbn [length repeat combine map]. now rewrite IH.
Qed.

(** The three array operations of [extract_chunk] on a symbolic slice add
    its terminal marker, and never fail. *)
Lemma marker_ops (c : ndarray) :
  (c1 <- concatenate0 c (np_zeros 1 (ncols c)) ;;
   concatenate1 c1
     (np_transpose (expand_dims0 (repeat f_zero (nrows c1 - 1) ++ [f_one]))))%py
  = Ok (with_marker c).
Proof.
  unfold concatenate0, np_zeros. cbn [ncols rows rbind].
  rewrite Nat.eqb_refl. cbn [rbind].
  unfold concatenate1, np_transpose, expand_dims0, nrows. cbn [ncols rows length map].
  rewrite !length_app, !repeat_length. cbn [length repeat].
  replace (length (rows c) + 1 - 1)%nat with (length (rows c)) by lia.
  rewrite length_map, length_seq, Nat.eqb_refl.
  unfold with_marker. f_equal. f_equal.
  set (l := repeat f_zero (length (rows c)) ++ [f_one]).
  assert (Hl : (length (rows c) + 1)%nat = length l).
  { unfold l. now rewrite length_app, repeat_length. }
  rewrite Hl.
  assert (Hm : map (fun j => [nth j l f_zero]) (seq 0 (length l))
               = map (fun x => [x]) l).
  { rewrite <- (map_nth_seq l f_zero) at 2. rewrite map_map. reflexivity. }
  rewrite Hm. unfold l.
  rewrite map_app. cbn [map].
  rewrite combine_snoc by now rewrite length_map, repeat_length.
  rewrite map_app. cbn [map fst snd]. f_equal.
  rewrite map_repeat, combine_repeat_r, map_map. reflexivity.
Qed.

(** [extract_chunk] succeeds exactly when both symbolic indices can be
    computed, and then returns the marked symbolic slice and the acoustic
    slice. *)
Lemma extract_chunk_spec (piano_roll norm_db : ndarray) (start stop song_len : Z) :
  extract_chunk piano_roll norm_db start stop song_len =
  (start_pr <- sym_index (Z.of_nat (ncols piano_roll)) song_len start ;;
   end_pr <- sym_index (Z.of_nat (ncols piano_roll)) song_len stop ;;
   Ok (with_marker (slice_cols piano_roll start_pr end_pr),
       slice_cols norm_db start stop))%py.
Proof.
  unfold extract_chunk, sym_index.
  destruct (PyFloat.int_true_div _ song_len) as [r|e]; cbn [rbind]; [|reflexivity].
  destruct (PyFloat.int_mul_float start r) as [x|e]; cbn [rbind]; [|reflexivity].
  destruct (PyFloat.round x) as [a|e]; cbn [rbind]; [|reflexivity].
  destruct (PyFloat.int_mul_float stop r) as [y|e]; cbn [rbind]; [|reflexivity].
  destruct (PyFloat.round y) as [b|e]; cbn [rbind]; [|reflexivity].
  pose proof (marker_ops (slice_cols piano_roll a b)) as H.
  destruct (concatenate0 _ _) as [c1|e]; cbn [rbind] in *; [|discriminate].
  rewrite H. reflexivity.
Qed.

Lemma slice_index_le (n : nat) (i : Z) : (slice_index n i <= n)%nat.
Proof. unfold slice_index. destruct (Z.ltb_spec i 0); lia. Qed.

Lemma slice_index_nonneg (n : nat) (i : Z) :
  0 <= i -> Z.of_nat (slice_index n i) = Z.min i (Z.of_nat n).
Proof.
  intros H. unfold slice_index. destruct (Z.ltb_spec i 0); lia.
Qed.

Lemma slice_list_length {A : Type} (l : list A) (lo hi : Z) :
  length (slice_list l lo hi) = slice_len (length l) lo hi.
Proof.
  unfold slice_list, slice_len. rewrite length_firstn, length_skipn.
  pose proof (slice_index_le (length l) hi). lia.
Qed.

Lemma wf_ndarray_rows (a : ndarray) :
  wf_ndarray a = true <-> Forall (fun r => length r = ncols a) (rows a).
Proof.
  unfold wf_ndarray. rewrite forallb_forall, Forall_forall.
  split; intros H r Hr; [apply Nat.eqb_eq|apply Nat.eqb_eq]; auto.
Qed.

Lemma slice_cols_wf (a : ndarray) (lo hi : Z) :
  wf_ndarray a = true -> wf_ndarray (slice_cols a lo hi) = true.
Proof.
  rewrite !wf_ndarray_rows. cbn [slice_cols rows ncols]. intros H.
  apply Forall_map. revert H. apply Forall_impl. intros r Hr.
  now rewrite slice_list_length, Hr.
Qed.

Lemma with_marker_wf (c : ndarray) :
  wf_ndarray c = true -> wf_ndarray (with_marker c) = true.
Proof.
  rewrite !wf_ndarray_rows. cbn [with_marker rows ncols]. intros H.
  apply Forall_app. split.
  - apply Forall_map. revert H. apply Forall_impl. intros r Hr.
    rewrite length_app, Hr. reflexivity.
  - constructor; [|constructor].
    now rewrite length_app, repeat_length.
Qed.

Lemma with_marker_last_column (c : ndarray) :
  wf_ndarray c = true ->
  column (with_marker c) (ncols c) = repeat f_zero (nrows c) ++ [f_one].
Proof.
  rewrite wf_ndarray_rows. unfold column, nrows. cbn [with_marker rows].
  intros H. rewrite map_app, map_map. cbn [map]. f_equal.
  - induction H as [|r rs Hr _ IH]; [reflexivity|].
    cbn [map length repeat]. f_equal; [|exact IH].
    rewrite app_nth2 by lia. rewrite Hr, Nat.sub_diag. reflexivity.
  - rewrite app_nth2 by (rewrite repeat_length; lia).
    rewrite repeat_length, Nat.sub_diag. reflexivity.
Qed.

Lemma with_marker_last_row (c : ndarray) :
  last_row (with_marker c) = repeat f_zero (ncols c) ++ [f_one].
Proof. unfold last_row. cbn [with_marker rows]. apply last_last. Qed.

Lemma extract_chunk_ok (piano_roll norm_db : ndarray) (start stop song_len : Z)
    (pr_chunk sg_chunk : ndarray) :
  extract_chunk piano_roll norm_db start stop song_len = Ok (pr_chunk, sg_chunk) ->
  exists start_pr end_pr,
    sym_index (Z.of_nat (ncols piano_roll)) song_len start = Ok start_pr /\
    sym_index (Z.of_nat (ncols piano_roll)) song_len stop = Ok end_pr /\
    pr_chunk = with_marker (slice_cols piano_roll start_pr end_pr) /\
    sg_chunk = slice_cols norm_db start stop.
Proof.
  rewrite extract_chunk_spec.
  destruct (sym_index _ song_len start) as [a|e]; cbn [rbind]; [|discriminate].
  destruct (sym_index _ song_len stop) as [b|e]; cbn [rbind]; [|discriminate].
  intros H. injection H as <- <-. now exists a, b.
Qed.

(** ** The terminal marker *)

(** C2. Every symbolic chunk [extract_chunk] returns, for a piano roll of
    [C] rows and [T] columns, has [C + 1] rows and one column more than the
    slice [start_sym:stop_sym], that is [stop_sym - start_sym + 1] columns
    when the slice lies within the roll and [T - start_sym + 1] when
    [stop_sym] exceeds [T]; its last column is zero except for a one in the
    last row, and its last row is zero except for that one.  The window is
    arbitrary, so this holds for every chunk of a recording. *)
Theorem C2_terminal_marker (piano_roll norm_db : ndarray)
    (start stop song_len : Z) (pr_chunk sg_chunk : ndarray) :
  wf_ndarray piano_roll = true ->
  extract_chunk piano_roll norm_db start stop song_len = Ok (pr_chunk, sg_chunk) ->
  exists start_sym stop_sym,
    sym_index (Z.of_nat (ncols piano_roll)) song_len start = Ok start_sym /\
    sym_index (Z.of_nat (ncols piano_roll)) song_len stop = Ok stop_sym /\
    shape pr_chunk =
      (nrows piano_roll + 1,
       slice_len (ncols piano_roll) start_sym stop_sym + 1)%nat /\
    (0 <= start_sym <= stop_sym -> stop_sym <= Z.of_nat (ncols piano_roll) ->
     Z.of_nat (ncols pr_chunk) = stop_sym - start_sym + 1) /\
    (0 <= start_sym <= Z.of_nat (ncols piano_roll) ->
     Z.of_nat (ncols piano_roll) < stop_sym ->
     Z.of_nat (ncols pr_chunk) = Z.of_nat (ncols piano_roll) - start_sym + 1) /\
    wf_ndarray pr_chunk = true /\
    column pr_chunk (ncols pr_chunk - 1) =
      repeat f_zero (nrows piano_roll) ++ [f_one] /\
    last_row pr_chunk = repeat f_zero (ncols pr_chunk - 1) ++ [f_one].
Proof.
  intros Hwf H.
  destruct (extract_chunk_ok _ _ _ _ _ _ _ H) as (a & b & Ha & Hb & -> & ->).
  exists a, b. split; [exact Ha|]. split; [exact Hb|].
  set (c := slice_cols piano_roll a b).
  assert (Hc : wf_ndarray c = true) by now apply slice_cols_wf.
  assert (Hn : nrows c = nrows piano_roll).
  { unfold c, nrows. cbn [slice_cols rows]. apply length_map. }
  assert (Hw : (ncols (with_marker c) - 1)%nat = ncols c).
  { cbn [with_marker ncols]. lia. }
  split; [|split; [|split; [|split; [|split]]]].
  - unfold shape. f_equal.
    unfold nrows in *. cbn [with_marker rows].
    rewrite length_app, length_map. cbn [length]. now rewrite <- Hn.
  - intros H1 H2. cbn [with_marker c slice_cols ncols]. unfold slice_len.
    pose proof (slice_index_nonneg (ncols piano_roll) a ltac:(lia)).
    pose proof (slice_index_nonneg (ncols piano_roll) b ltac:(lia)).
    lia.
  - intros H1 H2. cbn [with_marker c slice_cols ncols]. unfold slice_len.
    pose proof (slice_index_nonneg (ncols piano_roll) a ltac:(lia)).
    pose proof (slice_index_nonneg (ncols piano_roll) b ltac:(lia)).
    lia.
  - now apply with_marker_wf.
  - rewrite Hw, <- Hn. now apply with_marker_last_column.
  - rewrite Hw. apply with_marker_last_row.
Qed.

Lemma C2_terminal_marker_witness :
  exists start_sym stop_sym,
    sym_index (Z.of_nat (ncols ex_piano_roll)) 5 4 = Ok start_sym /\
    sym_index (Z.of_nat (ncols ex_piano_roll)) 5 6 = Ok stop_sym /\
    shape (with_marker (slice_cols ex_piano_roll 8 12)) =
      (nrows ex_piano_roll + 1,
       slice_len (ncols ex_piano_roll) start_sym stop_sym + 1)%nat /\
    (0 <= start_sym <= stop_sym -> stop_sym <= Z.of_nat (ncols ex_piano_roll) ->
     Z.of_nat (ncols (with_marker (slice_cols ex_piano_roll 8 12))) =
     stop_sym - start_sym + 1) /\
    (0 <= start_sym <= Z.of_nat (ncols ex_piano_roll) ->
     Z.of_nat (ncols ex_piano_roll) < stop_sym ->
     Z.of_nat (ncols (with_marker (slice_cols ex_piano_roll 8 12))) =
     Z.of_nat (ncols ex_piano_roll) - start_sym + 1) /\
    wf_ndarray (with_marker (slice_cols ex_piano_roll 8 12)) = true /\
    column (with_marker (slice_cols ex_piano_roll 8 12))
           (ncols (with_marker (slice_cols ex_piano_roll 8 12)) - 1) =
      repeat f_zero (nrows ex_piano_roll) ++ [f_one] /\
    last_row (with_marker (slice_cols ex_piano_roll 8 12)) =
      repeat f_zero (ncols (with_marker (slice_cols ex_piano_roll 8 12)) - 1)
      ++ [f_one].
Proof.
  apply (C2_terminal_marker ex_piano_roll ex_mel 4 6 5
           (with_marker (slice_cols ex_piano_roll 8 12)) (slice_cols ex_mel 4 6)).
  - vm_compute. reflexivity.
  - vm_compute. reflexivity.
Defined.

(** ** The symbolic window *)

Lemma round_half_even_shift_spec (m k : Z) :
  0 <= m -> 0 <= k ->
  let a := PyFloat.round_half_even_shift m k in
  (2 * a - 1) * 2 ^ k <= 2 * m <= (2 * a + 1) * 2 ^ k /\
  (2 * m = (2 * a - 1) * 2 ^ k \/ 2 * m = (2 * a + 1) * 2 ^ k ->
   Z.even a = true).
Proof.
  intros Hm Hk. unfold PyFloat.round_half_even_shift.
  rewrite Z.shiftr_div_pow2, !Z.shiftl_mul_pow2 by assumption.
  assert (Hp : 0 < 2 ^ k) by (apply Z.pow_pos_nonneg; lia).
  pose proof (Z.div_mod m (2 ^ k) ltac:(lia)) as Hd.
  pose proof (Z.mod_pos_bound m (2 ^ k) Hp) as Hr.
  set (q := m / 2 ^ k) in *. set (r := m mod 2 ^ k) in *.
  replace (m - q * 2 ^ k) with r by lia.
  rewrite Z.mul_1_l.
  destruct (Z.compare_spec (2 * r) (2 ^ k)) as [He|Hlt|Hgt]; cbv zeta.
  - destruct (Z.even q) eqn:Hq.
    + split; [nia|]. intros _. exact Hq.
    + split; [nia|]. intros _.
      rewrite Z.even_add, Hq. reflexivity.
  - split; [nia|]. intros [H|H]; exfalso; nia.
  - split; [nia|]. intros [H|H]; exfalso; nia.
Qed.



(** ** The loop of [create_tensor] and the storage *)

Lemma create_tensor_unfold (piano_roll mel : ndarray) (stem : string)
    (chunk_len : Z) (save_path : Path) (st : storage) :
  create_tensor piano_roll mel stem chunk_len save_path st =
  match norm_sg 24 128 mel with
  | Raise e => (Raise e, st)
  | Ok norm_db =>
      match py_range 0 (Z.of_nat (ncols norm_db)) chunk_len with
      | Raise e => (Raise e, st)
      | Ok m_secs =>
          io_for m_secs
            (create_tensor_step piano_roll norm_db (Z.of_nat (ncols norm_db))
               stem chunk_len save_path) st
      end
  end.
Proof.
  unfold create_tensor, io_bind, io_lift.
  destruct (norm_sg 24 128 mel) as [nd|e]; [|reflexivity].
  destruct (py_range 0 _ chunk_len) as [ms|e]; reflexivity.
Qed.

Lemma create_tensor_step_unfold (piano_roll norm_db : ndarray) (song_len : Z)
    (stem : string) (chunk_len : Z) (save_path : Path) (m_sec : Z) (st : storage) :
  create_tensor_step piano_roll norm_db song_len stem chunk_len save_path m_sec st =
  match extract_chunk piano_roll norm_db m_sec (m_sec + chunk_len) song_len with
  | Raise e => (Raise e, st)
  | Ok (pr_chunk, sg_chunk) =>
      let sp := spec_path save_path stem chunk_len m_sec in
      let pp := piano_path save_path stem chunk_len m_sec in
      if can_write st (written st) sp then
        if can_write st (written st ++ [(sp, sg_chunk)]) pp then
          (Ok tt, {| can_write := can_write st;
                     written := written st ++ [(sp, sg_chunk); (pp, pr_chunk)] |})
        else
          (Raise OSError, {| can_write := can_write st;
                             written := written st ++ [(sp, sg_chunk)] |})
      else (Raise OSError, st)
  end.
Proof.
  unfold create_tensor_step, io_bind, io_lift, save_array, spec_path, piano_path.
  destruct (extract_chunk _ _ _ _ _) as [[p s]|e]; [|reflexivity].
  cbv zeta. destruct (can_write st (written st) _); [|reflexivity].
  cbn [can_write written].
  destruct (can_write st _ _); [|reflexivity].
  rewrite <- app_assoc. reflexivity.
Qed.

Lemma io_for_app {X : Type} (l1 l2 : list X) (body : X -> IO unit) (st : storage) :
  io_for (l1 ++ l2) body st =
  match io_for l1 body st with
  | (Ok _, st1) => io_for l2 body st1
  | (Raise e, st1) => (Raise e, st1)
  end.
Proof.
  revert st. induction l1 as [|x l1 IH]; intros st; [reflexivity|].
  cbn [app io_for]. unfold io_bind.
  destruct (body x st) as [[[]|e] st1]; [apply IH|reflexivity].
Qed.

(** An exception in the body for one element ends the loop there: the
    elements after it are not visited. *)
Lemma io_for_abort {X : Type} (l1 l2 : list X) (x : X) (body : X -> IO unit)
    (st st1 st2 : storage) (e : exn) :
  io_for l1 body st = (Ok tt, st1) ->
  body x st1 = (Raise e, st2) ->
  io_for (l1 ++ x :: l2) body st = (Raise e, st2).
Proof.
  intros H1 H2. rewrite io_for_app, H1. cbn [io_for]. unfold io_bind.
  now rewrite H2.
Qed.

(** What one successful pass of the loop body appends to the log. *)
Lemma create_tensor_step_ok (piano_roll norm_db : ndarray) (song_len : Z)
    (stem : string) (chunk_len : Z) (save_path : Path) (m_sec : Z)
    (st st' : storage) :
  create_tensor_step piano_roll norm_db song_len stem chunk_len save_path m_sec st
    = (Ok tt, st') ->
  exists arts,
    window_artifacts piano_roll norm_db song_len stem chunk_len save_path m_sec
      = Ok arts /\
    written st' = written st ++ arts /\ can_write st' = can_write st.
Proof.
  rewrite create_tensor_step_unfold. unfold window_artifacts.
  destruct (extract_chunk _ _ _ _ _) as [[p s]|e]; [|discriminate].
  cbv zeta. cbn [rbind fst snd].
  destruct (can_write st (written st) _); [|discriminate].
  destruct (can_write st _ _); [|discriminate].
  intros H. injection H as <-. eexists. split; [reflexivity|]. split; reflexivity.
Qed.

Lemma create_tensor_step_any (piano_roll norm_db : ndarray) (song_len : Z)
    (stem : string) (chunk_len : Z) (save_path : Path) (m_sec : Z)
    (st st' : storage) (r : result unit) :
  create_tensor_step piano_roll norm_db song_len stem chunk_len save_path m_sec st
    = (r, st') ->
  exists ws,
    written st' = written st ++ ws /\ can_write st' = can_write st /\
    Forall (artifact_of save_path stem chunk_len [m_sec]) ws.
Proof.
  rewrite create_tensor_step_unfold.
  assert (Hs : forall a, artifact_of save_path stem chunk_len [m_sec]
                 (spec_path save_path stem chunk_len m_sec, a)).
  { intros a. exists m_sec, "spec"%string. cbn. auto. }
  assert (Hp : forall a, artifact_of save_path stem chunk_len [m_sec]
                 (piano_path save_path stem chunk_len m_sec, a)).
  { intros a. exists m_sec, "piano"%string. cbn. auto. }
  destruct (extract_chunk _ _ _ _ _) as [[p s]|e].
  - cbv zeta. destruct (can_write st (written st) _).
    + destruct (can_write st _ _); intros H; injection H as <- <-;
        eexists; (split; [reflexivity|]); (split; [reflexivity|]); auto.
    + intros H; injection H as <- <-. exists []. rewrite app_nil_r. auto.
  - intros H; injection H as <- <-. exists []. rewrite app_nil_r. auto.
Qed.

Lemma artifact_of_incl (save_path : Path) (stem : string) (chunk_len : Z)
    (l l' : list Z) (w : Path * ndarray) :
  incl l l' ->
  artifact_of save_path stem chunk_len l w ->
  artifact_of save_path stem chunk_len l' w.
Proof.
  intros Hi (m & k & Hm & Hk & Hw). exists m, k. auto.
Qed.

Section Loop.

Variables (piano_roll norm_db : ndarray) (song_len : Z) (stem : string)
          (chunk_len : Z) (save_path : Path).

Local Abbreviation body :=
  (create_tensor_step piano_roll norm_db song_len stem chunk_len save_path).

Lemma io_for_any (m_secs : list Z) (st st' : storage) (r : result unit) :
  io_for m_secs body st = (r, st') ->
  exists ws,
    written st' = written st ++ ws /\ can_write st' = can_write st /\
    Forall (artifact_of save_path stem chunk_len m_secs) ws.
Proof.
  revert st. induction m_secs as [|m ms IH]; intros st H.
  - cbn in H. injection H as <- <-. exists []. rewrite app_nil_r. auto.
  - cbn [io_for] in H. unfold io_bind in H.
    destruct (body m st) as [[[]|e] st1] eqn:Hb.
    + destruct (create_tensor_step_any _ _ _ _ _ _ _ _ _ _ Hb) as (w1 & E1 & C1 & F1).
      destruct (IH _ H) as (w2 & E2 & C2 & F2).
      exists (w1 ++ w2). rewrite E2, E1, C2, C1, app_assoc.
      split; [reflexivity|]. split; [reflexivity|].
      apply Forall_app. split.
      * revert F1. apply Forall_impl. intros w. apply artifact_of_incl.
        intros x [<-|[]]. now left.
      * revert F2. apply Forall_impl. intros w. apply artifact_of_incl.
        intros x Hx. now right.
    + injection H as <- <-.
      destruct (create_tensor_step_any _ _ _ _ _ _ _ _ _ _ Hb) as (w1 & E1 & C1 & F1).
      exists w1. split; [assumption|]. split; [assumption|].
      revert F1. apply Forall_impl. intros w. apply artifact_of_incl.
      intros x [<-|[]]. now left.
Qed.

Lemma io_for_ok (m_secs : list Z) (st st' : storage) :
  io_for m_secs body st = (Ok tt, st') ->
  exists arts,
    Forall2 (fun m a =>
               window_artifacts piano_roll norm_db song_len stem chunk_len
                 save_path m = Ok a) m_secs arts /\
    written st' = written st ++ concat arts /\ can_write st' = can_write st.
Proof.
  revert st. induction m_secs as [|m ms IH]; intros st H.
  - cbn in H. injection H as <-. exists []. cbn. rewrite app_nil_r. auto.
  - cbn [io_for] in H. unfold io_bind in H.
    destruct (body m st) as [[[]|e] st1] eqn:Hb; [|discriminate].
    destruct (create_tensor_step_ok _ _ _ _ _ _ _ _ _ Hb) as (a & Ha & E1 & C1).
    destruct (IH _ H) as (arts & F & E2 & C2).
    exists (a :: arts). split; [now constructor|].
    cbn [concat]. rewrite E2, E1, C2, C1, app_assoc. auto.
Qed.

End Loop.

(** ** Exceptions *)

Lemma finite_or_overflow_exn (f : spec_float) (e : exn) :
  PyFloat.finite_or_overflow f = Raise e -> e = OverflowError \/ e = ValueError.
Proof. destruct f; cbn; intros H; inversion H; auto. Qed.

Lemma sym_index_exn (t n i : Z) (e : exn) :
  sym_index t n i = Raise e ->
  e = ZeroDivisionError \/ e = OverflowError \/ e = ValueError.
Proof.
  unfold sym_index, PyFloat.int_true_div, PyFloat.int_mul_float, PyFloat.of_int.
  destruct (t =? 0); destruct (n =? 0); cbn [rbind];
    try (intros H; inversion H; auto; fail).
  - destruct (PyFloat.finite_or_overflow (binary_normalize _ _ i 0 false))
      as [fi|e1] eqn:Hi; cbn [rbind].
    + destruct (SFmul _ _ fi _); cbn; intros H; inversion H; auto.
    + intros H; inversion H; subst.
      destruct (finite_or_overflow_exn _ _ Hi); auto.
  - destruct (SFdiv_core_binary _ _ _ _ _ _) as [[q e1] l].
    destruct (PyFloat.finite_or_overflow (binary_round_aux _ _ _ q e1 l))
      as [r|e2] eqn:Hr; cbn [rbind].
    + destruct (PyFloat.finite_or_overflow (binary_normalize _ _ i 0 false))
        as [fi|e3] eqn:Hi; cbn [rbind].
      * destruct (SFmul _ _ fi r); cbn; intros H; inversion H; auto.
      * intros H; inversion H; subst.
        destruct (finite_or_overflow_exn _ _ Hi); auto.
    + intros H; inversion H; subst.
      destruct (finite_or_overflow_exn _ _ Hr); auto.
Qed.

Lemma extract_chunk_exn (piano_roll norm_db : ndarray) (start stop song_len : Z)
    (e : exn) :
  extract_chunk piano_roll norm_db start stop song_len = Raise e ->
  e = ZeroDivisionError \/ e = OverflowError \/ e = ValueError.
Proof.
  rewrite extract_chunk_spec.
  destruct (sym_index _ song_len start) as [a|e1] eqn:Ha; cbn [rbind].
  - destruct (sym_index _ song_len stop) as [b|e2] eqn:Hb; cbn [rbind].
    + discriminate.
    + intros H; inversion H; subst. eapply sym_index_exn; eassumption.
  - intros H; inversion H; subst. eapply sym_index_exn; eassumption.
Qed.

Lemma extract_chunk_zero_len (piano_roll norm_db : ndarray) (start stop : Z) :
  extract_chunk piano_roll norm_db start stop 0 = Raise ZeroDivisionError.
Proof. reflexivity. Qed.

Lemma norm_sg_nonempty (prec emax : Z) (a : ndarray) :
  elements a <> [] -> exists b, norm_sg prec emax a = Ok b /\ ncols b = ncols a.
Proof.
  intros H. unfold norm_sg, array_min, array_max.
  destruct (elements a) as [|x xs]; [congruence|].
  cbn [rbind]. eexists. split; reflexivity.
Qed.

Lemma norm_sg_exn (prec emax : Z) (a : ndarray) (e : exn) :
  norm_sg prec emax a = Raise e -> e = RuntimeError.
Proof.
  unfold norm_sg, array_min, array_max.
  destruct (elements a); cbn [rbind]; intros H; inversion H; reflexivity.
Qed.

Lemma py_range_neg_step (n l : Z) : 0 <= n -> l < 0 -> py_range 0 n l = Ok [].
Proof.
  intros Hn Hl. unfold py_range. destruct (Z.eqb_spec l 0); [lia|].
  f_equal. destruct (Z.to_nat _); [reflexivity|]. cbn [range_loop].
  destruct (Z.ltb_spec 0 l); [lia|]. destruct (Z.ltb_spec n 0); [lia|].
  now rewrite andb_false_r.
Qed.

Lemma create_tensor_step_exn (piano_roll norm_db : ndarray) (song_len : Z)
    (stem : string) (chunk_len : Z) (save_path : Path) (m_sec : Z)
    (st st' : storage) (e : exn) :
  create_tensor_step piano_roll norm_db song_len stem chunk_len save_path m_sec st
    = (Raise e, st') ->
  e <> InvalidInputError.
Proof.
  rewrite create_tensor_step_unfold.
  destruct (extract_chunk _ _ _ _ _) as [[p s]|e1] eqn:He.
  - cbv zeta. destruct (can_write st (written st) _);
      [destruct (can_write st _ _)|]; intros H; inversion H; discriminate.
  - intros H; inversion H; subst.
    destruct (extract_chunk_exn _ _ _ _ _ _ He) as [->|[->| ->]]; discriminate.
Qed.

Lemma io_for_exn (piano_roll norm_db : ndarray) (song_len : Z)
    (stem : string) (chunk_len : Z) (save_path : Path) (m_secs : list Z)
    (st st' : storage) (e : exn) :
  io_for m_secs
    (create_tensor_step piano_roll norm_db song_len stem chunk_len save_path) st
    = (Raise e, st') ->
  e <> InvalidInputError.
Proof.
  revert st. induction m_secs as [|m ms IH]; intros st H.
  - discriminate.
  - cbn [io_for] in H. unfold io_bind in H.
    destruct (create_tensor_step _ _ _ _ _ _ m st) as [[[]|e1] st1] eqn:Hb.
    + eapply IH; eassumption.
    + inversion H; subst. eapply create_tensor_step_exn; eassumption.
Qed.

(** C3, as the code behaves.  With [song_len = 0] [extract_chunk] raises
    the [ZeroDivisionError] of [pr_frames / song_len].  On a spectrogram that
    has elements, [create_tensor] with [chunk_len = 0] raises the
    [ValueError] of [range] before any window is processed, and with a
    negative [chunk_len] it visits no window, writes nothing and returns.
    Neither function raises [InvalidInputError] on any input. *)
Theorem C3_degenerate_inputs :
  (forall piano_roll norm_db start stop,
      extract_chunk piano_roll norm_db start stop 0 = Raise ZeroDivisionError) /\
  (forall piano_roll mel stem save_path st,
      elements mel <> [] ->
      create_tensor piano_roll mel stem 0 save_path st = (Raise ValueError, st)) /\
  (forall piano_roll mel stem chunk_len save_path st,
      elements mel <> [] -> chunk_len < 0 ->
      create_tensor piano_roll mel stem chunk_len save_path st = (Ok tt, st)) /\
  (forall piano_roll norm_db start stop song_len,
      extract_chunk piano_roll norm_db start stop song_len
        <> Raise InvalidInputError) /\
  (forall piano_roll mel stem chunk_len save_path st,
      fst (create_tensor piano_roll mel stem chunk_len save_path st)
        <> Raise InvalidInputError).
Proof.
  split; [|split; [|split; [|split]]].
  - intros. apply extract_chunk_zero_len.
  - intros pr mel stem save st Hne.
    destruct (norm_sg_nonempty 24 128 mel Hne) as (nd & Hn & _).
    rewrite create_tensor_unfold, Hn. reflexivity.
  - intros pr mel stem l save st Hne Hl.
    destruct (norm_sg_nonempty 24 128 mel Hne) as (nd & Hn & _).
    rewrite create_tensor_unfold, Hn, py_range_neg_step by lia. reflexivity.
  - intros pr sg start stop n H.
    destruct (extract_chunk_exn _ _ _ _ _ _ H) as [E|[E|E]]; discriminate.
  - intros pr mel stem l save st. rewrite create_tensor_unfold.
    destruct (norm_sg 24 128 mel) as [nd|e] eqn:Hn.
    + destruct (py_range 0 _ l) as [ms|e] eqn:Hr.
      * destruct (io_for ms _ st) as [[[]|e] st'] eqn:Hf; cbn [fst].
        -- discriminate.
        -- intros H. inversion H; subst. eapply io_for_exn; eauto.
      * cbn [fst]. unfold py_range in Hr.
        destruct (l =? 0); inversion Hr. discriminate.
    + cbn [fst]. rewrite (norm_sg_exn _ _ _ _ Hn). discriminate.
Qed.

Lemma C3_degenerate_inputs_witness :
  create_tensor ex_piano_roll ex_mel "a" 0 ["out"%string] ex_storage
    = (Raise ValueError, ex_storage) /\
  create_tensor ex_piano_roll ex_mel "a" (-2) ["out"%string] ex_storage
    = (Ok tt, ex_storage).
Proof.
  split.
  - apply (proj1 (proj2 C3_degenerate_inputs)). vm_compute. discriminate.
  - apply (proj1 (proj2 (proj2 C3_degenerate_inputs))).
    + vm_compute. discriminate.
    + lia.
Defined.

(** C3 as stated fails: with [song_len = 0] the aligner raises
    [ZeroDivisionError], and the driver raises [ValueError] for a zero chunk
    length and nothing for a negative one. *)
Lemma C3_counterexample :
  extract_chunk ex_piano_roll ex_mel 0 2 0 = Raise ZeroDivisionError /\
  extract_chunk ex_piano_roll ex_mel 0 2 0 <> Raise InvalidInputError /\
  fst (create_tensor ex_piano_roll ex_mel "a" 0 ["out"%string] ex_storage)
    <> Raise InvalidInputError /\
  fst (create_tensor ex_piano_roll ex_mel "a" (-2) ["out"%string] ex_storage)
    <> Raise InvalidInputError.
Proof. vm_compute. repeat split; discriminate. Qed.

(** ** Write failures *)

(** C7, as the code behaves.  When [save_array] raises [OSError] for an
    artifact of one window, the exception leaves the loop of
    [create_tensor]: the call fails with [OSError], the storage is the one
    at the failure (the artifacts written before it, and the spectrogram
    artifact of the failing window if it was the piano roll artifact that
    failed), and no later window is processed or persisted. *)
Theorem C7_write_failure_aborts (piano_roll mel norm_db : ndarray) (stem : string)
    (chunk_len : Z) (save_path : Path) (st st1 : storage)
    (before after : list Z) (m_sec : Z) (pr_chunk sg_chunk : ndarray) :
  norm_sg 24 128 mel = Ok norm_db ->
  py_range 0 (Z.of_nat (ncols norm_db)) chunk_len = Ok (before ++ m_sec :: after) ->
  io_for before
    (create_tensor_step piano_roll norm_db (Z.of_nat (ncols norm_db))
       stem chunk_len save_path) st = (Ok tt, st1) ->
  extract_chunk piano_roll norm_db m_sec (m_sec + chunk_len)
    (Z.of_nat (ncols norm_db)) = Ok (pr_chunk, sg_chunk) ->
  (can_write st1 (written st1) (spec_path save_path stem chunk_len m_sec) = false ->
   create_tensor piano_roll mel stem chunk_len save_path st = (Raise OSError, st1)) /\
  (can_write st1 (written st1) (spec_path save_path stem chunk_len m_sec) = true ->
   can_write st1
     (written st1 ++ [(spec_path save_path stem chunk_len m_sec, sg_chunk)])
     (piano_path save_path stem chunk_len m_sec) = false ->
   create_tensor piano_roll mel stem chunk_len save_path st =
   (Raise OSError,
    {| can_write := can_write st1;
       written := written st1
                  ++ [(spec_path save_path stem chunk_len m_sec, sg_chunk)] |})).
Proof.
  intros Hn Hr Hb He. rewrite create_tensor_unfold, Hn, Hr.
  split.
  - intros Hw. apply (io_for_abort _ _ _ _ _ _ _ _ Hb).
    rewrite create_tensor_step_unfold, He. cbv zeta. now rewrite Hw.
  - intros Hw1 Hw2. apply (io_for_abort _ _ _ _ _ _ _ _ Hb).
    rewrite create_tensor_step_unfold, He. cbv zeta. now rewrite Hw1, Hw2.
Qed.

Lemma C7_write_failure_aborts_witness :
  (can_write ex_storage_refusing (written ex_storage_refusing)
     (spec_path ["out"%string] "a" 2 0) = false ->
   create_tensor ex_piano_roll ex_mel "a" 2 ["out"%string] ex_storage_refusing
     = (Raise OSError, ex_storage_refusing)) /\
  (can_write ex_storage_refusing (written ex_storage_refusing)
     (spec_path ["out"%string] "a" 2 0) = true ->
   can_write ex_storage_refusing
     (written ex_storage_refusing
      ++ [(spec_path ["out"%string] "a" 2 0, slice_cols
             (map_array (fun v => SFdiv 24 128 (SFsub 24 128 v
                (S754_finite true 10485760 (-17)))
                (S754_finite false 10485760 (-17))) ex_mel) 0 2)])
     (piano_path ["out"%string] "a" 2 0) = false ->
   create_tensor ex_piano_roll ex_mel "a" 2 ["out"%string] ex_storage_refusing =
   (Raise OSError,
    {| can_write := can_write ex_storage_refusing;
       written := written ex_storage_refusing
                  ++ [(spec_path ["out"%string] "a" 2 0, slice_cols
             (map_array (fun v => SFdiv 24 128 (SFsub 24 128 v
                (S754_finite true 10485760 (-17)))
                (S754_finite false 10485760 (-17))) ex_mel) 0 2)] |})).
Proof.
  apply (C7_write_failure_aborts ex_piano_roll ex_mel
           (map_array (fun v => SFdiv 24 128 (SFsub 24 128 v
                (S754_finite true 10485760 (-17)))
                (S754_finite false 10485760 (-17))) ex_mel)
           "a" 2 ["out"%string] ex_storage_refusing ex_storage_refusing
           [] [2; 4] 0
           (with_marker (slice_cols ex_piano_roll 0 4))).
  - vm_compute. reflexivity.
  - vm_compute. reflexivity.
  - reflexivity.
  - vm_compute. reflexivity.
Defined.

(** C7 as stated fails: the storage refuses the spectrogram artifact of the
    first of three windows and accepts every other path; the call fails and
    the artifacts of the second and third window are never written. *)
Lemma C7_counterexample :
  windows 5 2 = Ok [(0, 2); (2, 4); (4, 6)] /\
  can_write ex_storage_refusing [] (spec_path ["out"%string] "a" 2 2) = true /\
  can_write ex_storage_refusing [] (piano_path ["out"%string] "a" 2 2) = true /\
  fst (create_tensor ex_piano_roll ex_mel "a" 2 ["out"%string] ex_storage_refusing)
    = Raise OSError /\
  written (snd (create_tensor ex_piano_roll ex_mel "a" 2 ["out"%string]
                  ex_storage_refusing)) = [].
Proof. vm_compute. repeat split. Qed.

(** ** Artifact names *)

(** The writes of the windows, from the chunks [extract_chunk] returned. *)
Lemma window_artifacts_chunks (piano_roll nd : ndarray) (song_len : Z)
    (stem : string) (chunk_len : Z) (save_path : Path) (ms : list Z)
    (arts : list (list (Path * ndarray))) :
  Forall2 (fun m a =>
             window_artifacts piano_roll nd song_len stem chunk_len save_path m
               = Ok a) ms arts ->
  exists chunks,
    Forall2 (fun m c =>
               extract_chunk piano_roll nd m (m + chunk_len) song_len = Ok c)
            ms chunks /\
    concat arts =
    flat_map (fun mc =>
                [(save_path ++ [artifact_name (fst mc) chunk_len stem "spec"],
                  snd (snd mc));
                 (save_path ++ [artifact_name (fst mc) chunk_len stem "piano"],
                  fst (snd mc))])
             (combine ms chunks) /\
    length (concat arts) = (2 * length ms)%nat.
Proof.
  intros F. induction F as [|m a ms arts Ha F IH].
  - exists []. repeat split. constructor.
  - destruct IH as (cs & Fc & Ec & Lc).
    unfold window_artifacts in Ha.
    destruct (extract_chunk _ _ m _ _) as [c|e] eqn:Hc; [|discriminate].
    cbn [rbind] in Ha. injection Ha as <-.
    exists (c :: cs). split; [now constructor|].
    cbn [combine flat_map concat fst snd app length].
    rewrite Lc, Ec. split; [reflexivity|lia].
Qed.

(** A run of [create_tensor] that succeeds wrote the two artifacts of every
    window, in order. *)
Lemma create_tensor_ok (piano_roll mel : ndarray) (stem : string)
    (chunk_len : Z) (save_path : Path) (st st' : storage) :
  create_tensor piano_roll mel stem chunk_len save_path st = (Ok tt, st') ->
  exists norm_db m_secs chunks,
    norm_sg 24 128 mel = Ok norm_db /\
    py_range 0 (Z.of_nat (ncols norm_db)) chunk_len = Ok m_secs /\
    Forall2 (fun m c =>
               extract_chunk piano_roll norm_db m (m + chunk_len)
                 (Z.of_nat (ncols norm_db)) = Ok c) m_secs chunks /\
    written st' = written st ++
      flat_map (fun mc =>
                  [(save_path ++ [artifact_name (fst mc) chunk_len stem "spec"],
                    snd (snd mc));
                   (save_path ++ [artifact_name (fst mc) chunk_len stem "piano"],
                    fst (snd mc))])
               (combine m_secs chunks) /\
    can_write st' = can_write st.
Proof.
  rewrite create_tensor_unfold.
  destruct (norm_sg 24 128 mel) as [nd|e] eqn:Hn; [|discriminate].
  destruct (py_range 0 _ chunk_len) as [ms|e] eqn:Hr; [|discriminate].
  intros H.
  destruct (io_for_ok _ _ _ _ _ _ _ _ _ H) as (arts & F & Hw & Hc).
  destruct (window_artifacts_chunks _ _ _ _ _ _ _ _ F) as (cs & Fc & Ec & _).
  exists nd, ms, cs. rewrite <- Ec. repeat split; assumption.
Qed.



(** C9. Every array [create_tensor] writes, in a run that succeeds or
    fails, goes to [save_path / "{m_sec}-{m_sec+chunk_len}-{stem}-{kind}.npy"]
    for a window start [m_sec] of the loop and [kind] one of [spec] and
    [piano].  In a run that succeeds each window contributes exactly two
    writes, the acoustic slice under [spec] and then the symbolic slice under
    [piano], in the order of the windows. *)
Theorem C9_artifact_names (piano_roll mel : ndarray) (stem : string)
    (chunk_len : Z) (save_path : Path) (st st' : storage) (r : result unit) :
  create_tensor piano_roll mel stem chunk_len save_path st = (r, st') ->
  exists ws,
    written st' = written st ++ ws /\
    (forall w, In w ws ->
       exists m_sec kind,
         (kind = "spec"%string \/ kind = "piano"%string) /\
         fst w = save_path ++
                 [(str_int m_sec ++ "-" ++ str_int (m_sec + chunk_len) ++ "-"
                   ++ stem ++ "-" ++ kind ++ ".npy")%string]) /\
    (r = Ok tt ->
     exists norm_db m_secs chunks,
       norm_sg 24 128 mel = Ok norm_db /\
       py_range 0 (Z.of_nat (ncols norm_db)) chunk_len = Ok m_secs /\
       Forall2 (fun m c =>
                  extract_chunk piano_roll norm_db m (m + chunk_len)
                    (Z.of_nat (ncols norm_db)) = Ok c) m_secs chunks /\
       ws = flat_map (fun mc =>
                        [(save_path ++ [artifact_name (fst mc) chunk_len stem "spec"],
                          snd (snd mc));
                         (save_path ++ [artifact_name (fst mc) chunk_len stem "piano"],
                          fst (snd mc))])
                     (combine m_secs chunks) /\
       length ws = (2 * length m_secs)%nat).
Proof.
  rewrite create_tensor_unfold.
  destruct (norm_sg 24 128 mel) as [nd|e] eqn:Hn.
  2:{ intros H; injection H as <- <-. exists []. rewrite app_nil_r.
      split; [reflexivity|]. split; [intros w []|discriminate]. }
  destruct (py_range 0 _ chunk_len) as [ms|e] eqn:Hr.
  2:{ intros H; injection H as <- <-. exists []. rewrite app_nil_r.
      split; [reflexivity|]. split; [intros w []|discriminate]. }
  intros H.
  destruct (io_for_any _ _ _ _ _ _ _ _ _ _ H) as (ws & Hw & _ & Hf).
  exists ws. split; [exact Hw|]. split.
  - intros w Hin. rewrite Forall_forall in Hf.
    destruct (Hf w Hin) as (m & k & _ & Hk & Hp).
    exists m, k. split; [exact Hk|]. exact Hp.
  - intros ->.
    destruct (io_for_ok _ _ _ _ _ _ _ _ _ H) as (arts & F & Hw' & _).
    rewrite Hw in Hw'. apply app_inv_head in Hw'. subst ws.
    clear H Hw Hf.
    pose proof (window_artifacts_chunks _ _ _ _ _ _ _ _ F) as Hx.
    destruct Hx as (cs & Fc & Ec & Lc).
    exists nd, ms, cs. repeat split; assumption || reflexivity.
Qed.

Lemma C9_artifact_names_witness :
  exists ws,
    written (snd (create_tensor ex_piano_roll ex_mel "a" 2 ["out"%string] ex_storage))
      = written ex_storage ++ ws /\
    (forall w, In w ws ->
       exists m_sec kind,
         (kind = "spec"%string \/ kind = "piano"%string) /\
         fst w = ["out"%string] ++
                 [(str_int m_sec ++ "-" ++ str_int (m_sec + 2) ++ "-"
                   ++ "a" ++ "-" ++ kind ++ ".npy")%string]) /\
    (Ok tt = Ok tt ->
     exists norm_db m_secs chunks,
       norm_sg 24 128 ex_mel = Ok norm_db /\
       py_range 0 (Z.of_nat (ncols norm_db)) 2 = Ok m_secs /\
       Forall2 (fun m c =>
                  extract_chunk ex_piano_roll norm_db m (m + 2)
                    (Z.of_nat (ncols norm_db)) = Ok c) m_secs chunks /\
       ws = flat_map (fun mc =>
                        [(["out"%string] ++ [artifact_name (fst mc) 2 "a" "spec"],
                          snd (snd mc));
                         (["out"%string] ++ [artifact_name (fst mc) 2 "a" "piano"],
                          fst (snd mc))])
                     (combine m_secs chunks) /\
       length ws = (2 * length m_secs)%nat).
Proof.
  apply (C9_artifact_names ex_piano_roll ex_mel "a" 2 ["out"%string] ex_storage
           (snd (create_tensor ex_piano_roll ex_mel "a" 2 ["out"%string] ex_storage))
           (Ok tt)).
  vm_compute. reflexivity.
Defined.

(** ** The normalizer *)

Lemma norm_sg_spec (prec emax : Z) (a : ndarray) (lo hi : spec_float) :
  array_min a = Ok lo -> array_max a = Ok hi ->
  norm_sg prec emax a = Ok (map_array (norm_value prec emax lo hi) a).
Proof.
  intros Hlo Hhi. unfold norm_sg. rewrite Hlo, Hhi. reflexivity.
Qed.

Lemma map_array_shape (f : spec_float -> spec_float) (a : ndarray) :
  shape (map_array f a) = shape a.
Proof.
  unfold shape, nrows, map_array. cbn [rows ncols]. now rewrite length_map.
Qed.

Lemma map_array_wf (f : spec_float -> spec_float) (a : ndarray) :
  wf_ndarray (map_array f a) = wf_ndarray a.
Proof.
  unfold wf_ndarray, map_array. cbn [rows ncols].
  induction (rows a) as [|r rs IH]; [reflexivity|].
  cbn [map forallb]. now rewrite length_map, IH.
Qed.

Lemma map_array_elements (f : spec_float -> spec_float) (a : ndarray) :
  elements (map_array f a) = map f (elements a).
Proof.
  unfold elements, map_array. cbn [rows]. now rewrite concat_map.
Qed.

(** ** Binary floating-point rounding *)

Lemma digits2_pos_size (p : positive) : digits2_pos p = Pos.size p.
Proof. induction p; cbn; congruence. Qed.

Lemma Zdigits2_log2 (m : Z) : 0 < m -> Zdigits2 m = Z.log2 m + 1.
Proof.
  destruct m as [|p|p]; try lia. intros _. cbn [Zdigits2].
  rewrite digits2_pos_size. destruct p; cbn; lia.
Qed.

Lemma Zdigits2_0 : Zdigits2 0 = 0.
Proof. reflexivity. Qed.

Lemma Zdigits2_bounds (m : Z) :
  0 < m -> 2 ^ (Zdigits2 m - 1) <= m < 2 ^ Zdigits2 m.
Proof.
  intros H. rewrite Zdigits2_log2 by assumption.
  replace (Z.log2 m + 1 - 1) with (Z.log2 m) by lia.
  apply Z.log2_spec. assumption.
Qed.

Lemma Zdigits2_pos (m : Z) : 0 < m -> 0 < Zdigits2 m.
Proof.
  intros H. rewrite Zdigits2_log2 by assumption.
  pose proof (Z.log2_nonneg m). lia.
Qed.

Lemma Zdigits2_nonneg (m : Z) : 0 <= m -> 0 <= Zdigits2 m.
Proof.
  intros H. destruct (Z.eq_dec m 0) as [->|]; [cbn; lia|].
  pose proof (Zdigits2_pos m). lia.
Qed.

Lemma Zdigits2_le_iff (m d : Z) :
  0 < m -> 0 <= d -> (Zdigits2 m <= d <-> m < 2 ^ d).
Proof.
  intros Hm Hd. pose proof (Zdigits2_bounds m Hm) as [Hl Hu].
  pose proof (Zdigits2_pos m Hm) as Hp. split; intros H.
  - eapply Z.lt_le_trans; [exact Hu|]. apply Z.pow_le_mono_r; lia.
  - destruct (Z.le_gt_cases (Zdigits2 m) d) as [|Hc]; [assumption|exfalso].
    assert (2 ^ d <= 2 ^ (Zdigits2 m - 1)) by (apply Z.pow_le_mono_r; lia).
    lia.
Qed.

Lemma Zdigits2_gt_iff (m d : Z) :
  0 < m -> 0 <= d -> (d < Zdigits2 m <-> 2 ^ d <= m).
Proof.
  intros Hm Hd. pose proof (Zdigits2_le_iff m d Hm Hd). lia.
Qed.

Lemma Zdigits2_unique (m d : Z) :
  2 ^ (d - 1) <= m < 2 ^ d -> 0 < m -> Zdigits2 m = d.
Proof.
  intros [Hl Hu] Hm.
  assert (Hd : 0 < d).
  { destruct (Z.lt_ge_cases 0 d) as [|Hc]; [assumption|exfalso].
    destruct (Z.eq_dec d 0) as [->|]; [cbn in Hu; lia|].
    rewrite (Z.pow_neg_r 2 d) in Hu by lia. lia. }
  pose proof (proj2 (Zdigits2_le_iff m d Hm ltac:(lia)) Hu).
  pose proof (proj2 (Zdigits2_gt_iff m (d - 1) Hm ltac:(lia)) Hl).
  lia.
Qed.

Lemma Zdigits2_mono (a b : Z) : 0 <= a <= b -> Zdigits2 a <= Zdigits2 b.
Proof.
  intros [Ha Hab]. destruct (Z.eq_dec a 0) as [->|Hn].
  - cbn. apply Zdigits2_nonneg. lia.
  - rewrite !Zdigits2_log2 by lia. pose proof (Z.log2_le_mono a b Hab). lia.
Qed.

Lemma Zdigits2_mul_pow2 (m k : Z) :
  0 < m -> 0 <= k -> Zdigits2 (m * 2 ^ k) = Zdigits2 m + k.
Proof.
  intros Hm Hk. assert (0 < 2 ^ k) by (apply Z.pow_pos_nonneg; lia).
  rewrite !Zdigits2_log2 by nia. rewrite Z.log2_mul_pow2 by lia. lia.
Qed.

Lemma Zdigits2_div_pow2 (m k : Z) :
  0 < m -> 0 <= k -> Zdigits2 (m / 2 ^ k) = Z.max (Zdigits2 m - k) 0.
Proof.
  intros Hm Hk. assert (Hp : 0 < 2 ^ k) by (apply Z.pow_pos_nonneg; lia).
  pose proof (Zdigits2_bounds m Hm) as [Hl Hu].
  pose proof (Zdigits2_pos m Hm) as Hd.
  destruct (Z.le_gt_cases (Zdigits2 m) k) as [Hc|Hc].
  - assert (m < 2 ^ k) by (apply Zdigits2_le_iff; lia).
    rewrite Z.div_small by lia. cbn. lia.
  - assert (Hge : 2 ^ k <= m) by (apply Zdigits2_gt_iff; lia).
    rewrite Z.max_l by lia.
    apply Zdigits2_unique.
    + split.
      * apply Z.div_le_lower_bound; [lia|].
        rewrite <- Z.pow_add_r by lia.
        replace (k + (Zdigits2 m - k - 1)) with (Zdigits2 m - 1) by lia. lia.
      * apply Z.div_lt_upper_bound; [lia|].
        rewrite <- Z.pow_add_r by lia.
        replace (k + (Zdigits2 m - k)) with (Zdigits2 m) by lia. lia.
    + apply Z.div_str_pos. lia.
Qed.

(** ** Nearest integer of a fraction, ties to even *)

Lemma rne_bounds (n d : Z) : n / d <= rne n d <= n / d + 1.
Proof.
  unfold rne. destruct (2 * (n mod d) ?= d); [destruct (Z.even _)| |]; lia.
Qed.

Lemma rne_nonneg (n d : Z) : 0 <= n -> 0 < d -> 0 <= rne n d.
Proof.
  intros Hn Hd. pose proof (rne_bounds n d).
  pose proof (Z.div_pos n d Hn Hd). lia.
Qed.

Lemma rne_le_int (n d g : Z) : 0 < d -> n <= g * d -> rne n d <= g.
Proof.
  intros Hd H. unfold rne.
  pose proof (Z.div_mod n d ltac:(lia)). pose proof (Z.mod_pos_bound n d Hd).
  destruct (Z.compare_spec (2 * (n mod d)) d); [destruct (Z.even _)| |]; nia.
Qed.

Lemma rne_ge_int (n d g : Z) : 0 < d -> g * d <= n -> g <= rne n d.
Proof.
  intros Hd H. pose proof (rne_bounds n d).
  pose proof (Z.div_mod n d ltac:(lia)). pose proof (Z.mod_pos_bound n d Hd).
  nia.
Qed.

Lemma rne_scale (n d t : Z) :
  0 < d -> 0 < t -> rne (n * t) (d * t) = rne n d.
Proof.
  intros Hd Ht. unfold rne.
  rewrite Z.div_mul_cancel_r by lia.
  rewrite Z.mul_mod_distr_r by lia.
  replace (2 * (n mod d * t)) with (2 * (n mod d) * t) by lia.
  rewrite (Z.mul_comm _ t), (Z.mul_comm d t).
  rewrite <- Zmult_compare_compat_l by lia. reflexivity.
Qed.

Lemma rne_exact (g d : Z) : 0 < d -> rne (g * d) d = g.
Proof.
  intros Hd. unfold rne. rewrite Z.mod_mul, Z.div_mul by lia.
  cbn [Z.mul]. destruct (Z.compare_spec 0 d); lia.
Qed.

Lemma rne_mono (n1 n2 d : Z) :
  0 <= n1 <= n2 -> 0 < d -> rne n1 d <= rne n2 d.
Proof.
  intros [H1 H12] Hd.
  pose proof (Z.div_le_mono n1 n2 d Hd H12) as Hq.
  destruct (Z.eq_dec (n1 / d) (n2 / d)) as [E|NE].
  - pose proof (Z.div_mod n1 d ltac:(lia)). pose proof (Z.div_mod n2 d ltac:(lia)).
    assert (Hr : n1 mod d <= n2 mod d) by nia.
    unfold rne. rewrite <- E.
    destruct (Z.compare_spec (2 * (n1 mod d)) d);
      destruct (Z.compare_spec (2 * (n2 mod d)) d);
      try destruct (Z.even _); lia.
  - pose proof (rne_bounds n1 d). pose proof (rne_bounds n2 d). lia.
Qed.

Lemma rne_one (n : Z) : rne n 1 = n.
Proof.
  unfold rne. rewrite Z.mod_1_r, Z.div_1_r. reflexivity.
Qed.

(** ** Shifting right with a round and a sticky bit *)

Lemma repr_of_loc (n d : Z) :
  0 <= n -> 0 < d -> repr (shr_record_of_loc (n / d) (loc_of n d)) n d.
Proof.
  intros Hn Hd. unfold repr, loc_of.
  pose proof (Z.mod_pos_bound n d Hd).
  destruct (Z.eqb_spec (n mod d) 0) as [E|NE];
    [|destruct (Z.compare_spec (2 * (n mod d)) d) as [E|L|G]];
    cbn [shr_record_of_loc shr_m shr_r shr_s orb negb];
    destruct (Z.leb_spec d (2 * (n mod d))); try lia;
    destruct (Z.eqb_spec (2 * (n mod d)) d); try lia; auto.
Qed.

Lemma loc_of_repr (mrs : shr_record) (n d : Z) :
  0 <= n -> 0 < d -> repr mrs n d ->
  round_nearest_even (shr_m mrs) (loc_of_shr_record mrs) = rne n d.
Proof.
  intros Hn Hd (Hm & Hr & Hs). destruct mrs as [m r s].
  cbn [shr_m shr_r shr_s] in *. subst m r s.
  unfold rne. pose proof (Z.mod_pos_bound n d Hd).
  destruct (Z.compare_spec (2 * (n mod d)) d);
    destruct (Z.leb_spec d (2 * (n mod d))); try lia;
    destruct (Z.eqb_spec (2 * (n mod d)) d); try lia;
    destruct (Z.eqb_spec (n mod d) 0); try lia; reflexivity.
Qed.

Lemma repr_shr_1 (mrs : shr_record) (n d : Z) :
  0 <= n -> 0 < d -> repr mrs n d -> repr (shr_1 mrs) n (2 * d).
Proof.
  intros Hn Hd (Hm & Hr & Hs). destruct mrs as [m r s].
  cbn [shr_m shr_r shr_s] in Hm, Hr, Hs.
  pose proof (Z.mod_pos_bound n d Hd) as Hb.
  pose proof (Z.div_mod n d ltac:(lia)) as Hdm.
  pose proof (Z.div_pos n d Hn Hd) as Hq.
  pose proof (Z.mod_pos_bound n (2 * d) ltac:(lia)) as Hb2.
  pose proof (Z.div_mod n (2 * d) ltac:(lia)) as Hdm2.
  assert (Hdd : n / (2 * d) = (n / d) / 2).
  { rewrite (Z.mul_comm 2 d), <- Z.div_div by lia. reflexivity. }
  pose proof (Z.div_mod (n / d) 2 ltac:(lia)) as Hq2.
  pose proof (Z.mod_pos_bound (n / d) 2 ltac:(lia)) as Hqb.
  assert (Hmod : n mod (2 * d) = (n / d) mod 2 * d + n mod d) by nia.
  assert (Hors : orb r s = negb (n mod d =? 0)).
  { subst r s. destruct (Z.eqb_spec (n mod d) 0); destruct (Z.leb_spec d (2 * (n mod d)));
      destruct (Z.eqb_spec (2 * (n mod d)) d); cbn [orb negb]; try lia; reflexivity. }
  set (q := n / d) in *. set (h := q / 2) in *. set (b := q mod 2) in *.
  assert (Hcase : shr_m (shr_1 {| shr_m := m; shr_r := r; shr_s := s |}) = h /\
                  shr_r (shr_1 {| shr_m := m; shr_r := r; shr_s := s |})
                    = (1 <=? b) /\
                  shr_s (shr_1 {| shr_m := m; shr_r := r; shr_s := s |})
                    = orb r s).
  { unfold shr_1. destruct m as [|[p|p|]|p]; cbn [shr_m shr_r shr_s];
      try lia; (split; [lia|]); (split; [|reflexivity]);
      destruct (Z.leb_spec 1 b); lia. }
  destruct Hcase as (C1 & C2 & C3).
  unfold repr. rewrite C1, C2, C3, Hors. split; [lia|].
  assert (Hb01 : b = 0 \/ b = 1) by lia.
  clearbody b h q. clear C1 C2 C3 Hors Hdd Hq2 Hqb Hdm2 Hdm.
  split.
  - destruct Hb01 as [-> | ->]; rewrite ?Z.mul_0_l, ?Z.mul_1_l in Hmod;
      destruct (Z.leb_spec 1 0); destruct (Z.leb_spec 1 1);
      destruct (Z.leb_spec (2 * d) (2 * (n mod (2 * d))));
      try reflexivity; lia.
  - destruct Hb01 as [-> | ->]; rewrite ?Z.mul_0_l, ?Z.mul_1_l in Hmod;
      destruct (Z.eqb_spec (n mod d) 0); destruct (Z.eqb_spec (n mod (2 * d)) 0);
      destruct (Z.eqb_spec (2 * (n mod (2 * d))) (2 * d)); cbn [orb negb];
      try reflexivity; lia.
Qed.

Lemma iter_pos_nat {A : Type} (f : A -> A) (p : positive) (x : A) :
  iter_pos f p x = Nat.iter (Pos.to_nat p) f x.
Proof.
  revert x. induction p as [p IH|p IH|]; intros x; cbn [iter_pos].
  - rewrite !IH, Pos2Nat.inj_xI.
    replace (S (2 * Pos.to_nat p)) with (S (Pos.to_nat p + Pos.to_nat p)) by lia.
    now rewrite Nat.iter_succ_r, Nat.iter_add.
  - rewrite !IH, Pos2Nat.inj_xO.
    replace (2 * Pos.to_nat p)%nat with (Pos.to_nat p + Pos.to_nat p)%nat by lia.
    now rewrite Nat.iter_add.
  - reflexivity.
Qed.

Lemma repr_iter_shr_1 (k : nat) (mrs : shr_record) (n d : Z) :
  0 <= n -> 0 < d -> repr mrs n d ->
  repr (Nat.iter k shr_1 mrs) n (d * 2 ^ Z.of_nat k).
Proof.
  intros Hn Hd H. induction k as [|k IH].
  - cbn. now rewrite Z.mul_1_r.
  - cbn [Nat.iter]. rewrite Nat2Z.inj_succ, Z.pow_succ_r by lia.
    replace (d * (2 * 2 ^ Z.of_nat k)) with (2 * (d * 2 ^ Z.of_nat k)) by lia.
    apply repr_shr_1; [assumption| |assumption].
    assert (0 < 2 ^ Z.of_nat k) by (apply Z.pow_pos_nonneg; lia). nia.
Qed.

Lemma repr_shr (mrs : shr_record) (n d e k : Z) :
  0 <= n -> 0 < d -> repr mrs n d ->
  repr (fst (shr mrs e k)) n (d * 2 ^ Z.max k 0) /\
  snd (shr mrs e k) = e + Z.max k 0.
Proof.
  intros Hn Hd H. destruct k as [|p|p]; unfold shr; cbn [fst snd].
  - change (Z.max 0 0) with 0. rewrite Z.mul_1_r. split; [assumption|lia].
  - rewrite Z.max_l by lia. split; [|reflexivity].
    rewrite iter_pos_nat, <- (positive_nat_Z p).
    now apply repr_iter_shr_1.
  - rewrite Z.max_r by lia. rewrite Z.mul_1_r. split; [assumption|lia].
Qed.

Section Format.

Variables prec emax : Z.
Hypothesis Hprec : 1 < prec.
Hypothesis Hemax : prec < emax.

Local Abbreviation emin := (emin prec emax).
Local Abbreviation fexp := (fexp prec emax).
Local Abbreviation ord := (sf_ord prec emax).
Local Abbreviation rnd := (sf_rnd prec).
Local Abbreviation rounded := (sf_rounded prec emax).
Local Abbreviation is_rounding := (sf_is_rounding prec emax).
Local Abbreviation valid := (valid_binary prec emax).

Lemma emin_neg : emin < 0 /\ emin <= emax - prec.
Proof. unfold SpecFloat.emin. lia. Qed.

Lemma fexp_ge_emin (x : Z) : emin <= fexp x.
Proof. unfold SpecFloat.fexp. lia. Qed.

Lemma fexp_mono (x y : Z) : x <= y -> fexp x <= fexp y.
Proof. unfold SpecFloat.fexp. lia. Qed.

Lemma binary_round_aux_unfold (s : bool) (n d e : Z) :
  0 <= n -> 0 < d ->
  let c := fexp (Zdigits2 (n / d) + e) in
  let k := Z.max (c - e) 0 in
  let m1 := rne n (d * 2 ^ k) in
  let e1 := e + k in
  let k2 := Z.max (fexp (Zdigits2 m1 + e1) - e1) 0 in
  binary_round_aux prec emax s (n / d) e (loc_of n d) =
  match m1 / 2 ^ k2 with
  | Z0 => S754_zero s
  | Zpos m => if e1 + k2 <=? emax - prec then S754_finite s m (e1 + k2)
              else S754_infinity s
  | Zneg _ => S754_nan
  end.
Proof.
  intros Hn Hd c k m1 e1 k2.
  unfold binary_round_aux, shr_fexp.
  fold c.
  pose proof (repr_shr _ n d e (c - e) Hn Hd (repr_of_loc n d Hn Hd)) as [R1 E1].
  fold k in R1, E1.
  destruct (shr (shr_record_of_loc (n / d) (loc_of n d)) e (c - e)) as [mrs' e'].
  cbn [fst snd] in R1, E1. subst e'. fold e1.
  assert (Hdk : 0 < d * 2 ^ k).
  { assert (0 < 2 ^ k) by (apply Z.pow_pos_nonneg; lia). nia. }
  rewrite (loc_of_repr mrs' n (d * 2 ^ k) Hn Hdk R1). fold m1.
  assert (Hm1 : 0 <= m1) by (apply rne_nonneg; assumption).
  pose proof (repr_shr _ m1 1 e1 (fexp (Zdigits2 m1 + e1) - e1) Hm1 ltac:(lia)
                (repr_of_loc m1 1 Hm1 ltac:(lia))) as [R2 E2].
  fold k2 in R2, E2.
  assert (Hl : loc_of m1 1 = loc_Exact).
  { unfold loc_of. now rewrite Z.mod_1_r. }
  rewrite Hl, Z.div_1_r in R2, E2.
  destruct (shr (shr_record_of_loc m1 loc_Exact) e1 _) as [mrs'' e''].
  cbn [fst snd] in R2, E2. subst e''.
  destruct R2 as (M2 & _). rewrite M2, Z.mul_1_l. reflexivity.
Qed.

(** The rounded mantissa has at most [prec] digits, or is [2^prec]. *)
Lemma round_core (n d e : Z) :
  0 <= n -> 0 < d ->
  let c := fexp (Zdigits2 (n / d) + e) in
  e <= c ->
  let m1 := rne n (d * 2 ^ (c - e)) in
  0 <= m1 <= 2 ^ prec /\ (emin < c -> 2 ^ (prec - 1) <= m1).
Proof.
  intros Hn Hd c Hec m1.
  assert (Hcdef : c = Z.max (Zdigits2 (n / d) + e - prec) emin) by reflexivity.
  clearbody c.
  assert (Hk : 0 < 2 ^ (c - e)) by (apply Z.pow_pos_nonneg; lia).
  assert (Hdk : 0 < d * 2 ^ (c - e)) by nia.
  pose proof (Z.div_pos n d Hn ltac:(lia)) as Hq.
  assert (Hqq : n / (d * 2 ^ (c - e)) = n / d / 2 ^ (c - e)).
  { rewrite Z.div_div by lia. reflexivity. }
  pose proof (rne_bounds n (d * 2 ^ (c - e))) as Hb. fold m1 in Hb.
  rewrite Hqq in Hb.
  assert (Hdig : Zdigits2 (n / d / 2 ^ (c - e)) <= prec /\
                 (emin < c -> Zdigits2 (n / d / 2 ^ (c - e)) = prec)).
  { destruct (Z.eq_dec (n / d) 0) as [E|NE].
    - rewrite E in *. rewrite Z.div_0_l by lia. cbn [Zdigits2] in *.
      split; [lia|]. intros Hc. exfalso. lia.
    - rewrite Zdigits2_div_pow2 by lia.
      split; [lia|]. intros Hc. lia. }
  destruct Hdig as [D1 D2].
  assert (Hq' : 0 <= n / d / 2 ^ (c - e)) by (apply Z.div_pos; lia).
  assert (Hup : n / d / 2 ^ (c - e) < 2 ^ prec).
  { destruct (Z.eq_dec (n / d / 2 ^ (c - e)) 0) as [E|NE].
    - rewrite E. apply Z.pow_pos_nonneg; lia.
    - apply Zdigits2_le_iff; lia. }
  split; [lia|].
  intros Hc. specialize (D2 Hc).
  assert (0 < n / d / 2 ^ (c - e)).
  { destruct (Z.eq_dec (n / d / 2 ^ (c - e)) 0) as [E|NE]; [|lia].
    rewrite E in D2. cbn in D2. lia. }
  pose proof (Zdigits2_bounds _ H) as [L _]. rewrite D2 in L. lia.
Qed.

Lemma canonical_iff (m : positive) (e : Z) :
  canonical_mantissa prec emax m e = true <->
  e = fexp (Zdigits2 (Zpos m) + e).
Proof.
  unfold canonical_mantissa. cbn [Zdigits2]. rewrite Z.eqb_eq. split; auto.
Qed.

(** Rounding under the usual precondition: the exponent of the input is at
    most the canonical exponent of its value. *)
Theorem binary_round_aux_ord (s : bool) (n d e : Z) :
  0 <= n -> 0 < d ->
  e <= fexp (Zdigits2 (n / d) + e) ->
  let r := binary_round_aux prec emax s (n / d) e (loc_of n d) in
  let w := rounded n d e in
  (w = 0 -> r = S754_zero s) /\
  (0 < w < 2 ^ (emax - emin) ->
   exists m e', r = S754_finite s m e' /\ valid_binary prec emax r = true /\
                Zpos m * 2 ^ (e' - emin) = w) /\
  (2 ^ (emax - emin) <= w -> r = S754_infinity s).
Proof.
  intros Hn Hd Hpre r w.
  pose proof (binary_round_aux_unfold s n d e Hn Hd) as U. cbv zeta in U.
  fold r in U.
  set (c := fexp (Zdigits2 (n / d) + e)) in *.
  rewrite (Z.max_l (c - e) 0) in U by lia.
  replace (e + (c - e)) with c in U by lia.
  destruct (round_core n d e Hn Hd Hpre) as [[M0 M1] M2]. fold c in M0, M1, M2.
  set (m1 := rne n (d * 2 ^ (c - e))) in *.
  assert (Hw : w = m1 * 2 ^ (c - emin)) by reflexivity.
  pose proof (fexp_ge_emin (Zdigits2 (n / d) + e)) as Hce. fold c in Hce.
  pose proof emin_neg as [En Ee].
  assert (Hpc : 0 < 2 ^ (c - emin)) by (apply Z.pow_pos_nonneg; lia).
  assert (Hpp : 0 < 2 ^ prec) by (apply Z.pow_pos_nonneg; lia).
  assert (Hpp1 : 2 ^ prec = 2 * 2 ^ (prec - 1)).
  { rewrite <- Z.pow_succ_r by lia. f_equal. lia. }
  (* the second shift *)
  assert (Hsec : m1 = 0 \/
                 (0 < m1 < 2 ^ prec /\ fexp (Zdigits2 m1 + c) = c) \/
                 (m1 = 2 ^ prec /\ fexp (Zdigits2 m1 + c) = c + 1)).
  { destruct (Z.eq_dec m1 0) as [|NZ]; [now left|right].
    destruct (Z.eq_dec m1 (2 ^ prec)) as [E|NE].
    - right. split; [assumption|].
      assert (Zdigits2 m1 = prec + 1).
      { apply Zdigits2_unique; [|lia]. rewrite E.
        replace (prec + 1 - 1) with prec by lia.
        rewrite Z.pow_add_r by lia. lia. }
      unfold SpecFloat.fexp in *. lia.
    - left. split; [lia|].
      assert (Hd1 : Zdigits2 m1 <= prec) by (apply Zdigits2_le_iff; lia).
      destruct (Z.eq_dec c emin) as [E|NEc].
      + unfold SpecFloat.fexp in *. lia.
      + assert (2 ^ (prec - 1) <= m1) by (apply M2; lia).
        assert (prec - 1 < Zdigits2 m1) by (apply Zdigits2_gt_iff; lia).
        unfold SpecFloat.fexp in *. lia. }
  destruct Hsec as [Z0 | [[Hm1 Hf] | [Hm1 Hf]]].
  - (* zero *)
    rewrite Z0 in U. rewrite Z.div_0_l in U
      by (apply Z.pow_nonzero; lia).
    split; [intros _; exact U|]. split; [|]; intros Hc; nia.
  - rewrite Hf, Z.sub_diag in U. change (Z.max 0 0) with 0 in U.
    rewrite Z.div_1_r, Z.add_0_r in U.
    destruct m1 as [|p|p] eqn:Em; try lia.
    split; [intros Hc; nia|].
    assert (Hcan : canonical_mantissa prec emax p c = true).
    { apply canonical_iff. symmetry. exact Hf. }
    pose proof (Zdigits2_bounds (Zpos p) ltac:(lia)) as [DL DU].
    assert (Hdc : c = Z.max (Zdigits2 (Z.pos p) + c - prec) emin)
      by (symmetry; exact Hf).
    destruct (Z.leb_spec c (emax - prec)) as [Hle|Hgt].
    + split.
      * intros Hc. exists p, c. split; [exact U|]. split; [|lia].
        rewrite U. cbn [valid_binary]. unfold bounded. rewrite Hcan.
        apply Z.leb_le in Hle. now rewrite Hle.
      * intros Hc. exfalso.
        assert (Z.pos p * 2 ^ (c - emin) < 2 ^ prec * 2 ^ (emax - prec - emin)).
        { assert (2 ^ (c - emin) <= 2 ^ (emax - prec - emin))
            by (apply Z.pow_le_mono_r; lia).
          nia. }
        rewrite <- Z.pow_add_r in H by lia.
        replace (prec + (emax - prec - emin)) with (emax - emin) in H by lia.
        lia.
    + split; [|intros _; exact U].
      intros Hc. exfalso.
      assert (Hdp : Zdigits2 (Z.pos p) = prec) by lia.
      rewrite Hdp in DL.
      assert (2 ^ (prec - 1) * 2 ^ (emax - prec + 1 - emin)
              <= Z.pos p * 2 ^ (c - emin)).
      { assert (2 ^ (emax - prec + 1 - emin) <= 2 ^ (c - emin))
          by (apply Z.pow_le_mono_r; lia).
        assert (0 < 2 ^ (prec - 1)) by (apply Z.pow_pos_nonneg; lia).
        assert (0 < 2 ^ (emax - prec + 1 - emin)) by (apply Z.pow_pos_nonneg; lia).
        nia. }
      rewrite <- Z.pow_add_r in H by lia.
      replace (prec - 1 + (emax - prec + 1 - emin)) with (emax - emin) in H by lia.
      lia.
  - (* carry *)
    rewrite Hf in U. replace (c + 1 - c) with 1 in U by lia.
    change (Z.max 1 0) with 1 in U. rewrite Hm1 in U.
    change (2 ^ 1) with 2 in U.
    assert (Hdiv : 2 ^ prec / 2 = 2 ^ (prec - 1)).
    { rewrite Hpp1, Z.mul_comm, Z.div_mul by lia. reflexivity. }
    rewrite Hdiv in U.
    assert (Hp1 : 0 < 2 ^ (prec - 1)) by (apply Z.pow_pos_nonneg; lia).
    destruct (2 ^ (prec - 1)) as [|p|p] eqn:Ep; try lia.
    assert (Hdp : Zdigits2 (Z.pos p) = prec).
    { apply Zdigits2_unique; [|lia]. rewrite <- Ep.
      split; [lia|]. apply Z.pow_lt_mono_r; lia. }
    assert (Hcan : canonical_mantissa prec emax p (c + 1) = true).
    { apply canonical_iff. rewrite Hdp. unfold SpecFloat.fexp. lia. }
    assert (Hwv : w = Z.pos p * 2 ^ (c + 1 - emin)).
    { rewrite Hw, Hm1, Hpp1.
      replace (c + 1 - emin) with (Z.succ (c - emin)) by lia.
      rewrite Z.pow_succ_r by lia. lia. }
    split; [intros Hc; nia|].
    destruct (Z.leb_spec (c + 1) (emax - prec)) as [Hle|Hgt].
    + split.
      * intros Hc. exists p, (c + 1). split; [exact U|]. split; [|lia].
        rewrite U. cbn [valid_binary]. unfold bounded. rewrite Hcan.
        apply Z.leb_le in Hle. now rewrite Hle.
      * intros Hc. exfalso.
        assert (2 ^ (c + 1 - emin) <= 2 ^ (emax - prec - emin))
          by (apply Z.pow_le_mono_r; lia).
        assert (Z.pos p * 2 ^ (c + 1 - emin)
                <= 2 ^ (prec - 1) * 2 ^ (emax - prec - emin)).
        { rewrite Ep. apply Z.mul_le_mono_nonneg_l; lia. }
        rewrite <- Z.pow_add_r in H0 by lia.
        replace (prec - 1 + (emax - prec - emin)) with (emax - emin - 1) in H0 by lia.
        assert (2 ^ (emax - emin - 1) < 2 ^ (emax - emin))
          by (apply Z.pow_lt_mono_r; lia).
        lia.
    + split; [|intros _; exact U].
      intros Hc. exfalso.
      assert (2 ^ (emax - prec + 1 - emin) <= 2 ^ (c + 1 - emin))
        by (apply Z.pow_le_mono_r; lia).
      assert (2 ^ (prec - 1) * 2 ^ (emax - prec + 1 - emin)
              <= Z.pos p * 2 ^ (c + 1 - emin)).
      { rewrite Ep. apply Z.mul_le_mono_nonneg_l; lia. }
      rewrite <- Z.pow_add_r in H0 by lia.
      replace (prec - 1 + (emax - prec + 1 - emin)) with (emax - emin) in H0 by lia.
      lia.
Qed.

Lemma valid_finite (s : bool) (m : positive) (e : Z) :
  valid_binary prec emax (S754_finite s m e) = true ->
  emin <= e <= emax - prec /\ Zdigits2 (Zpos m) <= prec /\
  (emin < e -> Zdigits2 (Zpos m) = prec) /\
  e = fexp (Zdigits2 (Zpos m) + e).
Proof.
  cbn [valid_binary]. unfold bounded. rewrite andb_true_iff, Z.leb_le.
  intros [Hc He]. apply (canonical_iff _ _) in Hc.
  unfold SpecFloat.fexp in *. lia.
Qed.

Lemma valid_mantissa_bounds (s : bool) (m : positive) (e : Z) :
  valid_binary prec emax (S754_finite s m e) = true ->
  Zpos m < 2 ^ prec /\ (emin < e -> 2 ^ (prec - 1) <= Zpos m).
Proof.
  intros H. destruct (valid_finite _ _ _ H) as (He & Hd & Hn & _).
  split.
  - apply Zdigits2_le_iff; lia.
  - intros Hlt. specialize (Hn Hlt). apply Zdigits2_gt_iff; lia.
Qed.

(** Magnitudes of valid floats are ordered as exponent, then mantissa. *)
Lemma magnitude_lt_exp (m1 m2 : positive) (e1 e2 : Z) (s1 s2 : bool) :
  valid_binary prec emax (S754_finite s1 m1 e1) = true ->
  valid_binary prec emax (S754_finite s2 m2 e2) = true ->
  e1 < e2 ->
  Zpos m1 * 2 ^ (e1 - emin) < Zpos m2 * 2 ^ (e2 - emin).
Proof.
  intros V1 V2 He.
  destruct (valid_finite _ _ _ V1) as (B1 & _).
  destruct (valid_finite _ _ _ V2) as (B2 & _).
  destruct (valid_mantissa_bounds _ _ _ V1) as [U1 _].
  destruct (valid_mantissa_bounds _ _ _ V2) as [_ L2].
  specialize (L2 ltac:(lia)).
  assert (H2 : 2 ^ (e2 - emin) = 2 ^ (e2 - e1) * 2 ^ (e1 - emin)).
  { rewrite <- Z.pow_add_r by lia. f_equal. lia. }
  assert (2 ^ 1 <= 2 ^ (e2 - e1)) by (apply Z.pow_le_mono_r; lia).
  change (2 ^ 1) with 2 in H.
  assert (0 < 2 ^ (e1 - emin)) by (apply Z.pow_pos_nonneg; lia).
  assert (Hp : 2 ^ prec = 2 * 2 ^ (prec - 1)).
  { rewrite <- Z.pow_succ_r by lia. f_equal. lia. }
  rewrite H2. nia.
Qed.

Lemma magnitude_compare (m1 m2 : positive) (e1 e2 : Z) (s1 s2 : bool) :
  valid_binary prec emax (S754_finite s1 m1 e1) = true ->
  valid_binary prec emax (S754_finite s2 m2 e2) = true ->
  match e1 ?= e2 with
  | Lt => Lt
  | Gt => Gt
  | Eq => Pos.compare_cont Eq m1 m2
  end = (Zpos m1 * 2 ^ (e1 - emin) ?= Zpos m2 * 2 ^ (e2 - emin)).
Proof.
  intros V1 V2. destruct (Z.compare_spec e1 e2) as [E|L|G].
  - subst e2. destruct (valid_finite _ _ _ V1) as (B1 & _).
    assert (0 < 2 ^ (e1 - emin)) by (apply Z.pow_pos_nonneg; lia).
    change (Pos.compare_cont Eq m1 m2) with (Z.pos m1 ?= Z.pos m2).
    rewrite !(Z.mul_comm (Z.pos _)).
    apply Zmult_compare_compat_l. lia.
  - symmetry. apply Z.compare_lt_iff. eapply magnitude_lt_exp; eassumption.
  - symmetry. apply Z.compare_gt_iff. eapply magnitude_lt_exp; eassumption.
Qed.

Lemma ord_sign (s : bool) (m : positive) (e : Z) :
  emin <= e ->
  if s then ord (S754_finite s m e) < 0 else 0 < ord (S754_finite s m e).
Proof.
  intros He. assert (0 < 2 ^ (e - emin)) by (apply Z.pow_pos_nonneg; lia).
  destruct s; cbn [sf_ord cond_Zopp]; nia.
Qed.

(** On valid finite floats [SFcompare] is the comparison of [ord]. *)
Lemma SFcompare_ord (x y : spec_float) :
  valid_binary prec emax x = true -> valid_binary prec emax y = true ->
  is_finite x = true -> is_finite y = true ->
  SFcompare x y = Some (ord x ?= ord y).
Proof.
  intros Vx Vy Fx Fy.
  destruct x as [sx|sx| |sx mx ex]; try discriminate;
    destruct y as [sy|sy| |sy my ey]; try discriminate.
  - reflexivity.
  - destruct (valid_finite _ _ _ Vy) as (By & _).
    pose proof (ord_sign sy my ey ltac:(lia)) as Hs.
    cbn [SFcompare]. f_equal. symmetry.
    change (ord (S754_zero sx)) with 0.
    destruct sy; [apply Z.compare_gt_iff|apply Z.compare_lt_iff]; exact Hs.
  - destruct (valid_finite _ _ _ Vx) as (Bx & _).
    pose proof (ord_sign sx mx ex ltac:(lia)) as Hs.
    cbn [SFcompare]. f_equal. symmetry.
    change (ord (S754_zero sy)) with 0.
    destruct sx; [apply Z.compare_lt_iff|apply Z.compare_gt_iff]; exact Hs.
  - destruct (valid_finite _ _ _ Vx) as (Bx & _).
    destruct (valid_finite _ _ _ Vy) as (By & _).
    pose proof (ord_sign sx mx ex ltac:(lia)) as Hx.
    pose proof (ord_sign sy my ey ltac:(lia)) as Hy.
    pose proof (magnitude_compare mx my ex ey sx sy Vx Vy) as Hc.
    cbn [SFcompare]. f_equal.
    destruct sx, sy.
    + cbn [sf_ord cond_Zopp].
      rewrite Z.compare_opp, (Z.compare_antisym (Z.pos mx * _)), <- Hc.
      destruct (ex ?= ey); reflexivity.
    + symmetry. apply Z.compare_lt_iff. lia.
    + symmetry. apply Z.compare_gt_iff. lia.
    + rewrite Hc. reflexivity.
Qed.

(** ** Bracketing the rounded value by a power of two *)

Lemma rounded_nonneg (n d e : Z) :
  0 <= n -> 0 < d -> e <= fexp (Zdigits2 (n / d) + e) -> 0 <= rounded n d e.
Proof.
  intros Hn Hd Hpre. unfold sf_rounded.
  set (c := fexp _) in *.
  assert (0 <= 2 ^ (c - emin)) by (apply Z.pow_nonneg; lia).
  assert (0 < 2 ^ (c - e)) by (apply Z.pow_pos_nonneg; lia).
  pose proof (rne_nonneg n (d * 2 ^ (c - e)) Hn ltac:(nia)). nia.
Qed.

Lemma rounded_le_pow2 (n d e t b : Z) :
  0 <= n -> 0 < d -> e <= fexp (Zdigits2 (n / d) + e) ->
  emin <= t -> b <= e -> b <= t ->
  n * 2 ^ (e - b) <= d * 2 ^ (t - b) ->
  rounded n d e <= 2 ^ (t - emin).
Proof.
  intros Hn Hd Hpre Ht Hbe Hbt Hle. unfold sf_rounded.
  set (c := fexp (Zdigits2 (n / d) + e)) in *.
  assert (Hcdef : c = Z.max (Zdigits2 (n / d) + e - prec) emin) by reflexivity.
  clearbody c.
  assert (Hpe : 0 < 2 ^ (e - b)) by (apply Z.pow_pos_nonneg; lia).
  assert (Hpt : 0 < 2 ^ (t - b)) by (apply Z.pow_pos_nonneg; lia).
  pose proof (Z.div_pos n d Hn Hd) as Hq.
  pose proof (Z.div_mod n d ltac:(lia)) as Hdm.
  pose proof (Z.mod_pos_bound n d Hd) as Hmb.
  (* the canonical exponent is at most t *)
  assert (Hct : c <= t).
  { destruct (Z.eq_dec (n / d) 0) as [E|NE].
    - rewrite E in Hcdef. cbn [Zdigits2] in Hcdef. lia.
    - assert (Hte : e <= t).
      { destruct (Z.le_gt_cases e t) as [|Hgt]; [assumption|exfalso].
        assert (2 ^ (t - b) < 2 ^ (e - b)) by (apply Z.pow_lt_mono_r; lia).
        assert (n < d) by nia.
        rewrite Z.div_small in NE by lia. lia. }
      assert (H2 : 2 ^ (t - b) = 2 ^ (t - e) * 2 ^ (e - b)).
      { rewrite <- Z.pow_add_r by lia. f_equal. lia. }
      assert (Hnd : n <= d * 2 ^ (t - e)) by (rewrite H2 in Hle; nia).
      assert (Hq2 : n / d <= 2 ^ (t - e)).
      { apply Z.div_le_upper_bound; [lia|]. lia. }
      assert (Zdigits2 (n / d) <= t - e + 1).
      { apply Zdigits2_le_iff; try lia.
        rewrite Z.pow_add_r by lia. change (2 ^ 1) with 2.
        assert (0 < 2 ^ (t - e)) by (apply Z.pow_pos_nonneg; lia). lia. }
      lia. }
  assert (Hte : e <= t) by lia.
  assert (H2 : 2 ^ (t - b) = 2 ^ (t - e) * 2 ^ (e - b)).
  { rewrite <- Z.pow_add_r by lia. f_equal. lia. }
  assert (Hnd : n <= d * 2 ^ (t - e)) by (rewrite H2 in Hle; nia).
  assert (H3 : 2 ^ (t - e) = 2 ^ (t - c) * 2 ^ (c - e)).
  { rewrite <- Z.pow_add_r by lia. f_equal. lia. }
  assert (Hpc : 0 < 2 ^ (c - e)) by (apply Z.pow_pos_nonneg; lia).
  assert (Hr : rne n (d * 2 ^ (c - e)) <= 2 ^ (t - c)).
  { apply rne_le_int; [nia|]. rewrite H3 in Hnd. lia. }
  assert (H4 : 2 ^ (t - emin) = 2 ^ (t - c) * 2 ^ (c - emin)).
  { rewrite <- Z.pow_add_r by lia. f_equal. lia. }
  assert (0 < 2 ^ (c - emin)) by (apply Z.pow_pos_nonneg; lia).
  rewrite H4. nia.
Qed.

Lemma rounded_ge_pow2 (n d e t b : Z) :
  0 <= n -> 0 < d -> e <= fexp (Zdigits2 (n / d) + e) ->
  emin <= t -> b <= e -> b <= t ->
  d * 2 ^ (t - b) <= n * 2 ^ (e - b) ->
  2 ^ (t - emin) <= rounded n d e.
Proof.
  intros Hn Hd Hpre Ht Hbe Hbt Hle.
  destruct (round_core n d e Hn Hd Hpre) as [[M0 M1] M2].
  unfold sf_rounded.
  set (c := fexp (Zdigits2 (n / d) + e)) in *.
  assert (Hcdef : c = Z.max (Zdigits2 (n / d) + e - prec) emin) by reflexivity.
  clearbody c.
  assert (Hpe : 0 < 2 ^ (e - b)) by (apply Z.pow_pos_nonneg; lia).
  assert (Hpt : 0 < 2 ^ (t - b)) by (apply Z.pow_pos_nonneg; lia).
  assert (Hpc : 0 < 2 ^ (c - e)) by (apply Z.pow_pos_nonneg; lia).
  assert (Hpm : 0 < 2 ^ (c - emin)) by (apply Z.pow_pos_nonneg; lia).
  destruct (Z.le_gt_cases c t) as [Hct|Hct].
  - assert (H2 : 2 ^ (t - b) = 2 ^ (t - c) * 2 ^ (c - e) * 2 ^ (e - b)).
    { rewrite <- !Z.pow_add_r by lia. f_equal. lia. }
    assert (Hnd : d * (2 ^ (t - c) * 2 ^ (c - e)) <= n) by (rewrite H2 in Hle; nia).
    assert (Hr : 2 ^ (t - c) <= rne n (d * 2 ^ (c - e))).
    { apply rne_ge_int; [nia|]. lia. }
    assert (H4 : 2 ^ (t - emin) = 2 ^ (t - c) * 2 ^ (c - emin)).
    { rewrite <- Z.pow_add_r by lia. f_equal. lia. }
    rewrite H4. nia.
  - specialize (M2 ltac:(lia)).
    assert (2 ^ (t - emin) <= 2 ^ (prec - 1 + (c - emin)))
      by (apply Z.pow_le_mono_r; lia).
    rewrite Z.pow_add_r in H by lia. nia.
Qed.

(** ** Rounding an integer number of units *)

Lemma rnd_0 : rnd 0 = 0.
Proof.
  unfold sf_rnd. cbn [Zdigits2]. rewrite Z.max_r by lia.
  change (2 ^ 0) with 1. now rewrite rne_one.
Qed.

Lemma rnd_small (v : Z) : 0 <= v -> Zdigits2 v <= prec -> rnd v = v.
Proof.
  intros Hv Hd. unfold sf_rnd. rewrite Z.max_r by lia.
  change (2 ^ 0) with 1. rewrite rne_one. lia.
Qed.

Lemma rnd_bounds (v : Z) :
  0 < v -> 2 ^ (Zdigits2 v - 1) <= rnd v <= 2 ^ Zdigits2 v.
Proof.
  intros Hv. pose proof (Zdigits2_bounds v Hv) as [L U].
  pose proof (Zdigits2_pos v Hv) as Hp.
  destruct (Z.le_gt_cases (Zdigits2 v) prec) as [Hs|Hb].
  - rewrite rnd_small by lia. lia.
  - unfold sf_rnd. rewrite Z.max_l by lia.
    set (k := Zdigits2 v - prec).
    assert (Hk : 0 < 2 ^ k) by (apply Z.pow_pos_nonneg; lia).
    assert (E1 : 2 ^ (Zdigits2 v - 1) = 2 ^ (prec - 1) * 2 ^ k).
    { rewrite <- Z.pow_add_r by lia. f_equal. lia. }
    assert (E2 : 2 ^ Zdigits2 v = 2 ^ prec * 2 ^ k).
    { rewrite <- Z.pow_add_r by lia. f_equal. lia. }
    rewrite E1, E2. split.
    + apply Z.mul_le_mono_nonneg_r; [lia|].
      apply rne_ge_int; lia.
    + apply Z.mul_le_mono_nonneg_r; [lia|].
      apply rne_le_int; lia.
Qed.

Lemma rnd_nonneg (v : Z) : 0 <= v -> 0 <= rnd v.
Proof.
  intros Hv. destruct (Z.eq_dec v 0) as [->|]; [now rewrite rnd_0|].
  pose proof (rnd_bounds v ltac:(lia)).
  assert (0 <= 2 ^ (Zdigits2 v - 1)) by (apply Z.pow_nonneg; lia). lia.
Qed.

Lemma rnd_pos (v : Z) : 0 < v -> 0 < rnd v.
Proof.
  intros Hv. pose proof (rnd_bounds v Hv).
  pose proof (Zdigits2_pos v Hv).
  assert (0 < 2 ^ (Zdigits2 v - 1)) by (apply Z.pow_pos_nonneg; lia). lia.
Qed.

Lemma rnd_mono (v w : Z) : 0 <= v <= w -> rnd v <= rnd w.
Proof.
  intros [Hv Hvw].
  destruct (Z.eq_dec v 0) as [->|NZ]; [rewrite rnd_0; apply rnd_nonneg; lia|].
  pose proof (Zdigits2_mono v w ltac:(lia)) as Hd.
  destruct (Z.eq_dec (Zdigits2 v) (Zdigits2 w)) as [E|NE].
  - unfold sf_rnd. rewrite E.
    set (k := Z.max (Zdigits2 w - prec) 0).
    assert (0 < 2 ^ k) by (apply Z.pow_pos_nonneg; lia).
    apply Z.mul_le_mono_nonneg_r; [lia|]. apply rne_mono; lia.
  - pose proof (rnd_bounds v ltac:(lia)) as [_ U].
    pose proof (rnd_bounds w ltac:(lia)) as [L _].
    assert (2 ^ Zdigits2 v <= 2 ^ (Zdigits2 w - 1))
      by (apply Z.pow_le_mono_r; lia).
    lia.
Qed.

(** A valid float is its own rounding. *)
Lemma rnd_valid (s : bool) (m : positive) (e : Z) :
  valid_binary prec emax (S754_finite s m e) = true ->
  rnd (Zpos m * 2 ^ (e - emin)) = Zpos m * 2 ^ (e - emin).
Proof.
  intros V. destruct (valid_finite _ _ _ V) as (B & D & N & _).
  unfold sf_rnd. rewrite Zdigits2_mul_pow2 by lia.
  destruct (Z.eq_dec e emin) as [->|NE].
  - rewrite Z.sub_diag, Z.add_0_r, Z.max_r by lia.
    change (2 ^ 0) with 1. rewrite rne_one. lia.
  - rewrite N by lia.
    replace (prec + (e - emin) - prec) with (e - emin) by lia.
    rewrite Z.max_l by lia.
    rewrite rne_exact by (apply Z.pow_pos_nonneg; lia). reflexivity.
Qed.

Lemma binary_round_aux_rounding (s : bool) (n d e : Z) :
  0 <= n -> 0 < d ->
  e <= fexp (Zdigits2 (n / d) + e) ->
  is_rounding s (rounded n d e)
    (binary_round_aux prec emax s (n / d) e (loc_of n d)).
Proof.
  intros Hn Hd Hpre.
  exact (binary_round_aux_ord s n d e Hn Hd Hpre).
Qed.

Lemma pos_iter_xO (m d : positive) :
  Zpos (Pos.iter xO m d) = Zpos m * 2 ^ Zpos d.
Proof.
  induction d as [|d IH] using Pos.peano_ind.
  - cbn. lia.
  - rewrite Pos.iter_succ, Pos2Z.inj_succ, Z.pow_succ_r by lia.
    rewrite Pos2Z.inj_xO, IH. lia.
Qed.

Lemma shl_align_spec (m : positive) (e e' : Z) :
  snd (shl_align m e e') = Z.min e e' /\
  Zpos (fst (shl_align m e e')) = Zpos m * 2 ^ (e - Z.min e e').
Proof.
  unfold shl_align. destruct (e' - e) as [|p|p] eqn:E; cbn [fst snd].
  - rewrite Z.min_l by lia. rewrite Z.sub_diag. cbn. lia.
  - rewrite Z.min_l by lia. rewrite Z.sub_diag. cbn. lia.
  - rewrite Z.min_r by lia. split; [reflexivity|].
    rewrite pos_iter_xO. f_equal. f_equal. lia.
Qed.

Lemma loc_of_1 (n : Z) : loc_of n 1 = loc_Exact.
Proof. unfold loc_of. now rewrite Z.mod_1_r. Qed.

Lemma is_rounding_ext (s : bool) (w w' : Z) (r : spec_float) :
  w = w' -> is_rounding s w r -> is_rounding s w' r.
Proof. now intros ->. Qed.

(** Rounding an integer mantissa: [binary_round] gives the float of
    magnitude [rnd]. *)
Lemma binary_round_rounding (s : bool) (m : positive) (e : Z) :
  emin <= e ->
  is_rounding s (rnd (Zpos m * 2 ^ (e - emin))) (binary_round prec emax s m e).
Proof.
  intros He. unfold binary_round.
  set (c := fexp (Z.pos (digits2_pos m) + e)).
  pose proof (shl_align_spec m e c) as [S1 S2].
  destruct (shl_align m e c) as [mz ez]. cbn [fst snd] in S1, S2.
  assert (Hcdef : c = Z.max (Zdigits2 (Zpos m) + e - prec) emin) by reflexivity.
  assert (Hz : emin <= ez <= e) by lia.
  assert (Hp : 0 < 2 ^ (e - ez)) by (apply Z.pow_pos_nonneg; lia).
  assert (Hdig : Zdigits2 (Zpos mz) + ez = Zdigits2 (Zpos m) + e).
  { rewrite S2, Zdigits2_mul_pow2 by lia. lia. }
  assert (Hpre : ez <= fexp (Zdigits2 (Zpos mz / 1) + ez)).
  { rewrite Z.div_1_r, Hdig. change (ez <= c). lia. }
  pose proof (binary_round_aux_rounding s (Zpos mz) 1 ez ltac:(lia) ltac:(lia) Hpre) as R.
  rewrite Z.div_1_r, loc_of_1 in R.
  revert R. apply is_rounding_ext.
  unfold sf_rounded, sf_rnd. rewrite Z.div_1_r, Hdig.
  change (fexp (Zdigits2 (Z.pos m) + e)) with c.
  rewrite Z.mul_1_l.
  rewrite Zdigits2_mul_pow2 by lia.
  assert (Hk : Z.max (Zdigits2 (Z.pos m) + (e - emin) - prec) 0 = c - emin) by lia.
  rewrite Hk. f_equal.
  assert (Hpz : 0 < 2 ^ (ez - emin)) by (apply Z.pow_pos_nonneg; lia).
  assert (Hpc : 0 < 2 ^ (c - ez)) by (apply Z.pow_pos_nonneg; lia).
  assert (E1 : Z.pos m * 2 ^ (e - emin) = Z.pos mz * 2 ^ (ez - emin)).
  { rewrite S2, <- Z.mul_assoc, <- Z.pow_add_r by lia. do 2 f_equal. lia. }
  assert (E2 : 2 ^ (c - emin) = 2 ^ (c - ez) * 2 ^ (ez - emin)).
  { rewrite <- Z.pow_add_r by lia. f_equal. lia. }
  rewrite E1, E2. symmetry. apply rne_scale; lia.
Qed.

Lemma valid_is_rounding (s : bool) (m : positive) (e : Z) :
  valid (S754_finite s m e) = true ->
  is_rounding s (Zpos m * 2 ^ (e - emin)) (S754_finite s m e).
Proof.
  intros V. destruct (valid_finite _ _ _ V) as (B & D & N & _).
  destruct (valid_mantissa_bounds _ _ _ V) as [U _].
  assert (0 < 2 ^ (e - emin)) by (apply Z.pow_pos_nonneg; lia).
  assert (Hlt : Zpos m * 2 ^ (e - emin) < 2 ^ (emax - emin)).
  { assert (2 ^ (e - emin) <= 2 ^ (emax - prec - emin))
      by (apply Z.pow_le_mono_r; lia).
    assert (E : 2 ^ (emax - emin) = 2 ^ prec * 2 ^ (emax - prec - emin)).
    { rewrite <- Z.pow_add_r by lia. f_equal. lia. }
    rewrite E. nia. }
  split; [intros; nia|]. split; [|intros; lia].
  intros _. exists m, e. split; [reflexivity|]. split; [|reflexivity].
  cbn [valid_binary] in *. exact V.
Qed.

Lemma valid_sign (s s' : bool) (m : positive) (e : Z) :
  valid (S754_finite s m e) = valid (S754_finite s' m e).
Proof. reflexivity. Qed.

(** ** Subtraction *)

Theorem SFsub_rounding (x y : spec_float) :
  valid x = true -> valid y = true ->
  is_finite x = true -> is_finite y = true ->
  let v := ord x - ord y in
  (v = 0 -> exists s, SFsub prec emax x y = S754_zero s) /\
  (0 < v -> is_rounding false (rnd v) (SFsub prec emax x y)) /\
  (v < 0 -> is_rounding true (rnd (- v)) (SFsub prec emax x y)).
Proof.
  intros Vx Vy Fx Fy v.
  destruct x as [sx|sx| |sx mx ex]; try discriminate;
    destruct y as [sy|sy| |sy my ey]; try discriminate.
  - (* zero - zero *)
    subst v. cbn [sf_ord]. split; [|split]; try lia.
    intros _. cbn [SFsub]. destruct sx, sy; eexists; reflexivity.
  - (* zero - finite *)
    destruct (valid_finite _ _ _ Vy) as (B & _).
    pose proof (ord_sign sy my ey ltac:(lia)) as Hs.
    assert (Hv : v = - ord (S754_finite sy my ey)) by (subst v; cbn [sf_ord]; lia).
    cbn [SFsub]. rewrite Hv.
    pose proof (valid_is_rounding (negb sy) my ey Vy) as R.
    pose proof (rnd_valid sy my ey Vy) as Hr.
    destruct sy; cbn [negb sf_ord cond_Zopp] in *.
    + split; [intros; lia|]. split; [|intros; lia]. intros _.
      rewrite Z.opp_involutive, Hr. exact R.
    + split; [intros; lia|]. split; [intros; lia|]. intros _.
      rewrite Z.opp_involutive, Hr. exact R.
  - (* finite - zero *)
    destruct (valid_finite _ _ _ Vx) as (B & _).
    pose proof (ord_sign sx mx ex ltac:(lia)) as Hs.
    assert (Hv : v = ord (S754_finite sx mx ex)) by (subst v; cbn [sf_ord]; lia).
    cbn [SFsub]. rewrite Hv.
    pose proof (valid_is_rounding sx mx ex Vx) as R.
    pose proof (rnd_valid sx mx ex Vx) as Hr.
    destruct sx; cbn [negb sf_ord cond_Zopp] in *.
    + split; [intros; lia|]. split; [intros; lia|]. intros _.
      rewrite Z.opp_involutive, Hr. exact R.
    + split; [intros; lia|]. split; [|intros; lia]. intros _.
      rewrite Hr. exact R.
  - (* finite - finite *)
    destruct (valid_finite _ _ _ Vx) as (Bx & _).
    destruct (valid_finite _ _ _ Vy) as (By & _).
    cbn [SFsub]. set (ez := Z.min ex ey).
    pose proof (shl_align_spec mx ex ez) as [_ Sx].
    pose proof (shl_align_spec my ey ez) as [_ Sy].
    rewrite (Z.min_r ex ez) in Sx by lia.
    rewrite (Z.min_r ey ez) in Sy by lia.
    rewrite Sx, Sy.
    set (M := cond_Zopp sx (Z.pos mx * 2 ^ (ex - ez))
              - cond_Zopp sy (Z.pos my * 2 ^ (ey - ez))).
    assert (Hz : emin <= ez) by lia.
    assert (Hpz : 0 < 2 ^ (ez - emin)) by (apply Z.pow_pos_nonneg; lia).
    assert (Ex : 2 ^ (ex - emin) = 2 ^ (ex - ez) * 2 ^ (ez - emin)).
    { rewrite <- Z.pow_add_r by lia. f_equal. lia. }
    assert (Ey : 2 ^ (ey - emin) = 2 ^ (ey - ez) * 2 ^ (ez - emin)).
    { rewrite <- Z.pow_add_r by lia. f_equal. lia. }
    assert (HM : v = M * 2 ^ (ez - emin)).
    { subst v M. cbn [sf_ord]. rewrite Ex, Ey.
      destruct sx, sy; cbn [cond_Zopp]; lia. }
    unfold binary_normalize.
    destruct M as [|p|p] eqn:EM.
    + split; [intros _; eexists; reflexivity|]. split; intros; lia.
    + split; [intros; lia|]. split; [|intros; lia]. intros _.
      rewrite HM. apply binary_round_rounding. lia.
    + split; [intros; lia|]. split; [intros; lia|]. intros _.
      rewrite HM.
      replace (- (Z.neg p * 2 ^ (ez - emin))) with (Z.pos p * 2 ^ (ez - emin)) by lia.
      apply binary_round_rounding. lia.
Qed.


(** ** Division *)

Lemma new_location_loc_of (n d : Z) :
  0 <= n -> 0 < d -> new_location d (n mod d) = loc_of n d.
Proof.
  intros Hn Hd. unfold new_location, loc_of.
  pose proof (Z.mod_pos_bound n d Hd) as Hb.
  destruct (Z.even d) eqn:Ev.
  - unfold new_location_even. destruct (n mod d =? 0); reflexivity.
  - unfold new_location_odd. destruct (Z.eqb_spec (n mod d) 0); [reflexivity|].
    f_equal.
    assert (Hodd : Z.odd d = true) by (rewrite <- Z.negb_even, Ev; reflexivity).
    apply Z.odd_spec in Hodd. destruct Hodd as [k Hk].
    destruct (Z.compare_spec (2 * (n mod d) + 1) d);
      destruct (Z.compare_spec (2 * (n mod d)) d); try reflexivity; lia.
Qed.

Lemma SFdiv_core_binary_spec (m1 e1 m2 e2 : Z) :
  0 < m1 -> 0 < m2 ->
  exists e' s,
    SFdiv_core_binary prec emax m1 e1 m2 e2
      = (m1 * 2 ^ s / m2, e', loc_of (m1 * 2 ^ s) m2) /\
    0 <= s /\ s = e1 - e2 - e' /\
    e' <= fexp (Zdigits2 (m1 * 2 ^ s / m2) + e').
Proof.
  intros H1 H2. unfold SFdiv_core_binary.
  set (t := Zdigits2 m1 + e1 - (Zdigits2 m2 + e2)).
  set (e' := Z.min (fexp t) (e1 - e2)).
  set (s := e1 - e2 - e').
  assert (Hs : 0 <= s) by (unfold s, e'; lia).
  assert (Hm' : match s with
                | 0 => m1
                | Z.pos _ => Z.shiftl m1 s
                | Z.neg _ => 0
                end = m1 * 2 ^ s).
  { destruct s as [|p|p] eqn:Es; [lia| |lia].
    rewrite Z.shiftl_mul_pow2 by lia. reflexivity. }
  rewrite Hm'.
  assert (Hps : 0 < 2 ^ s) by (apply Z.pow_pos_nonneg; lia).
  assert (Hde : Z.div_eucl (m1 * 2 ^ s) m2
                = ((m1 * 2 ^ s) / m2, (m1 * 2 ^ s) mod m2)).
  { unfold Z.div, Z.modulo. destruct (Z.div_eucl _ _); reflexivity. }
  rewrite Hde, new_location_loc_of by nia.
  exists e', s. split; [reflexivity|]. split; [assumption|]. split; [reflexivity|].
  (* the precondition of the rounding *)
  set (q := m1 * 2 ^ s / m2).
  pose proof (Zdigits2_bounds m1 H1) as [L1 U1].
  pose proof (Zdigits2_bounds m2 H2) as [L2 U2].
  pose proof (Zdigits2_pos m1 H1) as P1.
  pose proof (Zdigits2_pos m2 H2) as P2.
  assert (Hfe : e' <= fexp t) by (unfold e'; lia).
  destruct (Z.eq_dec q 0) as [E|NE].
  - rewrite E. cbn [Zdigits2 Z.add].
    (* the quotient is zero: m1 * 2^s < m2 *)
    assert (Hlt : m1 * 2 ^ s < m2).
    { destruct (Z.lt_ge_cases (m1 * 2 ^ s) m2) as [|Hge]; [assumption|exfalso].
      assert (1 <= q) by (apply Z.div_le_lower_bound; lia). lia. }
    assert (Hd : Zdigits2 m1 + s <= Zdigits2 m2).
    { rewrite <- Zdigits2_mul_pow2 by lia. apply Zdigits2_mono. nia. }
    unfold SpecFloat.fexp in *. unfold s in Hd. lia.
  - assert (Hq : 0 < q).
    { pose proof (Z.div_pos (m1 * 2 ^ s) m2 ltac:(nia) H2). fold q in H. lia. }
    eapply Z.le_trans; [exact Hfe|]. apply fexp_mono.
    (* digits q >= digits m1 + s - digits m2 *)
    destruct (Z.le_gt_cases (Zdigits2 m1 + s - Zdigits2 m2) 0) as [Hsm|Hbig].
    + pose proof (Zdigits2_pos q Hq). unfold t, s in *. lia.
    + assert (Hge : 2 ^ (Zdigits2 m1 + s - Zdigits2 m2 - 1) <= q).
      { apply Z.div_le_lower_bound; [lia|].
        assert (m2 * 2 ^ (Zdigits2 m1 + s - Zdigits2 m2 - 1)
                <= 2 ^ Zdigits2 m2 * 2 ^ (Zdigits2 m1 + s - Zdigits2 m2 - 1)).
        { apply Z.mul_le_mono_nonneg_r; [apply Z.pow_nonneg|]; lia. }
        rewrite <- Z.pow_add_r in H by lia.
        replace (Zdigits2 m2 + (Zdigits2 m1 + s - Zdigits2 m2 - 1))
          with (Zdigits2 m1 - 1 + s) in H by lia.
        rewrite Z.pow_add_r in H by lia. nia. }
      assert (Zdigits2 m1 + s - Zdigits2 m2 - 1 < Zdigits2 q)
        by (apply Zdigits2_gt_iff; lia).
      unfold t, s in *. lia.
Qed.

Theorem SFdiv_rounding (sx sy : bool) (mx my : positive) (ex ey : Z) :
  exists e' s,
    0 <= s /\ s = ex - ey - e' /\
    e' <= fexp (Zdigits2 (Zpos mx * 2 ^ s / Zpos my) + e') /\
    is_rounding (xorb sx sy) (rounded (Zpos mx * 2 ^ s) (Zpos my) e')
      (SFdiv prec emax (S754_finite sx mx ex) (S754_finite sy my ey)).
Proof.
  destruct (SFdiv_core_binary_spec (Zpos mx) ex (Zpos my) ey ltac:(lia) ltac:(lia))
    as (e' & s & Hc & Hs & He & Hpre).
  exists e', s. split; [assumption|]. split; [assumption|].
  split; [assumption|].
  cbn [SFdiv]. rewrite Hc.
  assert (0 < 2 ^ s) by (apply Z.pow_pos_nonneg; lia).
  apply binary_round_aux_rounding; [nia|lia|exact Hpre].
Qed.

(** ** Multiplication *)

Theorem SFmul_rounding (sx sy : bool) (mx my : positive) (ex ey : Z) :
  valid (S754_finite sx mx ex) = true ->
  valid (S754_finite sy my ey) = true ->
  is_rounding (xorb sx sy) (rounded (Zpos mx * Zpos my) 1 (ex + ey))
    (SFmul prec emax (S754_finite sx mx ex) (S754_finite sy my ey)).
Proof.
  intros Vx Vy. cbn [SFmul].
  destruct (valid_finite _ _ _ Vx) as (Bx & Dx & Nx & _).
  destruct (valid_finite _ _ _ Vy) as (By & Dy & Ny & _).
  pose proof emin_neg as [En _].
  assert (Hpre : ex + ey <= fexp (Zdigits2 (Zpos mx * Zpos my / 1) + (ex + ey))).
  { rewrite Z.div_1_r.
    pose proof (Zdigits2_bounds (Zpos mx) ltac:(lia)) as [Lx _].
    pose proof (Zdigits2_bounds (Zpos my) ltac:(lia)) as [Ly _].
    pose proof (Zdigits2_pos (Zpos mx) ltac:(lia)).
    pose proof (Zdigits2_pos (Zpos my) ltac:(lia)).
    assert (Hd : Zdigits2 (Zpos mx) + Zdigits2 (Zpos my) - 1
                 <= Zdigits2 (Zpos mx * Zpos my)).
    { assert (Zdigits2 (Zpos mx) + Zdigits2 (Zpos my) - 2
              < Zdigits2 (Zpos mx * Zpos my)); [|lia].
      apply Zdigits2_gt_iff; [lia|lia|].
      replace (Zdigits2 (Z.pos mx) + Zdigits2 (Z.pos my) - 2)
        with ((Zdigits2 (Z.pos mx) - 1) + (Zdigits2 (Z.pos my) - 1)) by lia.
      rewrite Z.pow_add_r by lia.
      apply Z.mul_le_mono_nonneg; try lia; apply Z.pow_nonneg; lia. }
    unfold SpecFloat.fexp. lia. }
  pose proof (binary_round_aux_rounding (xorb sx sy) (Zpos mx * Zpos my) 1 (ex + ey)
                ltac:(lia) ltac:(lia) Hpre) as R.
  rewrite Z.div_1_r, loc_of_1 in R. exact R.
Qed.

(** ** The float one *)

Lemma pow2_units_rnd (t : Z) :
  emin <= t -> rnd (2 ^ (t - emin)) = 2 ^ (t - emin).
Proof.
  intros Ht. unfold sf_rnd.
  assert (Hp : 0 < 2 ^ (t - emin)) by (apply Z.pow_pos_nonneg; lia).
  assert (Hd : Zdigits2 (2 ^ (t - emin)) = t - emin + 1).
  { apply Zdigits2_unique; [|lia].
    replace (t - emin + 1 - 1) with (t - emin) by lia.
    split; [lia|]. apply Z.pow_lt_mono_r; lia. }
  rewrite Hd.
  destruct (Z.le_gt_cases (t - emin + 1 - prec) 0) as [Hs|Hb].
  - rewrite Z.max_r by lia. change (2 ^ 0) with 1. rewrite rne_one. lia.
  - rewrite Z.max_l by lia. set (k := t - emin + 1 - prec).
    assert (E : 2 ^ (t - emin) = 2 ^ (prec - 1) * 2 ^ k).
    { rewrite <- Z.pow_add_r by (unfold k; lia). f_equal. unfold k. lia. }
    rewrite E at 1. rewrite rne_exact by (apply Z.pow_pos_nonneg; lia).
    symmetry. exact E.
Qed.

Lemma SFone_rounding : is_rounding false (2 ^ (0 - emin)) (SFone prec emax).
Proof.
  pose proof emin_neg as [En _].
  pose proof (binary_round_rounding false 1 0 ltac:(lia)) as R.
  rewrite Z.mul_1_l, pow2_units_rnd in R by lia. exact R.
Qed.

Lemma SFone_valid :
  exists m e, SFone prec emax = S754_finite false m e /\
              valid (SFone prec emax) = true /\
              ord (SFone prec emax) = 2 ^ (0 - emin).
Proof.
  pose proof emin_neg as [En _].
  destruct SFone_rounding as (_ & R & _).
  destruct R as (m & e & E & V & W).
  - split; [apply Z.pow_pos_nonneg; lia|]. apply Z.pow_lt_mono_r; lia.
  - exists m, e. split; [exact E|]. split; [exact V|].
    rewrite E. cbn [sf_ord cond_Zopp]. exact W.
Qed.

(** ** Reading a rounding *)

Lemma is_rounding_finite (s : bool) (w : Z) (r : spec_float) :
  is_rounding s w r -> 0 <= w < 2 ^ (emax - emin) ->
  is_finite r = true /\ valid r = true /\ ord r = cond_Zopp s w /\
  (w = 0 -> r = S754_zero s) /\
  (0 < w -> exists m e, r = S754_finite s m e).
Proof.
  intros (R0 & R1 & _) Hw. destruct (Z.eq_dec w 0) as [E|NE].
  - rewrite (R0 E), E. destruct s; repeat split; try reflexivity; intros; lia.
  - destruct (R1 ltac:(lia)) as (m & e & E & V & W).
    rewrite E in *. cbn [is_finite sf_ord]. rewrite W.
    repeat split; try assumption; try lia. intros _. now exists m, e.
Qed.

Lemma is_rounding_overflow (s : bool) (w : Z) (r : spec_float) :
  is_rounding s w r -> 0 <= w -> is_finite r = true -> w < 2 ^ (emax - emin).
Proof.
  intros (_ & _ & R2) Hw Hf.
  destruct (Z.lt_ge_cases w (2 ^ (emax - emin))) as [|Hge]; [assumption|].
  rewrite (R2 Hge) in Hf. discriminate.
Qed.

Lemma SFltb_ord (x y : spec_float) :
  valid x = true -> valid y = true ->
  is_finite x = true -> is_finite y = true ->
  SFltb x y = (ord x <? ord y).
Proof.
  intros Vx Vy Fx Fy. unfold SFltb, Z.ltb.
  rewrite (SFcompare_ord x y Vx Vy Fx Fy). reflexivity.
Qed.

Lemma SFleb_ord (x y : spec_float) :
  valid x = true -> valid y = true ->
  is_finite x = true -> is_finite y = true ->
  SFleb x y = (ord x <=? ord y).
Proof.
  intros Vx Vy Fx Fy. unfold SFleb, Z.leb.
  rewrite (SFcompare_ord x y Vx Vy Fx Fy). destruct (ord x ?= ord y); reflexivity.
Qed.

Lemma SFeqb_ord (x y : spec_float) :
  valid x = true -> valid y = true ->
  is_finite x = true -> is_finite y = true ->
  SFeqb x y = (ord x =? ord y).
Proof.
  intros Vx Vy Fx Fy. unfold SFeqb, Z.eqb.
  rewrite (SFcompare_ord x y Vx Vy Fx Fy).
  destruct (Z.compare_spec (ord x) (ord y)) as [E|L|G].
  - rewrite E. destruct (ord y); try reflexivity; now rewrite Pos.eqb_refl.
  - destruct (ord x), (ord y); try reflexivity; try lia;
      symmetry; apply Pos.eqb_neq; lia.
  - destruct (ord x), (ord y); try reflexivity; try lia;
      symmetry; apply Pos.eqb_neq; lia.
Qed.

(** ** Minimum and maximum of an array *)

Local Abbreviation fv := (finite_valid prec emax).
Local Abbreviation nv := (number_valid prec emax).
Local Abbreviation eord := (sf_eord prec emax).

Lemma fv_iff (v : spec_float) :
  fv v = true <-> valid v = true /\ is_finite v = true.
Proof. unfold finite_valid. apply andb_true_iff. Qed.

Lemma nv_iff (v : spec_float) :
  nv v = true <-> valid v = true /\ is_nan v = false.
Proof.
  unfold number_valid. rewrite andb_true_iff, negb_true_iff. reflexivity.
Qed.

Lemma fv_nv (v : spec_float) : fv v = true -> nv v = true.
Proof.
  rewrite fv_iff, nv_iff. intros [V F]. split; [exact V|].
  destruct v; try discriminate; reflexivity.
Qed.

Lemma eord_finite (v : spec_float) : is_finite v = true -> eord v = ord v.
Proof. destruct v; try discriminate; reflexivity. Qed.

Lemma ord_bound (v : spec_float) :
  valid v = true -> is_finite v = true ->
  - 2 ^ (emax - emin) < ord v < 2 ^ (emax - emin).
Proof.
  intros V F. pose proof emin_neg as [En _].
  assert (P : 0 < 2 ^ (emax - emin)) by (apply Z.pow_pos_nonneg; lia).
  destruct v as [s|s| |s m e]; try discriminate; cbn [sf_ord]; [lia|].
  destruct (valid_is_rounding s m e V) as (_ & _ & R).
  assert (Z.pos m * 2 ^ (e - emin) < 2 ^ (emax - emin)).
  { destruct (Z.lt_ge_cases (Z.pos m * 2 ^ (e - emin)) (2 ^ (emax - emin)))
      as [|Hge]; [assumption|]. specialize (R Hge). discriminate. }
  destruct (valid_finite _ _ _ V) as (B & _).
  assert (0 < 2 ^ (e - emin)) by (apply Z.pow_pos_nonneg; lia).
  destruct s; cbn [cond_Zopp]; nia.
Qed.

(** On the numbers of the format [SFcompare] is the comparison of [eord]. *)
Lemma SFcompare_eord (x y : spec_float) :
  nv x = true -> nv y = true -> SFcompare x y = Some (eord x ?= eord y).
Proof.
  intros Hx Hy. apply nv_iff in Hx, Hy. destruct Hx as [Vx Nx], Hy as [Vy Ny].
  pose proof emin_neg as [En _].
  assert (P : 0 < 2 ^ (emax - emin)) by (apply Z.pow_pos_nonneg; lia).
  destruct (is_finite x) eqn:Fx; destruct (is_finite y) eqn:Fy.
  - rewrite !eord_finite by assumption. now apply SFcompare_ord.
  - pose proof (ord_bound x Vx Fx) as Bx. rewrite (eord_finite x Fx).
    destruct y as [sy|sy| |sy my ey]; try discriminate.
    destruct x as [sx|sx| |sx mx ex]; try discriminate;
      cbn [SFcompare sf_eord]; f_equal; symmetry;
      destruct sy; cbn [cond_Zopp];
      first [apply Z.compare_lt_iff | apply Z.compare_gt_iff]; lia.
  - pose proof (ord_bound y Vy Fy) as By. rewrite (eord_finite y Fy).
    destruct x as [sx|sx| |sx mx ex]; try discriminate.
    destruct y as [sy|sy| |sy my ey]; try discriminate;
      cbn [SFcompare sf_eord]; f_equal; symmetry;
      destruct sx; cbn [cond_Zopp];
      first [apply Z.compare_lt_iff | apply Z.compare_gt_iff]; lia.
  - destruct x as [sx|sx| |sx mx ex]; try discriminate.
    destruct y as [sy|sy| |sy my ey]; try discriminate.
    cbn [SFcompare sf_eord]. f_equal. symmetry.
    destruct sx, sy; cbn [cond_Zopp];
      first [apply Z.compare_eq_iff | apply Z.compare_lt_iff
            | apply Z.compare_gt_iff]; lia.
Qed.

Lemma SFltb_eord (x y : spec_float) :
  nv x = true -> nv y = true -> SFltb x y = (eord x <? eord y).
Proof.
  intros Hx Hy. unfold SFltb, Z.ltb. now rewrite (SFcompare_eord x y Hx Hy).
Qed.

Lemma SFeqb_eord (x y : spec_float) :
  nv x = true -> nv y = true -> SFeqb x y = (eord x =? eord y).
Proof.
  intros Hx Hy. unfold SFeqb. rewrite (SFcompare_eord x y Hx Hy).
  destruct (Z.eqb_spec (eord x) (eord y)) as [E|NE].
  - now rewrite (proj2 (Z.compare_eq_iff _ _) E).
  - destruct (Z.compare_spec (eord x) (eord y)); [contradiction| |]; reflexivity.
Qed.

Lemma fmin_eord (x y : spec_float) :
  nv x = true -> nv y = true ->
  (fmin x y = x \/ fmin x y = y) /\ eord (fmin x y) = Z.min (eord x) (eord y).
Proof.
  intros Hx Hy.
  assert (E : fmin x y = if SFltb y x then y else x).
  { apply nv_iff in Hx, Hy. destruct Hx as [_ Nx], Hy as [_ Ny].
    destruct x; try discriminate; destruct y; try discriminate; reflexivity. }
  rewrite E, (SFltb_eord y x) by assumption.
  destruct (Z.ltb_spec (eord y) (eord x)); split; auto; lia.
Qed.

Lemma fmax_eord (x y : spec_float) :
  nv x = true -> nv y = true ->
  (fmax x y = x \/ fmax x y = y) /\ eord (fmax x y) = Z.max (eord x) (eord y).
Proof.
  intros Hx Hy.
  assert (E : fmax x y = if SFltb x y then y else x).
  { apply nv_iff in Hx, Hy. destruct Hx as [_ Nx], Hy as [_ Ny].
    destruct x; try discriminate; destruct y; try discriminate; reflexivity. }
  rewrite E, (SFltb_eord x y) by assumption.
  destruct (Z.ltb_spec (eord x) (eord y)); split; auto; lia.
Qed.

Lemma fold_fmin_eord (xs : list spec_float) (x : spec_float) :
  Forall (fun v => nv v = true) (x :: xs) ->
  In (fold_left fmin xs x) (x :: xs) /\
  Forall (fun v => eord (fold_left fmin xs x) <= eord v) (x :: xs).
Proof.
  revert x. induction xs as [|y ys IH]; intros x H.
  - cbn. split; [auto|]. constructor; [lia|constructor].
  - inversion H as [|? ? Hx Hr]; subst. inversion Hr as [|? ? Hy Hys]; subst.
    destruct (fmin_eord x y Hx Hy) as [Hc Ho].
    assert (Hm : nv (fmin x y) = true) by (destruct Hc as [-> | ->]; assumption).
    destruct (IH (fmin x y) (Forall_cons _ Hm Hys)) as [Hin Hall].
    cbn [fold_left]. split.
    + destruct Hin as [E|Hin]; [|right; right; exact Hin].
      rewrite <- E. destruct Hc as [-> | ->]; [left|right; left]; reflexivity.
    + inversion Hall as [|? ? H0 Hrest]; subst.
      constructor; [lia|]. constructor; [lia|exact Hrest].
Qed.

Lemma fold_fmax_eord (xs : list spec_float) (x : spec_float) :
  Forall (fun v => nv v = true) (x :: xs) ->
  In (fold_left fmax xs x) (x :: xs) /\
  Forall (fun v => eord v <= eord (fold_left fmax xs x)) (x :: xs).
Proof.
  revert x. induction xs as [|y ys IH]; intros x H.
  - cbn. split; [auto|]. constructor; [lia|constructor].
  - inversion H as [|? ? Hx Hr]; subst. inversion Hr as [|? ? Hy Hys]; subst.
    destruct (fmax_eord x y Hx Hy) as [Hc Ho].
    assert (Hm : nv (fmax x y) = true) by (destruct Hc as [-> | ->]; assumption).
    destruct (IH (fmax x y) (Forall_cons _ Hm Hys)) as [Hin Hall].
    cbn [fold_left]. split.
    + destruct Hin as [E|Hin]; [|right; right; exact Hin].
      rewrite <- E. destruct Hc as [-> | ->]; [left|right; left]; reflexivity.
    + inversion Hall as [|? ? H0 Hrest]; subst.
      constructor; [lia|]. constructor; [lia|exact Hrest].
Qed.

(** The minimum and the maximum of an array of numbers are elements of the
    array that bound every element. *)
Lemma array_min_max_eord (a : ndarray) (lo hi : spec_float) :
  Forall (fun v => nv v = true) (elements a) ->
  array_min a = Ok lo -> array_max a = Ok hi ->
  In lo (elements a) /\ In hi (elements a) /\
  Forall (fun v => eord lo <= eord v <= eord hi) (elements a).
Proof.
  unfold array_min, array_max. intros Hall Hlo Hhi.
  destruct (elements a) as [|x xs]; [discriminate|].
  injection Hlo as <-. injection Hhi as <-.
  destruct (fold_fmin_eord xs x Hall) as [I1 A1].
  destruct (fold_fmax_eord xs x Hall) as [I2 A2].
  rewrite Forall_forall in A1, A2.
  split; [assumption|]. split; [assumption|].
  apply Forall_forall. intros v Hv. split; [now apply A1|now apply A2].
Qed.

(** A NaN anywhere in the array is its minimum. *)
Lemma fmin_nan_l (y : spec_float) : fmin S754_nan y = S754_nan.
Proof. reflexivity. Qed.

Lemma fmin_nan_r (x : spec_float) : fmin x S754_nan = S754_nan.
Proof. now destruct x. Qed.

Lemma fold_fmin_nan (xs : list spec_float) (x : spec_float) :
  In S754_nan (x :: xs) -> fold_left fmin xs x = S754_nan.
Proof.
  revert x. induction xs as [|y ys IH]; intros x H.
  - destruct H as [->|[]]. reflexivity.
  - cbn [fold_left]. apply IH. destruct H as [->|[->|H]].
    + left. reflexivity.
    + left. apply fmin_nan_r.
    + right. exact H.
Qed.

(** ** The normalized value *)

Lemma quotient_scale (a d ea ed e' s b : Z) :
  0 < a -> 0 < d -> emin <= ea -> emin <= ed ->
  0 <= s -> s = ea - ed - e' -> b <= e' -> b <= 0 ->
  (a * 2 ^ (ea - emin) <= d * 2 ^ (ed - emin) <->
   a * 2 ^ s * 2 ^ (e' - b) <= d * 2 ^ (0 - b)) /\
  (d * 2 ^ (ed - emin) <= a * 2 ^ (ea - emin) <->
   d * 2 ^ (0 - b) <= a * 2 ^ s * 2 ^ (e' - b)).
Proof.
  intros Ha Hd Hea Hed Hs Es Hb Hb0.
  assert (E : 2 ^ s * 2 ^ (e' - b) * 2 ^ (ed - emin)
              = 2 ^ (ea - emin) * 2 ^ (0 - b)).
  { rewrite <- !Z.pow_add_r by lia. f_equal. lia. }
  assert (P1 : 0 < 2 ^ s) by (apply Z.pow_pos_nonneg; lia).
  assert (P2 : 0 < 2 ^ (e' - b)) by (apply Z.pow_pos_nonneg; lia).
  assert (P3 : 0 < 2 ^ (ed - emin)) by (apply Z.pow_pos_nonneg; lia).
  assert (P4 : 0 < 2 ^ (ea - emin)) by (apply Z.pow_pos_nonneg; lia).
  assert (P5 : 0 < 2 ^ (0 - b)) by (apply Z.pow_pos_nonneg; lia).
  set (p := 2 ^ s * 2 ^ (e' - b)) in *.
  assert (Pp : 0 < p) by (unfold p; nia).
  replace (a * 2 ^ s * 2 ^ (e' - b)) with (a * p) by (unfold p; lia).
  clearbody p.
  generalize dependent (2 ^ (ed - emin)). generalize dependent (2 ^ (ea - emin)).
  generalize dependent (2 ^ (0 - b)). intros P HP Y HY X E HX.
  assert (Ea : a * p * X = a * Y * P) by (rewrite <- !Z.mul_assoc, E; reflexivity).
  split; split; intros H.
  - apply (Z.mul_le_mono_pos_r _ _ X HX). rewrite Ea.
    replace (d * P * X) with (d * X * P) by lia.
    apply Z.mul_le_mono_nonneg_r; lia.
  - apply (Z.mul_le_mono_pos_r _ _ P HP). rewrite <- Ea.
    replace (d * X * P) with (d * P * X) by lia.
    apply Z.mul_le_mono_nonneg_r; lia.
  - apply (Z.mul_le_mono_pos_r _ _ X HX). rewrite Ea.
    replace (d * P * X) with (d * X * P) by lia.
    apply Z.mul_le_mono_nonneg_r; lia.
  - apply (Z.mul_le_mono_pos_r _ _ P HP). rewrite <- Ea.
    replace (d * X * P) with (d * P * X) by lia.
    apply Z.mul_le_mono_nonneg_r; lia.
Qed.

(** The quotient of two positive finite numbers, the first at most the
    second, is a finite number between zero and one, and is one when they
    are equal. *)
Lemma SFdiv_le_one (ma md : positive) (ea ed : Z) :
  valid (S754_finite false ma ea) = true ->
  valid (S754_finite false md ed) = true ->
  Zpos ma * 2 ^ (ea - emin) <= Zpos md * 2 ^ (ed - emin) ->
  let y := SFdiv prec emax (S754_finite false ma ea) (S754_finite false md ed) in
  fv y = true /\ 0 <= ord y <= 2 ^ (0 - emin) /\
  (y = S754_zero false \/ exists m e, y = S754_finite false m e) /\
  (Zpos ma * 2 ^ (ea - emin) = Zpos md * 2 ^ (ed - emin) ->
   ord y = 2 ^ (0 - emin)).
Proof.
  intros Va Vd Hle y.
  destruct (valid_finite _ _ _ Va) as (Ba & _).
  destruct (valid_finite _ _ _ Vd) as (Bd & _).
  pose proof emin_neg as [En Ee].
  destruct (SFdiv_rounding false false ma md ea ed) as (e' & s & Hs & Es & Hpre & R).
  fold y in R. cbn [xorb] in R.
  set (w := rounded (Z.pos ma * 2 ^ s) (Z.pos md) e') in *.
  assert (Ps : 0 < 2 ^ s) by (apply Z.pow_pos_nonneg; lia).
  destruct (quotient_scale (Zpos ma) (Zpos md) ea ed e' s (Z.min e' 0)
              ltac:(lia) ltac:(lia) ltac:(lia) ltac:(lia) Hs Es ltac:(lia) ltac:(lia))
    as [Q1 Q2].
  assert (W0 : 0 <= w) by (apply rounded_nonneg; [nia|lia|exact Hpre]).
  assert (W1 : w <= 2 ^ (0 - emin)).
  { apply (rounded_le_pow2 _ _ _ 0 (Z.min e' 0));
      try (apply Q1; exact Hle); try lia; nia. }
  assert (Hlt : 2 ^ (0 - emin) < 2 ^ (emax - emin))
    by (apply Z.pow_lt_mono_r; lia).
  destruct (is_rounding_finite false w y R ltac:(lia)) as (F & V & O & Z0 & Zp).
  cbn [cond_Zopp] in O.
  split; [apply fv_iff; auto|]. split; [lia|]. split.
  - destruct (Z.eq_dec w 0) as [E|NE]; [left; auto|right; apply Zp; lia].
  - intros Heq. rewrite O.
    assert (2 ^ (0 - emin) <= w); [|lia].
    apply (rounded_ge_pow2 _ _ _ 0 (Z.min e' 0));
      try (apply Q2; lia); try lia; nia.
Qed.

Lemma SFdiv_zero_l (s : bool) (md : positive) (ed : Z) :
  SFdiv prec emax (S754_zero s) (S754_finite false md ed) = S754_zero s.
Proof. cbn [SFdiv]. now destruct s. Qed.

(** The value [norm_sg] computes for an element [v] of an array of finite
    numbers whose minimum [lo] is below its maximum [hi], when [hi - lo]
    does not overflow. *)
Theorem norm_value_range (lo hi v : spec_float) :
  fv lo = true -> fv hi = true -> fv v = true ->
  ord lo <= ord v <= ord hi -> ord lo < ord hi ->
  is_finite (SFsub prec emax hi lo) = true ->
  let y := norm_value prec emax lo hi v in
  fv y = true /\ 0 <= ord y <= ord (SFone prec emax) /\
  (exists s, y = S754_zero s \/ exists m e, y = S754_finite false m e) /\
  (ord v = ord lo -> ord y = 0) /\
  (ord v = ord hi -> ord y = ord (SFone prec emax)).
Proof.
  intros Hlo Hhi Hv Hb Hne Hfin y.
  apply fv_iff in Hlo, Hhi, Hv.
  destruct Hlo as [Vlo Flo], Hhi as [Vhi Fhi], Hv as [Vv Fv].
  destruct SFone_valid as (m1 & e1 & E1 & V1 & O1). rewrite O1.
  (* the denominator *)
  destruct (SFsub_rounding hi lo Vhi Vlo Fhi Flo) as (_ & Rd & _).
  specialize (Rd ltac:(lia)).
  pose proof (rnd_pos (ord hi - ord lo) ltac:(lia)) as Pd.
  pose proof (is_rounding_overflow _ _ _ Rd ltac:(lia) Hfin) as Ud.
  destruct (is_rounding_finite _ _ _ Rd ltac:(lia)) as (_ & Vd & Od & _ & Dp).
  destruct (Dp Pd) as (md & ed & Ed).
  cbn [cond_Zopp] in Od.
  (* the numerator *)
  destruct (SFsub_rounding v lo Vv Vlo Fv Flo) as (Ra0 & Ra & _).
  unfold norm_value in y.
  destruct (Z.eq_dec (ord v - ord lo) 0) as [Ez|Nz].
  - destruct (Ra0 Ez) as (s & Ea).
    assert (Ey : y = S754_zero s).
    { unfold y. rewrite Ea, Ed. apply SFdiv_zero_l. }
    rewrite Ey.
    assert (0 < 2 ^ (0 - emin)) by (apply Z.pow_pos_nonneg; pose proof emin_neg; lia).
    split; [reflexivity|]. cbn [sf_ord].
    split; [lia|]. split; [exists s; now left|]. split; [reflexivity|]. intros; lia.
  - specialize (Ra ltac:(lia)).
    pose proof (rnd_pos (ord v - ord lo) ltac:(lia)) as Pa.
    pose proof (rnd_mono (ord v - ord lo) (ord hi - ord lo) ltac:(lia)) as Mad.
    destruct (is_rounding_finite _ _ _ Ra ltac:(lia)) as (_ & Va & Oa & _ & Ap).
    destruct (Ap Pa) as (ma & ea & Ea).
    cbn [cond_Zopp] in Oa.
    rewrite Ea in Va, Oa. rewrite Ed in Vd, Od. cbn [sf_ord cond_Zopp] in Oa, Od.
    pose proof (SFdiv_le_one ma md ea ed Va Vd ltac:(lia)) as (Fy & By & Sy & Qy).
    cbv zeta in Fy, By, Sy, Qy.
    assert (Ey : y = SFdiv prec emax (S754_finite false ma ea) (S754_finite false md ed)).
    { unfold y. now rewrite Ea, Ed. }
    rewrite Ey.
    split; [exact Fy|]. split; [exact By|]. split.
    + exists false. exact Sy.
    + split; [intros; lia|]. intros Heq. apply Qy. rewrite Oa, Od, Heq. reflexivity.
Qed.

Lemma eord_finite_iff (v : spec_float) :
  nv v = true ->
  (is_finite v = true <-> - 2 ^ (emax - emin) < eord v < 2 ^ (emax - emin)).
Proof.
  intros Hv. apply nv_iff in Hv. destruct Hv as [V N].
  pose proof emin_neg as [En _].
  assert (P : 0 < 2 ^ (emax - emin)) by (apply Z.pow_pos_nonneg; lia).
  split.
  - intros F. rewrite eord_finite by assumption. now apply ord_bound.
  - destruct v as [s|s| |s m e]; try reflexivity; try discriminate.
    cbn [sf_eord]. destruct s; cbn [cond_Zopp]; lia.
Qed.

(** Elements of an array of finite numbers with a minimum below its
    maximum and a range that does not overflow are sent into [[0, 1]]. *)
Lemma norm_sg_range (a : ndarray) (lo hi : spec_float) :
  array_min a = Ok lo -> array_max a = Ok hi ->
  Forall (fun v => fv v = true) (elements a) ->
  SFltb lo hi = true ->
  is_finite (SFsub prec emax hi lo) = true ->
  forall v, In v (elements a) ->
    let y := norm_value prec emax lo hi v in
    SFleb (S754_zero false) y = true /\
    SFleb y (SFone prec emax) = true /\
    (SFeqb v lo = true -> SFeqb y (S754_zero false) = true) /\
    (SFeqb v hi = true -> SFeqb y (SFone prec emax) = true).
Proof.
  intros Hlo Hhi Hall Hlt Hfin v Hv y.
  assert (Hnv : Forall (fun v => nv v = true) (elements a)).
  { revert Hall. apply Forall_impl. intros w. apply fv_nv. }
  destruct (array_min_max_eord a lo hi Hnv Hlo Hhi) as (Ilo & Ihi & Hb).
  rewrite Forall_forall in Hall, Hb.
  pose proof (Hall lo Ilo) as Flo. pose proof (Hall hi Ihi) as Fhi.
  pose proof (Hall v Hv) as Fv. specialize (Hb v Hv).
  pose proof Flo as Flo'. pose proof Fhi as Fhi'. pose proof Fv as Fv'.
  apply fv_iff in Flo', Fhi', Fv'.
  destruct Flo' as [Vlo Flo'], Fhi' as [Vhi Fhi'], Fv' as [Vv Fv'].
  rewrite !eord_finite in Hb by assumption.
  rewrite (SFltb_ord lo hi) in Hlt by assumption. apply Z.ltb_lt in Hlt.
  destruct (norm_value_range lo hi v Flo Fhi Fv Hb Hlt Hfin)
    as (Fy & By & _ & Y0 & Y1).
  fold y in Fy, By, Y0, Y1. apply fv_iff in Fy. destruct Fy as [Vy Fy].
  destruct SFone_valid as (m1 & e1 & E1 & V1 & O1).
  assert (F1 : is_finite (SFone prec emax) = true) by now rewrite E1.
  rewrite (SFleb_ord (S754_zero false) y), (SFleb_ord y (SFone prec emax))
    by (assumption || reflexivity).
  rewrite (SFeqb_ord v lo), (SFeqb_ord v hi), (SFeqb_ord y (S754_zero false)),
    (SFeqb_ord y (SFone prec emax)) by (assumption || reflexivity).
  change (ord (S754_zero false)) with 0.
  rewrite !Z.leb_le, !Z.eqb_eq. repeat split; try lia; assumption.
Qed.

(** On an array whose maximum equals its minimum every normalized value
    is NaN. *)
Lemma norm_sg_constant (a : ndarray) (lo hi : spec_float) :
  array_min a = Ok lo -> array_max a = Ok hi ->
  Forall (fun v => valid v = true) (elements a) ->
  SFeqb hi lo = true ->
  forall v, In v (elements a) -> norm_value prec emax lo hi v = S754_nan.
Proof.
  intros Hlo Hhi Hval Heq v Hv.
  assert (Nlo : is_nan lo = false).
  { destruct lo; try reflexivity. destruct hi; discriminate. }
  assert (Hnn : ~ In S754_nan (elements a)).
  { intros Hin. unfold array_min in Hlo.
    destruct (elements a) as [|x xs]; [discriminate|].
    injection Hlo as <-. rewrite (fold_fmin_nan xs x Hin) in Nlo. discriminate. }
  assert (Hnv : Forall (fun v => nv v = true) (elements a)).
  { rewrite Forall_forall in *. intros w Hw. apply nv_iff.
    split; [now apply Hval|]. destruct w; try reflexivity. contradiction. }
  destruct (array_min_max_eord a lo hi Hnv Hlo Hhi) as (Ilo & Ihi & Hb).
  rewrite Forall_forall in Hnv, Hb.
  pose proof (Hnv lo Ilo) as Flo. pose proof (Hnv hi Ihi) as Fhi.
  pose proof (Hnv v Hv) as Fv. specialize (Hb v Hv).
  rewrite (SFeqb_eord hi lo) in Heq by assumption. apply Z.eqb_eq in Heq.
  pose proof emin_neg as [En _].
  assert (P : 0 < 2 ^ (emax - emin)) by (apply Z.pow_pos_nonneg; lia).
  unfold norm_value.
  destruct (is_finite lo) eqn:Elo.
  - (* a finite constant: both differences are zero *)
    pose proof (proj1 (eord_finite_iff lo Flo) Elo) as Blo.
    assert (Ehi : is_finite hi = true) by (apply (eord_finite_iff hi Fhi); lia).
    assert (Ev : is_finite v = true) by (apply (eord_finite_iff v Fv); lia).
    rewrite !eord_finite in * by assumption.
    apply nv_iff in Flo, Fhi, Fv.
    destruct (SFsub_rounding v lo (proj1 Fv) (proj1 Flo) Ev Elo) as (Z1 & _).
    destruct (SFsub_rounding hi lo (proj1 Fhi) (proj1 Flo) Ehi Elo) as (Z2 & _).
    destruct (Z1 ltac:(lia)) as (s1 & ->). destruct (Z2 ltac:(lia)) as (s2 & ->).
    reflexivity.
  - (* an infinite constant *)
    destruct lo as [| slo | |]; try discriminate.
    assert (Ehi : hi = S754_infinity slo).
    { destruct hi as [s|s| |s m e]; try discriminate.
      - cbn [sf_eord sf_ord] in Heq. destruct slo; cbn [cond_Zopp] in Heq; lia.
      - cbn [sf_eord] in Heq. destruct s, slo; cbn [cond_Zopp] in Heq;
          try reflexivity; lia.
      - assert (F : is_finite (S754_finite s m e) = true) by reflexivity.
        pose proof (proj1 (eord_finite_iff _ Fhi) F) as B.
        cbn [sf_eord] in Heq, B. rewrite Heq in B.
        destruct slo; cbn [cond_Zopp] in B; lia. }
    assert (Ev : v = S754_infinity slo).
    { rewrite Heq in Hb.
      destruct v as [s|s| |s m e]; try discriminate.
      - cbn [sf_eord sf_ord] in Hb. destruct slo; cbn [cond_Zopp] in Hb; lia.
      - cbn [sf_eord] in Hb. destruct s, slo; cbn [cond_Zopp] in Hb;
          try reflexivity; lia.
      - assert (F : is_finite (S754_finite s m e) = true) by reflexivity.
        pose proof (proj1 (eord_finite_iff _ Fv) F) as B.
        cbn [sf_eord] in Hb, B.
        destruct slo; cbn [cond_Zopp] in Hb; lia. }
    rewrite Ehi, Ev. destruct slo; reflexivity.
Qed.

(** ** Results that stay in range *)

Local Abbreviation upto := (nonneg_upto prec emax).

Lemma is_rounding_upto (t w : Z) (r : spec_float) :
  is_rounding false w r -> 0 <= w <= 2 ^ (t - emin) -> t < emax ->
  upto t r.
Proof.
  intros R Hw Ht. pose proof emin_neg as [En _].
  assert (2 ^ (t - emin) < 2 ^ (emax - emin)).
  { destruct (Z.lt_ge_cases (t - emin) 0).
    - rewrite (Z.pow_neg_r 2 (t - emin)) by lia. apply Z.pow_pos_nonneg; lia.
    - apply Z.pow_lt_mono_r; lia. }
  destruct (is_rounding_finite false w r R ltac:(lia)) as (F & V & O & Z0 & Zp).
  cbn [cond_Zopp] in O. split; [apply fv_iff; auto|]. split; [|lia].
  destruct (Z.eq_dec w 0) as [E|NE]; [left; auto|right; apply Zp; lia].
Qed.

Lemma zero_upto (t : Z) : upto t (S754_zero false).
Proof.
  split; [reflexivity|]. split; [now left|]. cbn [sf_ord].
  apply Z.pow_nonneg. lia.
Qed.

(** An integer below [2^a] converts to a float of value at most [2^a]. *)
Lemma normalize_upto (n a : Z) :
  0 <= n < 2 ^ a -> 0 <= a < emax ->
  upto a (binary_normalize prec emax n 0 false).
Proof.
  intros Hn Ha. pose proof emin_neg as [En _].
  destruct n as [|p|p]; [apply zero_upto| |lia].
  cbn [binary_normalize].
  pose proof (binary_round_rounding false p 0 ltac:(lia)) as R.
  apply (is_rounding_upto a _ _ R); [|lia].
  assert (Hp : 0 < 2 ^ (0 - emin)) by (apply Z.pow_pos_nonneg; lia).
  assert (Hv : 0 < Z.pos p * 2 ^ (0 - emin)) by nia.
  pose proof (rnd_bounds _ Hv) as [_ U].
  pose proof (rnd_nonneg (Z.pos p * 2 ^ (0 - emin)) ltac:(lia)).
  split; [assumption|]. eapply Z.le_trans; [exact U|].
  apply Z.pow_le_mono_r; [lia|].
  rewrite Zdigits2_mul_pow2 by lia.
  assert (Zdigits2 (Z.pos p) <= a) by (apply Zdigits2_le_iff; lia). lia.
Qed.

(** The quotient of a positive integer below [2^a] by a positive integer
    rounds to a float of value at most [2^a]. *)
Lemma div_ints_upto (t n a : Z) :
  0 < t < 2 ^ a -> 0 < n -> 0 <= a < emax ->
  upto a (let '(q, e, l) := SFdiv_core_binary prec emax t 0 n 0 in
          binary_round_aux prec emax false q e l).
Proof.
  intros Ht Hn Ha. pose proof emin_neg as [En _].
  destruct (SFdiv_core_binary_spec t 0 n 0 ltac:(lia) Hn)
    as (e' & s & Hc & Hs & Es & Hpre).
  rewrite Hc.
  assert (Ps : 0 < 2 ^ s) by (apply Z.pow_pos_nonneg; lia).
  pose proof (binary_round_aux_rounding false (t * 2 ^ s) n e'
                ltac:(nia) Hn Hpre) as R.
  apply (is_rounding_upto a _ _ R); [|lia].
  split; [apply rounded_nonneg; [nia|lia|exact Hpre]|].
  apply (rounded_le_pow2 _ _ _ a e'); try lia.
  rewrite Z.sub_diag, Z.mul_1_r.
  replace (a - e') with (a + s) by lia.
  rewrite Z.pow_add_r by lia.
  assert (0 < 2 ^ a) by (apply Z.pow_pos_nonneg; lia).
  assert (t <= n * 2 ^ a) by nia.
  rewrite Z.mul_assoc. apply Z.mul_le_mono_nonneg_r; lia.
Qed.

(** The product of two floats of values at most [2^a] and [2^b]. *)
Lemma mul_upto (x y : spec_float) (a b : Z) :
  upto a x -> upto b y -> 0 <= a -> 0 <= b -> a + b < emax ->
  upto (a + b) (SFmul prec emax x y).
Proof.
  intros (Fx & Sx & Ox) (Fy & Sy & Oy) Ha Hb Hab.
  pose proof emin_neg as [En _].
  destruct Sx as [->|(mx & ex & ->)]; destruct Sy as [->|(my & ey & ->)];
    try apply zero_upto.
  apply fv_iff in Fx, Fy. destruct Fx as [Vx _], Fy as [Vy _].
  destruct (valid_finite _ _ _ Vx) as (Bx & _).
  destruct (valid_finite _ _ _ Vy) as (By & _).
  cbn [sf_ord cond_Zopp] in Ox, Oy.
  pose proof (SFmul_rounding false false mx my ex ey Vx Vy) as R.
  cbn [xorb] in R.
  assert (Px : 0 < 2 ^ (ex - emin)) by (apply Z.pow_pos_nonneg; lia).
  assert (Py : 0 < 2 ^ (ey - emin)) by (apply Z.pow_pos_nonneg; lia).
  (* exponents are below the bounds *)
  assert (Hxa : ex <= a).
  { destruct (Z.le_gt_cases ex a); [assumption|exfalso].
    assert (2 ^ (a - emin) < 2 ^ (ex - emin)) by (apply Z.pow_lt_mono_r; lia).
    nia. }
  assert (Hyb : ey <= b).
  { destruct (Z.le_gt_cases ey b); [assumption|exfalso].
    assert (2 ^ (b - emin) < 2 ^ (ey - emin)) by (apply Z.pow_lt_mono_r; lia).
    nia. }
  assert (Mx : Z.pos mx <= 2 ^ (a - ex)).
  { assert (E : 2 ^ (a - emin) = 2 ^ (a - ex) * 2 ^ (ex - emin)).
    { rewrite <- Z.pow_add_r by lia. f_equal. lia. }
    rewrite E in Ox. nia. }
  assert (My : Z.pos my <= 2 ^ (b - ey)).
  { assert (E : 2 ^ (b - emin) = 2 ^ (b - ey) * 2 ^ (ey - emin)).
    { rewrite <- Z.pow_add_r by lia. f_equal. lia. }
    rewrite E in Oy. nia. }
  assert (Hpre : ex + ey <= fexp (Zdigits2 (Zpos mx * Zpos my / 1) + (ex + ey))).
  { destruct (valid_finite _ _ _ Vx) as (_ & Dx & Nx & _).
    destruct (valid_finite _ _ _ Vy) as (_ & Dy & Ny & _).
    rewrite Z.div_1_r.
    pose proof (Zdigits2_bounds (Zpos mx) ltac:(lia)) as [Lx _].
    pose proof (Zdigits2_bounds (Zpos my) ltac:(lia)) as [Ly _].
    pose proof (Zdigits2_pos (Zpos mx) ltac:(lia)).
    pose proof (Zdigits2_pos (Zpos my) ltac:(lia)).
    assert (Zdigits2 (Zpos mx) + Zdigits2 (Zpos my) - 2
            < Zdigits2 (Zpos mx * Zpos my)).
    { apply Zdigits2_gt_iff; [lia|lia|].
      replace (Zdigits2 (Z.pos mx) + Zdigits2 (Z.pos my) - 2)
        with ((Zdigits2 (Z.pos mx) - 1) + (Zdigits2 (Z.pos my) - 1)) by lia.
      rewrite Z.pow_add_r by lia.
      apply Z.mul_le_mono_nonneg; try lia; apply Z.pow_nonneg; lia. }
    unfold SpecFloat.fexp. lia. }
  apply (is_rounding_upto (a + b) _ _ R); [|lia].
  split; [apply rounded_nonneg; [lia|lia|exact Hpre]|].
  apply (rounded_le_pow2 _ _ _ (a + b) (ex + ey)); try lia.
  rewrite Z.sub_diag, Z.mul_1_r, Z.mul_1_l.
  replace (a + b - (ex + ey)) with ((a - ex) + (b - ey)) by lia.
  rewrite Z.pow_add_r by lia.
  apply Z.mul_le_mono_nonneg; lia.
Qed.

End Format.

(** ** The normalizer: range and degenerate input *)

Lemma array_min_max_nonempty (a : ndarray) :
  elements a <> [] -> exists lo hi, array_min a = Ok lo /\ array_max a = Ok hi.
Proof.
  intros H. unfold array_min, array_max.
  destruct (elements a) as [|x xs]; [congruence|]. eauto.
Qed.

Lemma in_elements (a : ndarray) (r : list spec_float) (v : spec_float) :
  In r (rows a) -> In v r -> In v (elements a).
Proof.
  intros Hr Hv. unfold elements. apply in_concat. now exists r.
Qed.

(** C4, as the code behaves.  On every array with at least one element
    [norm_sg] returns an array of the same shape whose entries are
    [(v - lo) / (hi - lo)], computed in the floating-point format of the
    array, for [lo] and [hi] the minimum and maximum of the array.  When all
    elements are finite, [lo < hi] and [hi - lo] does not overflow, every
    output lies between [0.0] and [1.0] inclusive, the positions holding
    the minimum give [0.0] and those holding the maximum give [1.0]. *)
Theorem C4_norm_sg_range (prec emax : Z) (a : ndarray) :
  1 < prec -> prec < emax -> elements a <> [] ->
  exists lo hi out,
    array_min a = Ok lo /\ array_max a = Ok hi /\
    norm_sg prec emax a = Ok out /\
    shape out = shape a /\
    rows out =
      map (map (fun v => SFdiv prec emax (SFsub prec emax v lo)
                                         (SFsub prec emax hi lo))) (rows a) /\
    (Forall (fun v => finite_valid prec emax v = true) (elements a) ->
     SFltb lo hi = true ->
     is_finite (SFsub prec emax hi lo) = true ->
     Forall (fun y => SFleb (S754_zero false) y = true /\
                      SFleb y (SFone prec emax) = true) (elements out) /\
     forall v, In v (elements a) ->
       (SFeqb v lo = true ->
        SFeqb (SFdiv prec emax (SFsub prec emax v lo) (SFsub prec emax hi lo))
              (S754_zero false) = true) /\
       (SFeqb v hi = true ->
        SFeqb (SFdiv prec emax (SFsub prec emax v lo) (SFsub prec emax hi lo))
              (SFone prec emax) = true)).
Proof.
  intros Hprec Hemax Hne.
  destruct (array_min_max_nonempty a Hne) as (lo & hi & Hlo & Hhi).
  exists lo, hi, (map_array (norm_value prec emax lo hi) a).
  split; [exact Hlo|]. split; [exact Hhi|].
  split; [now apply norm_sg_spec|]. split; [apply map_array_shape|].
  split; [reflexivity|].
  intros Hall Hlt Hfin.
  pose proof (norm_sg_range prec emax Hprec Hemax a lo hi Hlo Hhi Hall Hlt Hfin) as R.
  split.
  - rewrite map_array_elements. apply Forall_map, Forall_forall.
    intros v Hv. destruct (R v Hv) as (R1 & R2 & _). split; assumption.
  - intros v Hv. destruct (R v Hv) as (_ & _ & R3 & R4). split; assumption.
Qed.

Lemma C4_norm_sg_range_witness :
  exists lo hi out,
    array_min ex_mel = Ok lo /\ array_max ex_mel = Ok hi /\
    norm_sg 24 128 ex_mel = Ok out /\
    shape out = shape ex_mel /\
    rows out =
      map (map (fun v => SFdiv 24 128 (SFsub 24 128 v lo)
                                      (SFsub 24 128 hi lo))) (rows ex_mel) /\
    (Forall (fun v => finite_valid 24 128 v = true) (elements ex_mel) ->
     SFltb lo hi = true ->
     is_finite (SFsub 24 128 hi lo) = true ->
     Forall (fun y => SFleb (S754_zero false) y = true /\
                      SFleb y (SFone 24 128) = true) (elements out) /\
     forall v, In v (elements ex_mel) ->
       (SFeqb v lo = true ->
        SFeqb (SFdiv 24 128 (SFsub 24 128 v lo) (SFsub 24 128 hi lo))
              (S754_zero false) = true) /\
       (SFeqb v hi = true ->
        SFeqb (SFdiv 24 128 (SFsub 24 128 v lo) (SFsub 24 128 hi lo))
              (SFone 24 128) = true)).
Proof.
  apply (C4_norm_sg_range 24 128 ex_mel).
  - lia.
  - lia.
  - vm_compute. discriminate.
Defined.

(** C4 as stated fails.  [ex_wide] is a non-constant array of two finite
    [float32] numbers; its range overflows, the entry of the maximum becomes
    NaN instead of [1.0], and NaN is not below [1.0].  An array without
    elements has no minimum: [norm_sg] raises instead of returning an
    array. *)
Lemma C4_counterexample :
  Forall (fun v => finite_valid 24 128 v = true) (elements ex_wide) /\
  array_min ex_wide = Ok (S754_finite true 16777215 104) /\
  array_max ex_wide = Ok (S754_finite false 16777215 104) /\
  SFltb (S754_finite true 16777215 104) (S754_finite false 16777215 104) = true /\
  norm_sg 24 128 ex_wide
    = Ok {| ncols := 2; rows := [[S754_zero false; S754_nan]] |} /\
  SFleb S754_nan (SFone 24 128) = false /\
  SFeqb S754_nan (SFone 24 128) = false /\
  norm_sg 24 128 ex_empty = Raise RuntimeError.
Proof.
  split; [repeat constructor|]. vm_compute. repeat split.
Qed.

(** C8. On every array whose maximum equals its minimum, [norm_sg]
    divides by the zero (or NaN) difference without a guard: it returns an
    array of the same shape in which every entry is NaN, a non-finite value,
    and not an array of zeros. *)
Theorem C8_constant_array (prec emax : Z) (a : ndarray) (lo hi : spec_float) :
  1 < prec -> prec < emax ->
  Forall (fun v => valid_binary prec emax v = true) (elements a) ->
  array_min a = Ok lo -> array_max a = Ok hi ->
  SFeqb hi lo = true ->
  exists out,
    norm_sg prec emax a = Ok out /\
    shape out = shape a /\
    rows out = map (map (fun _ => S754_nan)) (rows a) /\
    elements out <> [] /\
    Forall (fun y => y = S754_nan /\ is_finite y = false /\
                     SFeqb y (S754_zero false) = false) (elements out).
Proof.
  intros Hprec Hemax Hval Hlo Hhi Heq.
  pose proof (norm_sg_constant prec emax Hprec Hemax a lo hi Hlo Hhi Hval Heq) as C.
  exists (map_array (norm_value prec emax lo hi) a).
  split; [now apply norm_sg_spec|]. split; [apply map_array_shape|].
  split; [|split].
  - cbn [map_array rows]. apply map_ext_in. intros r Hr.
    apply map_ext_in. intros v Hv. apply C. now apply (in_elements a r).
  - rewrite map_array_elements. unfold array_min in Hlo.
    destruct (elements a); [discriminate|]. discriminate.
  - rewrite map_array_elements. apply Forall_map, Forall_forall.
    intros v Hv. rewrite (C v Hv). repeat split.
Qed.

Lemma C8_constant_array_witness :
  exists out,
    norm_sg 24 128 ex_const = Ok out /\
    shape out = shape ex_const /\
    rows out = map (map (fun _ => S754_nan)) (rows ex_const) /\
    elements out <> [] /\
    Forall (fun y => y = S754_nan /\ is_finite y = false /\
                     SFeqb y (S754_zero false) = false) (elements out).
Proof.
  apply (C8_constant_array 24 128 ex_const
           (S754_finite true 9175040 (-18)) (S754_finite true 9175040 (-18))).
  - lia.
  - lia.
  - repeat constructor.
  - vm_compute. reflexivity.
  - vm_compute. reflexivity.
  - reflexivity.
Defined.

(** ** The symbolic index is always computed for array-sized operands *)

Lemma round_nonneg (x : spec_float) :
  x = S754_zero false \/ (exists m e, x = S754_finite false m e) ->
  exists k, PyFloat.round x = Ok k /\ 0 <= k.
Proof.
  intros [->|(m & e & ->)]; cbn [PyFloat.round].
  - exists 0. split; [reflexivity|lia].
  - eexists. split; [reflexivity|].
    destruct (Z.leb_spec 0 e).
    + rewrite Z.shiftl_mul_pow2 by assumption.
      apply Z.mul_nonneg_nonneg; [lia|]. apply Z.pow_nonneg; lia.
    + pose proof (round_half_even_shift_spec (Zpos m) (- e) ltac:(lia) ltac:(lia))
        as [Hb _]. cbv zeta in Hb.
      assert (0 < 2 ^ (- e)) by (apply Z.pow_pos_nonneg; lia). nia.
Qed.

Lemma upto_finite_or_overflow (t : Z) (f : spec_float) :
  nonneg_upto PyFloat.prec PyFloat.emax t f ->
  PyFloat.finite_or_overflow f = Ok f.
Proof. intros (_ & [->|(m & e & ->)] & _); reflexivity. Qed.

Lemma of_int_upto (i a : Z) :
  0 <= i < 2 ^ a -> 0 <= a < 1024 ->
  exists f, PyFloat.of_int i = Ok f /\
            nonneg_upto PyFloat.prec PyFloat.emax a f.
Proof.
  intros Hi Ha. unfold PyFloat.of_int.
  pose proof (normalize_upto 53 1024 ltac:(lia) ltac:(lia) i a Hi Ha) as U.
  eexists. split; [|exact U]. eapply upto_finite_or_overflow. exact U.
Qed.

Lemma int_true_div_upto (t n a : Z) :
  0 <= t < 2 ^ a -> 0 < n -> 0 <= a < 1024 ->
  exists r, PyFloat.int_true_div t n = Ok r /\
            nonneg_upto PyFloat.prec PyFloat.emax a r.
Proof.
  intros Ht Hn Ha. unfold PyFloat.int_true_div.
  destruct (Z.eqb_spec n 0); [lia|].
  destruct (Z.ltb_spec n 0); [lia|].
  destruct (Z.eqb_spec t 0) as [->|Hnz].
  - exists (S754_zero false). split; [reflexivity|].
    apply zero_upto.
  - destruct (Z.ltb_spec t 0); [lia|]. cbn [xorb].
    rewrite (Z.abs_eq t), (Z.abs_eq n) by lia.
    pose proof (div_ints_upto 53 1024 ltac:(lia) ltac:(lia) t n a
                  ltac:(lia) Hn Ha) as U.
    change PyFloat.prec with 53. change PyFloat.emax with 1024.
    destruct (SFdiv_core_binary 53 1024 t 0 n 0) as [[q e] l].
    eexists. split; [|exact U]. eapply upto_finite_or_overflow. exact U.
Qed.

(** For a piano roll of fewer than [2^63] columns, a positive [song_len]
    and a frame index in [0 .. 2^63) the symbolic index is computed without
    an exception, and is not negative. *)
Lemma sym_index_total (t n i : Z) :
  0 <= t < 2 ^ 63 -> 0 < n -> 0 <= i < 2 ^ 63 ->
  exists k, sym_index t n i = Ok k /\ 0 <= k.
Proof.
  intros Ht Hn Hi. unfold sym_index, PyFloat.int_mul_float.
  destruct (int_true_div_upto t n 63 Ht Hn ltac:(lia)) as (r & -> & Ur).
  destruct (of_int_upto i 63 Hi ltac:(lia)) as (f & -> & Uf).
  cbn [rbind].
  pose proof (mul_upto 53 1024 ltac:(lia) ltac:(lia) f r 63 63 Uf Ur
                ltac:(lia) ltac:(lia) ltac:(lia)) as (_ & S & _).
  apply round_nonneg. exact S.
Qed.

Lemma sym_index_zero (t n : Z) :
  0 <= t < 2 ^ 63 -> 0 < n -> sym_index t n 0 = Ok 0.
Proof.
  intros Ht Hn. unfold sym_index, PyFloat.int_mul_float.
  destruct (int_true_div_upto t n 63 Ht Hn ltac:(lia)) as (r & -> & Ur).
  cbn [rbind]. destruct Ur as (_ & [->|(m & e & ->)] & _); reflexivity.
Qed.

(** ** Slices that reach past the end *)

Lemma slice_list_beyond {A : Type} (l : list A) (lo hi : Z) :
  0 <= lo -> Z.of_nat (length l) <= hi ->
  slice_list l lo hi = skipn (Z.to_nat lo) l.
Proof.
  intros Hlo Hhi. unfold slice_list, slice_len.
  pose proof (slice_index_nonneg (length l) lo Hlo) as Il.
  pose proof (slice_index_nonneg (length l) hi ltac:(lia)) as Ih.
  rewrite firstn_all2 by (rewrite length_skipn; lia).
  destruct (Z.le_gt_cases lo (Z.of_nat (length l))).
  - f_equal. lia.
  - rewrite !skipn_all2 by lia. reflexivity.
Qed.

Lemma slice_cols_beyond (a : ndarray) (lo hi : Z) :
  wf_ndarray a = true -> 0 <= lo -> Z.of_nat (ncols a) <= hi ->
  Z.of_nat (ncols (slice_cols a lo hi))
    = Z.of_nat (ncols a) - Z.min lo (Z.of_nat (ncols a)) /\
  rows (slice_cols a lo hi) = map (skipn (Z.to_nat lo)) (rows a) /\
  wf_ndarray (slice_cols a lo hi) = true.
Proof.
  intros Hwf Hlo Hhi. split; [|split].
  - cbn [slice_cols ncols]. unfold slice_len.
    pose proof (slice_index_nonneg (ncols a) lo Hlo).
    pose proof (slice_index_nonneg (ncols a) hi ltac:(lia)).
    lia.
  - cbn [slice_cols rows]. apply map_ext_in. intros r Hr.
    apply wf_ndarray_rows in Hwf. rewrite Forall_forall in Hwf.
    apply slice_list_beyond; [assumption|]. rewrite (Hwf r Hr). assumption.
  - now apply slice_cols_wf.
Qed.

Lemma slice_cols_all (a : ndarray) (hi : Z) :
  wf_ndarray a = true -> Z.of_nat (ncols a) <= hi -> slice_cols a 0 hi = a.
Proof.
  intros Hwf Hhi.
  destruct (slice_cols_beyond a 0 hi Hwf ltac:(lia) Hhi) as (Hc & Hr & _).
  destruct a as [c rs]. cbn [ncols rows] in *.
  unfold slice_cols in *. cbn [ncols rows] in *. f_equal.
  - lia.
  - rewrite Hr. cbn [Z.to_nat skipn]. apply map_id.
Qed.

(** The run of [create_tensor] on a recording of 95 frames with chunk
    length 100, when the storage accepts the writes: one window, two
    artifacts, named after the window [(0, 100)]; the acoustic artifact has
    the 95 frames of the recording. *)
Lemma create_tensor_95_100 (piano_roll mel : ndarray) (stem : string)
    (save_path : Path) (st : storage) :
  elements mel <> [] -> ncols mel = 95%nat ->
  Z.of_nat (ncols piano_roll) < 2 ^ 63 ->
  (forall log p, can_write st log p = true) ->
  exists norm_db stop_sym,
    norm_sg 24 128 mel = Ok norm_db /\ shape norm_db = shape mel /\
    wf_ndarray norm_db = wf_ndarray mel /\
    sym_index (Z.of_nat (ncols piano_roll)) 95 0 = Ok 0 /\
    sym_index (Z.of_nat (ncols piano_roll)) 95 100 = Ok stop_sym /\
    0 <= stop_sym /\
    create_tensor piano_roll mel stem 100 save_path st =
    (Ok tt,
     {| can_write := can_write st;
        written := written st ++
          [(save_path ++ [("0-100-" ++ stem ++ "-spec.npy")%string],
            slice_cols norm_db 0 100);
           (save_path ++ [("0-100-" ++ stem ++ "-piano.npy")%string],
            with_marker (slice_cols piano_roll 0 stop_sym))] |}) /\
    ncols (slice_cols norm_db 0 100) = 95%nat.
Proof.
  intros Hne Hc Hpr Hw.
  destruct (array_min_max_nonempty mel Hne) as (lo & hi & Hlo & Hhi).
  pose proof (norm_sg_spec 24 128 mel lo hi Hlo Hhi) as Hn.
  set (nd := map_array (norm_value 24 128 lo hi) mel) in *.
  assert (Hnc : ncols nd = 95%nat) by exact Hc.
  pose proof (sym_index_zero (Z.of_nat (ncols piano_roll)) 95 ltac:(lia) ltac:(lia))
    as H0.
  destruct (sym_index_total (Z.of_nat (ncols piano_roll)) 95 100
              ltac:(lia) ltac:(lia) ltac:(lia)) as (b & Hb & Hb0).
  exists nd, b.
  split; [exact Hn|]. split; [apply map_array_shape|].
  split; [apply map_array_wf|]. split; [exact H0|]. split; [exact Hb|].
  split; [exact Hb0|]. split.
  - rewrite create_tensor_unfold, Hn, Hnc.
    change (py_range 0 (Z.of_nat 95) 100) with (Ok (A := list Z) [0]).
    cbn [io_for]. unfold io_bind.
    rewrite create_tensor_step_unfold, extract_chunk_spec.
    change (0 + 100) with 100. change (Z.of_nat 95) with 95.
    rewrite H0, Hb. cbn [rbind]. cbv zeta.
    rewrite !Hw. reflexivity.
  - cbn [slice_cols ncols]. rewrite Hnc. reflexivity.
Qed.

(** ** Truncated slices and the last window *)

(** C6. A slice whose stop index exceeds the length of the axis is cut at
    the end of the array: it keeps the columns from [lo] on.  Slicing raises
    nothing: [extract_chunk] returns a pair whenever the two symbolic
    indices are computed, however far the stop indices reach.  For a
    recording of 95 frames and chunk length 100 (a piano roll of fewer than
    [2^63] columns, a storage that accepts the writes) the loop has the one
    window [(0, 100)], whose frames clipped to the recording are
    [0 .. 94]; [create_tensor] succeeds and writes exactly the two artifacts
    of that window, the acoustic one holding all 95 frames. *)
Theorem C6_truncated_slices :
  (forall (a : ndarray) (lo hi : Z),
      wf_ndarray a = true -> 0 <= lo -> Z.of_nat (ncols a) < hi ->
      Z.of_nat (ncols (slice_cols a lo hi))
        = Z.of_nat (ncols a) - Z.min lo (Z.of_nat (ncols a)) /\
      rows (slice_cols a lo hi) = map (skipn (Z.to_nat lo)) (rows a) /\
      wf_ndarray (slice_cols a lo hi) = true) /\
  (forall (piano_roll norm_db : ndarray) (start stop song_len start_sym stop_sym : Z),
      sym_index (Z.of_nat (ncols piano_roll)) song_len start = Ok start_sym ->
      sym_index (Z.of_nat (ncols piano_roll)) song_len stop = Ok stop_sym ->
      extract_chunk piano_roll norm_db start stop song_len =
      Ok (with_marker (slice_cols piano_roll start_sym stop_sym),
          slice_cols norm_db start stop)) /\
  (forall (piano_roll mel : ndarray) (stem : string) (save_path : Path)
          (st : storage),
      wf_ndarray mel = true -> elements mel <> [] -> ncols mel = 95%nat ->
      Z.of_nat (ncols piano_roll) < 2 ^ 63 ->
      (forall log p, can_write st log p = true) ->
      windows 95 100 = Ok [(0, 100)] /\
      clipped_frames 95 (0, 100) = frames 0 95 /\
      exists norm_db stop_sym,
        norm_sg 24 128 mel = Ok norm_db /\
        shape norm_db = shape mel /\ ncols norm_db = 95%nat /\
        create_tensor piano_roll mel stem 100 save_path st =
        (Ok tt,
         {| can_write := can_write st;
            written := written st ++
              [(save_path ++ [("0-100-" ++ stem ++ "-spec.npy")%string], norm_db);
               (save_path ++ [("0-100-" ++ stem ++ "-piano.npy")%string],
                with_marker (slice_cols piano_roll 0 stop_sym))] |})).
Proof.
  split; [|split].
  - intros a lo hi Hwf Hlo Hhi. apply slice_cols_beyond; [assumption|lia|lia].
  - intros pr sg start stop n a b Ha Hb.
    rewrite extract_chunk_spec, Ha, Hb. reflexivity.
  - intros pr mel stem save st Hwf Hne Hc Hpr Hw.
    split; [reflexivity|]. split; [reflexivity|].
    destruct (create_tensor_95_100 pr mel stem save st Hne Hc Hpr Hw)
      as (nd & b & Hn & Hs & Hwf' & _ & _ & _ & Hrun & Hcols).
    assert (Hndc : ncols nd = 95%nat).
    { unfold shape in Hs. injection Hs as _ E. now rewrite E. }
    assert (Hall : slice_cols nd 0 100 = nd).
    { apply slice_cols_all; [now rewrite Hwf'|]. rewrite Hndc. cbn. lia. }
    rewrite Hall in Hrun. exists nd, b. repeat split; assumption.
Qed.

Lemma C6_truncated_slices_witness :
  (Z.of_nat (ncols (slice_cols ex_piano_roll 8 12))
     = Z.of_nat (ncols ex_piano_roll) - Z.min 8 (Z.of_nat (ncols ex_piano_roll)) /\
   rows (slice_cols ex_piano_roll 8 12)
     = map (skipn (Z.to_nat 8)) (rows ex_piano_roll) /\
   wf_ndarray (slice_cols ex_piano_roll 8 12) = true) /\
  extract_chunk ex_piano_roll ex_mel 4 6 5 =
    Ok (with_marker (slice_cols ex_piano_roll 8 12), slice_cols ex_mel 4 6) /\
  (windows 95 100 = Ok [(0, 100)] /\
   clipped_frames 95 (0, 100) = frames 0 95 /\
   exists norm_db stop_sym,
     norm_sg 24 128 ex_mel95 = Ok norm_db /\
     shape norm_db = shape ex_mel95 /\ ncols norm_db = 95%nat /\
     create_tensor ex_piano_roll ex_mel95 "a" 100 ["out"%string] ex_storage =
     (Ok tt,
      {| can_write := can_write ex_storage;
         written := written ex_storage ++
           [(["out"%string] ++ [("0-100-" ++ "a" ++ "-spec.npy")%string], norm_db);
            (["out"%string] ++ [("0-100-" ++ "a" ++ "-piano.npy")%string],
             with_marker (slice_cols ex_piano_roll 0 stop_sym))] |})).
Proof.
  split; [|split].
  - apply (proj1 C6_truncated_slices ex_piano_roll 8 12).
    + reflexivity.
    + lia.
    + cbn. lia.
  - apply (proj1 (proj2 C6_truncated_slices) ex_piano_roll ex_mel 4 6 5 8 12).
    + vm_compute. reflexivity.
    + vm_compute. reflexivity.
  - apply (proj2 (proj2 C6_truncated_slices) ex_piano_roll ex_mel95 "a"%string
             ["out"%string] ex_storage).
    + vm_compute. reflexivity.
    + vm_compute. discriminate.
    + reflexivity.
    + cbn. lia.
    + reflexivity.
Defined.

Lemma py_range_bounds (n l : Z) (ms : list Z) :
  0 <= n -> 0 < l -> py_range 0 n l = Ok ms -> Forall (fun m => 0 <= m < n) ms.
Proof.
  intros Hn Hl H. rewrite py_range_pos in H by assumption. injection H as <-.
  destruct (ceil_div_bounds n l Hn Hl) as (Hc0 & Hup & Hlo).
  apply Forall_forall. intros m Hm. apply in_map_iff in Hm.
  destruct Hm as (k & <- & Hk). apply in_seq in Hk. nia.
Qed.

(** C10. In a run of [create_tensor] that succeeds, with a positive chunk
    length, the two artifacts of the window starting at [m_sec] are named
    with the nominal stop [m_sec + chunk_len], while the acoustic artifact
    has [min(m_sec + chunk_len, T_acoustic) - m_sec] frames: fewer than the
    name says for a last window that reaches past the recording.  For 95
    frames and chunk length 100 the artifacts are [0-100-{stem}-spec.npy] and
    [0-100-{stem}-piano.npy], not [0-95-...], and the acoustic one has 95
    frames. *)
Theorem C10_nominal_stop_in_names :
  (forall (piano_roll mel : ndarray) (stem : string) (chunk_len : Z)
          (save_path : Path) (st st' : storage),
      0 < chunk_len ->
      create_tensor piano_roll mel stem chunk_len save_path st = (Ok tt, st') ->
      exists norm_db m_secs chunks,
        norm_sg 24 128 mel = Ok norm_db /\
        py_range 0 (Z.of_nat (ncols norm_db)) chunk_len = Ok m_secs /\
        length chunks = length m_secs /\
        written st' = written st ++
          flat_map (fun mc =>
             [(save_path ++
               [(str_int (fst mc) ++ "-" ++ str_int (fst mc + chunk_len) ++ "-"
                 ++ stem ++ "-spec.npy")%string], snd (snd mc));
              (save_path ++
               [(str_int (fst mc) ++ "-" ++ str_int (fst mc + chunk_len) ++ "-"
                 ++ stem ++ "-piano.npy")%string], fst (snd mc))])
             (combine m_secs chunks) /\
        Forall (fun mc =>
                  0 <= fst mc < Z.of_nat (ncols norm_db) /\
                  Z.of_nat (ncols (snd (snd mc)))
                  = Z.min (fst mc + chunk_len) (Z.of_nat (ncols norm_db)) - fst mc)
               (combine m_secs chunks)) /\
  (forall (piano_roll mel : ndarray) (stem : string) (save_path : Path)
          (st : storage),
      elements mel <> [] -> ncols mel = 95%nat ->
      Z.of_nat (ncols piano_roll) < 2 ^ 63 ->
      (forall log p, can_write st log p = true) ->
      exists sg_chunk pr_chunk,
        create_tensor piano_roll mel stem 100 save_path st =
        (Ok tt,
         {| can_write := can_write st;
            written := written st ++
              [(save_path ++ [("0-100-" ++ stem ++ "-spec.npy")%string], sg_chunk);
               (save_path ++ [("0-100-" ++ stem ++ "-piano.npy")%string],
                pr_chunk)] |}) /\
        ncols sg_chunk = 95%nat /\
        ("0-100-" ++ stem ++ "-spec.npy")%string
          <> ("0-95-" ++ stem ++ "-spec.npy")%string /\
        ("0-100-" ++ stem ++ "-piano.npy")%string
          <> ("0-95-" ++ stem ++ "-piano.npy")%string).
Proof.
  split.
  - intros pr mel stem l save st st' Hl H.
    destruct (create_tensor_ok _ _ _ _ _ _ _ H) as (nd & ms & cs & Hn & Hr & F & Hw & _).
    exists nd, ms, cs. split; [exact Hn|]. split; [exact Hr|].
    split; [symmetry; eapply Forall2_length; exact F|]. split; [exact Hw|].
    pose proof (py_range_bounds (Z.of_nat (ncols nd)) l ms ltac:(lia) Hl Hr) as Hb.
    clear Hr Hw H. induction F as [|m c ms cs Hc F IH].
    + constructor.
    + inversion Hb as [|? ? Hm Hb']; subst.
      cbn [combine]. constructor; [|now apply IH].
      cbn [fst snd]. split; [exact Hm|].
      destruct c as [p sg].
      destruct (extract_chunk_ok _ _ _ _ _ _ _ Hc) as (_ & _ & _ & _ & _ & ->).
      cbn [snd slice_cols ncols]. unfold slice_len.
      pose proof (slice_index_nonneg (ncols nd) m ltac:(lia)).
      pose proof (slice_index_nonneg (ncols nd) (m + l) ltac:(lia)).
      lia.
  - intros pr mel stem save st Hne Hc Hpr Hw.
    destruct (create_tensor_95_100 pr mel stem save st Hne Hc Hpr Hw)
      as (nd & b & _ & _ & _ & _ & _ & _ & Hrun & Hcols).
    eexists _, _. split; [exact Hrun|]. split; [exact Hcols|].
    split; cbn; intros E; discriminate E.
Qed.

Lemma C10_nominal_stop_in_names_witness :
  (exists norm_db m_secs chunks,
     norm_sg 24 128 ex_mel = Ok norm_db /\
     py_range 0 (Z.of_nat (ncols norm_db)) 2 = Ok m_secs /\
     length chunks = length m_secs /\
     written (snd (create_tensor ex_piano_roll ex_mel "a" 2 ["out"%string]
                     ex_storage))
     = written ex_storage ++
       flat_map (fun mc =>
          [(["out"%string] ++
            [(str_int (fst mc) ++ "-" ++ str_int (fst mc + 2) ++ "-"
              ++ "a" ++ "-spec.npy")%string], snd (snd mc));
           (["out"%string] ++
            [(str_int (fst mc) ++ "-" ++ str_int (fst mc + 2) ++ "-"
              ++ "a" ++ "-piano.npy")%string], fst (snd mc))])
          (combine m_secs chunks) /\
     Forall (fun mc =>
               0 <= fst mc < Z.of_nat (ncols norm_db) /\
               Z.of_nat (ncols (snd (snd mc)))
               = Z.min (fst mc + 2) (Z.of_nat (ncols norm_db)) - fst mc)
            (combine m_secs chunks)) /\
  (exists sg_chunk pr_chunk,
     create_tensor ex_piano_roll ex_mel95 "a" 100 ["out"%string] ex_storage =
     (Ok tt,
      {| can_write := can_write ex_storage;
         written := written ex_storage ++
           [(["out"%string] ++ [("0-100-" ++ "a" ++ "-spec.npy")%string], sg_chunk);
            (["out"%string] ++ [("0-100-" ++ "a" ++ "-piano.npy")%string],
             pr_chunk)] |}) /\
     ncols sg_chunk = 95%nat /\
     ("0-100-" ++ "a" ++ "-spec.npy")%string
       <> ("0-95-" ++ "a" ++ "-spec.npy")%string /\
     ("0-100-" ++ "a" ++ "-piano.npy")%string
       <> ("0-95-" ++ "a" ++ "-piano.npy")%string).
Proof.
  split.
  - apply (proj1 C10_nominal_stop_in_names ex_piano_roll ex_mel "a"%string 2
             ["out"%string] ex_storage).
    + lia.
    + vm_compute. reflexivity.
  - apply (proj2 C10_nominal_stop_in_names ex_piano_roll ex_mel95 "a"%string
             ["out"%string] ex_storage).
    + vm_compute. discriminate.
    + reflexivity.
    + cbn. lia.
    + reflexivity.
Defined.

(** ** The symbolic window of a chunk *)

(** C5. Whenever [extract_chunk] returns a pair for a piano roll of
    [T_symbolic > 0] columns and [song_len = T_acoustic > 0], the symbolic
    slice is [start_sym:stop_sym] with
    [start_sym = round(start * (T_symbolic / T_acoustic))] and
    [stop_sym = round(stop * (T_symbolic / T_acoustic))], both computed in
    double precision and rounded by the same builtin [round]: to the nearest
    integer, a half going to the even neighbour.  For a piano roll of fewer
    than [2^63] columns and window bounds in [0 .. 2^63) the pair is always
    returned.  For [T_symbolic = 1000], [T_acoustic = 100] and the window
    [(10, 20)] the slice is [100:200]. *)
Theorem C5_symbolic_window :
  (forall (piano_roll norm_db : ndarray) (start stop song_len : Z)
          (pr_chunk sg_chunk : ndarray),
      0 < Z.of_nat (ncols piano_roll) -> 0 < song_len ->
      extract_chunk piano_roll norm_db start stop song_len
        = Ok (pr_chunk, sg_chunk) ->
      exists ratio x y start_sym stop_sym,
        PyFloat.int_true_div (Z.of_nat (ncols piano_roll)) song_len = Ok ratio /\
        PyFloat.int_mul_float start ratio = Ok x /\
        PyFloat.round x = Ok start_sym /\
        PyFloat.int_mul_float stop ratio = Ok y /\
        PyFloat.round y = Ok stop_sym /\
        pr_chunk = with_marker (slice_cols piano_roll start_sym stop_sym)) /\
  (forall (s : bool) (m : positive) (e a : Z),
      PyFloat.round (S754_finite s m e) = Ok a ->
      (0 <= e -> Z.abs a = Zpos m * 2 ^ e) /\
      (e < 0 ->
       (2 * Z.abs a - 1) * 2 ^ (- e) <= 2 * Zpos m
         <= (2 * Z.abs a + 1) * 2 ^ (- e) /\
       (2 * Zpos m = (2 * Z.abs a - 1) * 2 ^ (- e) \/
        2 * Zpos m = (2 * Z.abs a + 1) * 2 ^ (- e) -> Z.even a = true))) /\
  (forall (piano_roll norm_db : ndarray) (start stop song_len : Z),
      0 < Z.of_nat (ncols piano_roll) < 2 ^ 63 -> 0 < song_len ->
      0 <= start < 2 ^ 63 -> 0 <= stop < 2 ^ 63 ->
      exists start_sym stop_sym,
        0 <= start_sym /\ 0 <= stop_sym /\
        extract_chunk piano_roll norm_db start stop song_len =
        Ok (with_marker (slice_cols piano_roll start_sym stop_sym),
            slice_cols norm_db start stop)) /\
  (forall piano_roll norm_db : ndarray,
      ncols piano_roll = 1000%nat ->
      extract_chunk piano_roll norm_db 10 20 100 =
      Ok (with_marker (slice_cols piano_roll 100 200),
          slice_cols norm_db 10 20)).
Proof.
  split; [|split; [|split]].
  - intros pr sg start stop n p s _ _ H.
    unfold extract_chunk in H.
    destruct (PyFloat.int_true_div _ n) as [r|?] eqn:Hr; cbn [rbind] in H; [|discriminate].
    destruct (PyFloat.int_mul_float start r) as [x|?] eqn:Hx; cbn [rbind] in H; [|discriminate].
    destruct (PyFloat.round x) as [a|?] eqn:Ha; cbn [rbind] in H; [|discriminate].
    destruct (PyFloat.int_mul_float stop r) as [y|?] eqn:Hy; cbn [rbind] in H; [|discriminate].
    destruct (PyFloat.round y) as [b|?] eqn:Hb; cbn [rbind] in H; [|discriminate].
    pose proof (marker_ops (slice_cols pr a b)) as Hm.
    destruct (concatenate0 _ _) as [c1|?]; cbn [rbind] in *; [|discriminate].
    rewrite Hm in H. injection H as <- <-.
    exists r, x, y, a, b. repeat split; assumption || reflexivity.
  - intros s m e a H. cbn [PyFloat.round] in H. injection H as <-.
    assert (Habs : forall v, 0 <= v -> Z.abs (if s then - v else v) = v)
      by (intros v Hv; destruct s; lia).
    assert (Hev : forall v, Z.even (if s then - v else v) = Z.even v).
    { intros v. destruct s; [|reflexivity].
      rewrite <- Z.even_opp. f_equal. lia. }
    split.
    + intros He. destruct (Z.leb_spec 0 e); [|lia].
      rewrite Z.shiftl_mul_pow2 by assumption.
      apply Habs. apply Z.mul_nonneg_nonneg; [lia|]. apply Z.pow_nonneg; lia.
    + intros He. destruct (Z.leb_spec 0 e); [lia|].
      pose proof (round_half_even_shift_spec (Zpos m) (- e) ltac:(lia) ltac:(lia))
        as [Hb Ht].
      cbv zeta in Hb, Ht.
      assert (H0 : 0 <= PyFloat.round_half_even_shift (Z.pos m) (- e)).
      { assert (0 < 2 ^ (- e)) by (apply Z.pow_pos_nonneg; lia). nia. }
      rewrite Habs, Hev by assumption. split; assumption.
  - intros pr sg start stop n Ht Hn Hs He.
    destruct (sym_index_total (Z.of_nat (ncols pr)) n start ltac:(lia) Hn Hs)
      as (a & Ha & Ha0).
    destruct (sym_index_total (Z.of_nat (ncols pr)) n stop ltac:(lia) Hn He)
      as (b & Hb & Hb0).
    exists a, b. split; [exact Ha0|]. split; [exact Hb0|].
    rewrite extract_chunk_spec, Ha, Hb. reflexivity.
  - intros pr sg Hc. rewrite extract_chunk_spec, Hc. reflexivity.
Qed.

Lemma C5_symbolic_window_witness :
  exists ratio x y start_sym stop_sym,
    PyFloat.int_true_div (Z.of_nat (ncols ex_piano_roll)) 5 = Ok ratio /\
    PyFloat.int_mul_float 4 ratio = Ok x /\
    PyFloat.round x = Ok start_sym /\
    PyFloat.int_mul_float 6 ratio = Ok y /\
    PyFloat.round y = Ok stop_sym /\
    with_marker (slice_cols ex_piano_roll 8 12)
      = with_marker (slice_cols ex_piano_roll start_sym stop_sym).
Proof.
  apply (proj1 C5_symbolic_window ex_piano_roll ex_mel 4 6 5
           (with_marker (slice_cols ex_piano_roll 8 12)) (slice_cols ex_mel 4 6)).
  - vm_compute. reflexivity.
  - lia.
  - vm_compute. reflexivity.
Defined.

(* ================================================================== *)
(** * Further properties *)

Lemma sym_index_of_ok (t n i : Z) :
  0 <= t < 2 ^ 63 -> 0 < n -> 0 <= i < 2 ^ 63 ->
  sym_index t n i = Ok (sym_index_of t n i) /\ 0 <= sym_index_of t n i.
Proof.
  intros Ht Hn Hi. unfold sym_index_of.
  destruct (sym_index_total t n i Ht Hn Hi) as (k & -> & Hk). auto.
Qed.

Lemma window_starts_bounds (n l m : Z) :
  0 <= n -> 0 < l -> In m (window_starts n l) -> 0 <= m < n.
Proof.
  intros Hn Hl Hm. unfold window_starts in Hm.
  apply in_map_iff in Hm. destruct Hm as (k & <- & Hk). apply in_seq in Hk.
  destruct (ceil_div_bounds n l Hn Hl) as (Hc0 & Hup & Hlo). nia.
Qed.

Section Run.

Variables (piano_roll norm_db : ndarray) (stem : string)
          (chunk_len : Z) (save_path : Path).

Hypothesis Hroll : Z.of_nat (ncols piano_roll) < 2 ^ 63.
Hypothesis Hlen : 0 < Z.of_nat (ncols norm_db).

Lemma create_tensor_step_run (m_sec : Z) (st : storage) :
  0 <= m_sec < 2 ^ 63 -> 0 <= m_sec + chunk_len < 2 ^ 63 ->
  (forall log p, can_write st log p = true) ->
  create_tensor_step piano_roll norm_db (Z.of_nat (ncols norm_db)) stem
    chunk_len save_path m_sec st =
  (Ok tt, {| can_write := can_write st;
             written := written st ++
               artifacts_of_window piano_roll norm_db stem chunk_len
                 save_path m_sec |}).
Proof.
  intros Hm Hs Hw.
  rewrite create_tensor_step_unfold, extract_chunk_spec.
  destruct (sym_index_of_ok (Z.of_nat (ncols piano_roll))
              (Z.of_nat (ncols norm_db)) m_sec ltac:(lia) Hlen ltac:(lia))
    as [-> _].
  destruct (sym_index_of_ok (Z.of_nat (ncols piano_roll))
              (Z.of_nat (ncols norm_db)) (m_sec + chunk_len)
              ltac:(lia) Hlen ltac:(lia)) as [-> _].
  cbn [rbind]. cbv zeta. rewrite !Hw. reflexivity.
Qed.

Lemma io_for_run (m_secs : list Z) (st : storage) :
  Forall (fun m => 0 <= m < 2 ^ 63 /\ 0 <= m + chunk_len < 2 ^ 63) m_secs ->
  (forall log p, can_write st log p = true) ->
  io_for m_secs
    (create_tensor_step piano_roll norm_db (Z.of_nat (ncols norm_db)) stem
       chunk_len save_path) st =
  (Ok tt, {| can_write := can_write st;
             written := written st ++
               flat_map (artifacts_of_window piano_roll norm_db stem chunk_len
                           save_path) m_secs |}).
Proof.
  intros F. revert st. induction F as [|m ms [Hm Hs] _ IH]; intros st Hw.
  - cbn [io_for flat_map]. rewrite app_nil_r. destruct st; reflexivity.
  - cbn [io_for flat_map]. unfold io_bind.
    rewrite create_tensor_step_run by assumption.
    rewrite IH by exact Hw. cbn [can_write written].
    now rewrite <- app_assoc.
Qed.

End Run.

(** A run of [create_tensor] on a spectrogram with at least one element,
    with a positive chunk length and a storage that accepts the writes. *)
Lemma create_tensor_run (piano_roll mel : ndarray) (stem : string)
    (chunk_len : Z) (save_path : Path) (st : storage) :
  elements mel <> [] -> 0 < chunk_len ->
  Z.of_nat (ncols piano_roll) < 2 ^ 63 ->
  Z.of_nat (ncols mel) + chunk_len <= 2 ^ 63 ->
  (forall log p, can_write st log p = true) ->
  exists norm_db,
    norm_sg 24 128 mel = Ok norm_db /\ shape norm_db = shape mel /\
    wf_ndarray norm_db = wf_ndarray mel /\
    create_tensor piano_roll mel stem chunk_len save_path st =
    (Ok tt, {| can_write := can_write st;
               written := written st ++
                 flat_map (artifacts_of_window piano_roll norm_db stem chunk_len
                             save_path)
                          (window_starts (Z.of_nat (ncols mel)) chunk_len) |}).
Proof.
  intros Hne Hl Hpr Hn Hw.
  destruct (array_min_max_nonempty mel Hne) as (lo & hi & Hlo & Hhi).
  pose proof (norm_sg_spec 24 128 mel lo hi Hlo Hhi) as Hnd.
  set (nd := map_array (norm_value 24 128 lo hi) mel) in *.
  assert (Hnc : ncols nd = ncols mel) by reflexivity.
  exists nd. split; [exact Hnd|]. split; [apply map_array_shape|].
  split; [apply map_array_wf|].
  rewrite create_tensor_unfold, Hnd, Hnc.
  rewrite py_range_pos by lia. fold (window_starts (Z.of_nat (ncols mel)) chunk_len).
  rewrite <- Hnc.
  destruct (Nat.eq_dec (ncols nd) 0) as [E0|N0].
  - rewrite E0. unfold window_starts.
    destruct (ceil_div_bounds (Z.of_nat 0) chunk_len ltac:(lia) Hl) as (C0 & _ & C1).
    replace (Z.to_nat (ceil_div (Z.of_nat 0) chunk_len)) with O by nia.
    cbn [seq map io_for flat_map]. rewrite app_nil_r. destruct st; reflexivity.
  - apply io_for_run; try lia; [|exact Hw].
    apply Forall_forall. intros m Hm.
    apply window_starts_bounds in Hm; lia.
Qed.

(** ** The windows of a run *)

(** A slice of a row holds the frames of its range, clipped to the row. *)
Lemma slice_list_frames (r : list spec_float) (a b : Z) :
  0 <= a -> 0 <= b ->
  slice_list r a b =
  map (fun j => nth (Z.to_nat j) r f_zero)
      (frames a (Z.min b (Z.of_nat (length r)))).
Proof.
  intros Ha Hb.
  assert (Hlen : length (slice_list r a b)
                 = Z.to_nat (Z.min b (Z.of_nat (length r)) - a)).
  { rewrite slice_list_length. unfold slice_len.
    pose proof (slice_index_nonneg (length r) a Ha) as Ia.
    pose proof (slice_index_nonneg (length r) b Hb) as Ib. lia. }
  rewrite <- (map_nth_seq (slice_list r a b) f_zero), Hlen.
  unfold frames. rewrite map_map. apply map_ext_in. intros k Hk.
  apply in_seq in Hk. unfold slice_list.
  rewrite nth_firstn.
  assert (Hs : slice_len (length r) a b
               = Z.to_nat (Z.min b (Z.of_nat (length r)) - a))
    by (now rewrite <- slice_list_length).
  rewrite Hs. destruct (Nat.ltb_spec k (Z.to_nat (Z.min b (Z.of_nat (length r)) - a)));
    [|lia].
  rewrite nth_skipn. f_equal.
  pose proof (slice_index_nonneg (length r) a Ha). lia.
Qed.

Lemma slice_cols_frames (nd : ndarray) (a b : Z) :
  wf_ndarray nd = true -> 0 <= a -> 0 <= b ->
  slice_cols nd a b = frames_of nd (clipped_frames (Z.of_nat (ncols nd)) (a, b)).
Proof.
  intros Hwf Ha Hb. apply wf_ndarray_rows in Hwf.
  unfold slice_cols, frames_of, clipped_frames. cbn [fst snd]. f_equal.
  - unfold frames. rewrite length_map, length_seq. unfold slice_len.
    pose proof (slice_index_nonneg (ncols nd) a Ha) as Ia.
    pose proof (slice_index_nonneg (ncols nd) b Hb) as Ib. lia.
  - apply map_ext_in. intros r Hr.
    rewrite Forall_forall in Hwf. rewrite <- (Hwf r Hr).
    now apply slice_list_frames.
Qed.

Lemma wf_elements_nonempty (a : ndarray) :
  wf_ndarray a = true -> (0 < nrows a)%nat -> (0 < ncols a)%nat ->
  elements a <> [].
Proof.
  intros Hwf Hr Hc. apply wf_ndarray_rows in Hwf. unfold nrows, elements in *.
  destruct (rows a) as [|r rs]; [cbn in Hr; lia|].
  apply Forall_inv in Hwf. destruct r as [|x r]; [cbn in Hwf; lia|].
  discriminate.
Qed.

Lemma wf_elements_empty (a : ndarray) :
  wf_ndarray a = true -> ncols a = 0%nat -> elements a = [].
Proof.
  intros Hwf Hc. apply wf_ndarray_rows in Hwf. unfold elements.
  induction Hwf as [|r rs Hr _ IH]; [reflexivity|].
  cbn [concat]. rewrite Hc in Hr. destruct r; [exact IH|discriminate].
Qed.

Lemma norm_sg_empty (a : ndarray) :
  elements a = [] -> norm_sg 24 128 a = Raise RuntimeError.
Proof.
  intros H. destruct (norm_sg 24 128 a) as [b|e] eqn:E.
  - exfalso. unfold norm_sg, array_min in E. rewrite H in E. discriminate.
  - now rewrite (norm_sg_exn _ _ _ _ E).
Qed.

Section Visited.

Variables (piano_roll norm_db : ndarray) (stem : string)
          (chunk_len : Z) (save_path : Path).

Hypothesis Hroll : Z.of_nat (ncols piano_roll) < 2 ^ 63.
Hypothesis Hlen : 0 < Z.of_nat (ncols norm_db).

Local Abbreviation arts :=
  (artifacts_of_window piano_roll norm_db stem chunk_len save_path).

(** Within the sizes of arrays [extract_chunk] returns for every window,
    and it returns the two chunks that [artifacts_of_window] names. *)
Lemma extract_chunk_window (m_sec : Z) :
  0 <= m_sec < 2 ^ 63 -> 0 <= m_sec + chunk_len < 2 ^ 63 ->
  exists pr_chunk,
    extract_chunk piano_roll norm_db m_sec (m_sec + chunk_len)
      (Z.of_nat (ncols norm_db))
      = Ok (pr_chunk, slice_cols norm_db m_sec (m_sec + chunk_len)) /\
    arts m_sec =
      [(spec_path save_path stem chunk_len m_sec,
        slice_cols norm_db m_sec (m_sec + chunk_len));
       (piano_path save_path stem chunk_len m_sec, pr_chunk)].
Proof.
  intros Hm Hs. rewrite extract_chunk_spec.
  destruct (sym_index_of_ok (Z.of_nat (ncols piano_roll))
              (Z.of_nat (ncols norm_db)) m_sec ltac:(lia) Hlen ltac:(lia))
    as [-> _].
  destruct (sym_index_of_ok (Z.of_nat (ncols piano_roll))
              (Z.of_nat (ncols norm_db)) (m_sec + chunk_len)
              ltac:(lia) Hlen ltac:(lia)) as [-> _].
  cbn [rbind]. eexists. split; reflexivity.
Qed.

(** One pass of the loop body: both artifacts and no exception, or the
    [OSError] of a refused write after none or one of them. *)
Lemma create_tensor_step_cases (m_sec : Z) (st st' : storage) (r : result unit) :
  0 <= m_sec < 2 ^ 63 -> 0 <= m_sec + chunk_len < 2 ^ 63 ->
  create_tensor_step piano_roll norm_db (Z.of_nat (ncols norm_db)) stem
    chunk_len save_path m_sec st = (r, st') ->
  can_write st' = can_write st /\
  (r = Ok tt /\ written st' = written st ++ arts m_sec \/
   r = Raise OSError /\
   exists k, (k < 2)%nat /\ written st' = written st ++ firstn k (arts m_sec)).
Proof.
  intros Hm Hs. rewrite create_tensor_step_unfold.
  destruct (extract_chunk_window m_sec Hm Hs) as (p & -> & ->).
  cbv zeta.
  destruct (can_write st (written st) _).
  - destruct (can_write st _ _); intros H; injection H as <- <-;
      (split; [reflexivity|]).
    + left. split; reflexivity.
    + right. split; [reflexivity|]. exists 1%nat. split; [lia|reflexivity].
  - intros H; injection H as <- <-. split; [reflexivity|].
    right. split; [reflexivity|]. exists 0%nat. split; [lia|].
    cbn [firstn]. now rewrite app_nil_r.
Qed.

(** The loop, whatever its outcome: the log grows by a prefix of the
    artifacts of the windows, in their order; all of them when no exception
    is raised, and otherwise the exception is the [OSError] of a write. *)
Lemma io_for_prefix (m_secs : list Z) (st st' : storage) (r : result unit) :
  Forall (fun m => 0 <= m < 2 ^ 63 /\ 0 <= m + chunk_len < 2 ^ 63) m_secs ->
  io_for m_secs
    (create_tensor_step piano_roll norm_db (Z.of_nat (ncols norm_db)) stem
       chunk_len save_path) st = (r, st') ->
  can_write st' = can_write st /\
  (r = Ok tt /\ written st' = written st ++ flat_map arts m_secs \/
   r = Raise OSError /\
   exists k, (k < 2 * length m_secs)%nat /\
     written st' = written st ++ firstn k (flat_map arts m_secs)).
Proof.
  intros F. revert st. induction F as [|m ms [Hm Hs] _ IH]; intros st H.
  - cbn in H. injection H as <- <-. split; [reflexivity|]. left.
    cbn [flat_map]. now rewrite app_nil_r.
  - cbn [io_for] in H. unfold io_bind in H.
    destruct (create_tensor_step _ _ _ _ _ _ m st) as [r1 st1] eqn:Hb.
    destruct (create_tensor_step_cases m st st1 r1 Hm Hs Hb)
      as (C1 & [(-> & W1)|(-> & k & Hk & W1)]).
    + destruct (IH _ H) as (C2 & [(-> & W2)|(-> & k & Hk & W2)]).
      * split; [congruence|]. left. split; [reflexivity|].
        cbn [flat_map]. now rewrite W2, W1, <- app_assoc.
      * split; [congruence|]. right. split; [reflexivity|].
        exists (2 + k)%nat. split; [cbn [length]; lia|].
        rewrite W2, W1, <- app_assoc. reflexivity.
    + injection H as <- <-. split; [exact C1|]. right. split; [reflexivity|].
      exists k. split; [cbn [length]; lia|]. rewrite W1.
      destruct k as [|[|k]]; [reflexivity|reflexivity|lia].
Qed.

End Visited.

(** C1. For a spectrogram of [n] frames (with its mel bins, and within the
    sizes of arrays) and a positive chunk length [l], the windows of the loop
    of [create_tensor] are [(0, l), (l, 2l), ...]: there are [ceil(n / l)] of
    them, every start is below [n] and the next multiple of [l] is not, and
    their frame ranges, clipped to [n], put end to end are exactly
    [0, 1, ..., n-1].  These are the windows of the run.  Without a frame
    [create_tensor] raises in [norm_sg], before the loop, and no window is
    visited.  Otherwise [extract_chunk] returns for every window, its
    acoustic chunk holds exactly the clipped frames of the window, and the
    log of a run grows by the two artifacts of one window after the other, in
    this order: by those of all windows when the run returns, as it does
    when the storage accepts the writes, and by a proper prefix of them when
    the run stops, which only the [OSError] of a write causes. *)
Theorem C1_windows_cover (piano_roll mel : ndarray) (stem : string) (l : Z)
    (save_path : Path) (st : storage) :
  wf_ndarray mel = true -> (0 < nrows mel)%nat -> 0 < l ->
  Z.of_nat (ncols piano_roll) < 2 ^ 63 ->
  Z.of_nat (ncols mel) + l <= 2 ^ 63 ->
  let n := Z.of_nat (ncols mel) in
  exists ws,
    windows n l = Ok ws /\
    ws = map (fun k => (Z.of_nat k * l, (Z.of_nat k + 1) * l))
             (seq 0 (Z.to_nat (ceil_div n l))) /\
    Z.of_nat (length ws) = ceil_div n l /\
    Forall (fun w => 0 <= fst w < n /\ snd w = fst w + l) ws /\
    n <= ceil_div n l * l /\
    flat_map (clipped_frames n) ws = frames 0 n /\
    (n = 0 ->
     create_tensor piano_roll mel stem l save_path st = (Raise RuntimeError, st)) /\
    (0 < n ->
     exists norm_db,
       norm_sg 24 128 mel = Ok norm_db /\
       Forall (fun w =>
                 exists pr_chunk,
                   extract_chunk piano_roll norm_db (fst w) (snd w) n
                     = Ok (pr_chunk, frames_of norm_db (clipped_frames n w)) /\
                   artifacts_of_window piano_roll norm_db stem l save_path (fst w)
                     = [(spec_path save_path stem l (fst w),
                         frames_of norm_db (clipped_frames n w));
                        (piano_path save_path stem l (fst w), pr_chunk)]) ws /\
       (forall r st',
          create_tensor piano_roll mel stem l save_path st = (r, st') ->
          r = Ok tt /\
          written st' = written st ++
            flat_map (fun w => artifacts_of_window piano_roll norm_db stem l
                                 save_path (fst w)) ws \/
          r = Raise OSError /\
          exists k, (k < 2 * length ws)%nat /\
            written st' = written st ++
              firstn k (flat_map (fun w => artifacts_of_window piano_roll norm_db
                                             stem l save_path (fst w)) ws)) /\
       ((forall log p, can_write st log p = true) ->
        exists st',
          create_tensor piano_roll mel stem l save_path st = (Ok tt, st') /\
          written st' = written st ++
            flat_map (fun w => artifacts_of_window piano_roll norm_db stem l
                                 save_path (fst w)) ws)).
Proof.
  intros Hwf Hrows Hl Hpr Hsz n.
  assert (Hn : 0 <= n) by (unfold n; lia).
  destruct (ceil_div_bounds n l Hn Hl) as (Hc0 & Hup & Hlo).
  set (ws := map (fun k => (Z.of_nat k * l, (Z.of_nat k + 1) * l))
                 (seq 0 (Z.to_nat (ceil_div n l)))).
  assert (Hws : Forall (fun w => 0 <= fst w < n /\ snd w = fst w + l) ws).
  { apply Forall_forall. intros w Hw.
    apply in_map_iff in Hw. destruct Hw as (k & <- & Hk).
    apply in_seq in Hk. cbn [fst snd]. nia. }
  assert (Hst : map fst ws = window_starts n l).
  { unfold ws, window_starts. rewrite map_map. reflexivity. }
  exists ws. split; [|split; [reflexivity|]].
  { unfold windows. rewrite py_range_pos by assumption. cbn [rbind].
    rewrite map_map. f_equal. apply map_ext. intros k. f_equal. lia. }
  split; [unfold ws; rewrite length_map, length_seq; lia|].
  split; [exact Hws|]. split; [exact Hup|].
  split.
  { unfold ws. rewrite clipped_frames_prefix by assumption.
    rewrite Z2Nat.id by assumption. f_equal. lia. }
  split.
  { intros H0. rewrite create_tensor_unfold, norm_sg_empty; [reflexivity|].
    apply wf_elements_empty; [exact Hwf|unfold n in H0; lia]. }
  intros Hpos.
  assert (Hne : elements mel <> [])
    by (apply wf_elements_nonempty; [exact Hwf|exact Hrows|unfold n in Hpos; lia]).
  destruct (array_min_max_nonempty mel Hne) as (lo & hi & Hlo' & Hhi').
  pose proof (norm_sg_spec 24 128 mel lo hi Hlo' Hhi') as Hnd.
  set (nd := map_array (norm_value 24 128 lo hi) mel) in *.
  assert (Hnc : ncols nd = ncols mel) by reflexivity.
  assert (Hwfn : wf_ndarray nd = true) by (unfold nd; now rewrite map_array_wf).
  assert (Hlen : 0 < Z.of_nat (ncols nd)) by (rewrite Hnc; exact Hpos).
  assert (Hb : Forall (fun m => 0 <= m < 2 ^ 63 /\ 0 <= m + l < 2 ^ 63)
                      (window_starts n l)).
  { apply Forall_forall. intros m Hm.
    apply window_starts_bounds in Hm; [|assumption|assumption]. unfold n in *. lia. }
  assert (Hrun : create_tensor piano_roll mel stem l save_path st =
                 io_for (window_starts n l)
                   (create_tensor_step piano_roll nd (Z.of_nat (ncols nd)) stem l
                      save_path) st).
  { rewrite create_tensor_unfold, Hnd, Hnc.
    fold n. rewrite py_range_pos by assumption. reflexivity. }
  assert (Hplan : flat_map (fun w => artifacts_of_window piano_roll nd stem l
                                       save_path (fst w)) ws
                  = flat_map (artifacts_of_window piano_roll nd stem l save_path)
                             (window_starts n l)).
  { rewrite <- Hst, !flat_map_concat_map, map_map. reflexivity. }
  exists nd. split; [exact Hnd|]. split; [|split].
  - rewrite Forall_forall in Hws, Hb. apply Forall_forall. intros [a b] Hw.
    destruct (Hws _ Hw) as [Ha Hab]. cbn [fst snd] in *. subst b.
    assert (Hin : In a (window_starts n l)).
    { rewrite <- Hst. now apply (in_map fst) in Hw. }
    destruct (Hb a Hin) as [B1 B2].
    destruct (extract_chunk_window piano_roll nd stem l save_path Hpr Hlen a B1 B2)
      as (p & E1 & E2).
    exists p. rewrite <- Hnc in *. unfold n. rewrite <- Hnc.
    rewrite <- (slice_cols_frames nd a (a + l) Hwfn ltac:(lia) ltac:(lia)).
    split; assumption.
  - intros r st' H. rewrite Hrun in H.
    destruct (io_for_prefix piano_roll nd stem l save_path Hpr Hlen _ _ _ _ Hb H)
      as (_ & [(-> & W)|(-> & k & Hk & W)]).
    + left. split; [reflexivity|]. now rewrite Hplan.
    + right. split; [reflexivity|]. exists k. rewrite Hplan.
      split; [|exact W].
      rewrite <- Hst, length_map in Hk. exact Hk.
  - intros Hw. rewrite Hrun, Hplan.
    rewrite (io_for_run piano_roll nd stem l save_path Hpr Hlen _ st Hb Hw).
    eexists. split; reflexivity.
Qed.

Lemma C1_windows_cover_witness :
  exists ws,
    windows 5 2 = Ok ws /\
    ws = map (fun k => (Z.of_nat k * 2, (Z.of_nat k + 1) * 2))
             (seq 0 (Z.to_nat (ceil_div 5 2))) /\
    Z.of_nat (length ws) = ceil_div 5 2 /\
    Forall (fun w => 0 <= fst w < 5 /\ snd w = fst w + 2) ws /\
    5 <= ceil_div 5 2 * 2 /\
    flat_map (clipped_frames 5) ws = frames 0 5 /\
    (5 = 0 ->
     create_tensor ex_piano_roll ex_mel "a" 2 ["out"%string] ex_storage
       = (Raise RuntimeError, ex_storage)) /\
    (0 < 5 ->
     exists norm_db,
       norm_sg 24 128 ex_mel = Ok norm_db /\
       Forall (fun w =>
                 exists pr_chunk,
                   extract_chunk ex_piano_roll norm_db (fst w) (snd w) 5
                     = Ok (pr_chunk, frames_of norm_db (clipped_frames 5 w)) /\
                   artifacts_of_window ex_piano_roll norm_db "a" 2 ["out"%string]
                     (fst w)
                     = [(spec_path ["out"%string] "a" 2 (fst w),
                         frames_of norm_db (clipped_frames 5 w));
                        (piano_path ["out"%string] "a" 2 (fst w), pr_chunk)]) ws /\
       (forall r st',
          create_tensor ex_piano_roll ex_mel "a" 2 ["out"%string] ex_storage
            = (r, st') ->
          r = Ok tt /\
          written st' = written ex_storage ++
            flat_map (fun w => artifacts_of_window ex_piano_roll norm_db "a" 2
                                 ["out"%string] (fst w)) ws \/
          r = Raise OSError /\
          exists k, (k < 2 * length ws)%nat /\
            written st' = written ex_storage ++
              firstn k (flat_map (fun w => artifacts_of_window ex_piano_roll norm_db
                                             "a" 2 ["out"%string] (fst w)) ws)) /\
       ((forall log p, can_write ex_storage log p = true) ->
        exists st',
          create_tensor ex_piano_roll ex_mel "a" 2 ["out"%string] ex_storage
            = (Ok tt, st') /\
          written st' = written ex_storage ++
            flat_map (fun w => artifacts_of_window ex_piano_roll norm_db "a" 2
                                 ["out"%string] (fst w)) ws)).
Proof.
  apply (C1_windows_cover ex_piano_roll ex_mel "a" 2 ["out"%string] ex_storage).
  - reflexivity.
  - vm_compute. lia.
  - lia.
  - vm_compute. reflexivity.
  - vm_compute. discriminate.
Defined.

(** ** Adjacent slices *)

Lemma slice_list_adjacent {A : Type} (r : list A) (x y : Z) :
  0 <= x <= y ->
  slice_list r 0 x ++ slice_list r x y = slice_list r 0 y.
Proof.
  intros H. unfold slice_list, slice_len.
  pose proof (slice_index_nonneg (length r) 0 ltac:(lia)) as I0.
  pose proof (slice_index_nonneg (length r) x ltac:(lia)) as Ix.
  pose proof (slice_index_nonneg (length r) y ltac:(lia)) as Iy.
  replace (slice_index (length r) 0) with O by lia.
  rewrite !Nat.sub_0_r. cbn [skipn].
  set (a := slice_index (length r) x) in *.
  set (b := slice_index (length r) y) in *.
  assert (Hab : (a <= b)%nat) by lia.
  rewrite <- (firstn_skipn a (firstn b r)).
  rewrite firstn_firstn, Nat.min_l by exact Hab.
  f_equal. now rewrite skipn_firstn_comm.
Qed.

Lemma slice_len_adjacent (n : nat) (x y : Z) :
  0 <= x <= y ->
  (slice_len n 0 x + slice_len n x y = slice_len n 0 y)%nat.
Proof.
  intros H. unfold slice_len.
  pose proof (slice_index_nonneg n 0 ltac:(lia)).
  pose proof (slice_index_nonneg n x ltac:(lia)).
  pose proof (slice_index_nonneg n y ltac:(lia)). lia.
Qed.

Lemma combine_map_same {A B C : Type} (f : A -> B) (g : A -> C) (l : list A) :
  combine (map f l) (map g l) = map (fun x => (f x, g x)) l.
Proof. induction l as [|x l IH]; [reflexivity|]. cbn. now rewrite IH. Qed.

(** [np.concatenate([a[:, 0:x], a[:, x:y]], axis=1)] is [a[:, 0:y]]. *)
Lemma concatenate1_adjacent (a : ndarray) (x y : Z) :
  0 <= x <= y ->
  concatenate1 (slice_cols a 0 x) (slice_cols a x y) = Ok (slice_cols a 0 y).
Proof.
  intros H. unfold concatenate1, nrows. cbn [slice_cols rows ncols].
  rewrite !length_map, Nat.eqb_refl. f_equal. unfold slice_cols.
  rewrite slice_len_adjacent by exact H. f_equal.
  rewrite combine_map_same, map_map. cbn [fst snd].
  apply map_ext. intros r. now apply slice_list_adjacent.
Qed.

(** Joining the slices [a[:, f s:f (s+1)]], [a[:, f (s+1):f (s+2)]], ... of
    consecutive bounds to the slice [a[:, 0:f s]] gives the slice up to the
    last bound. *)
Lemma concatenate1_from_slices (a : ndarray) (f : nat -> Z) (c s : nat) :
  0 <= f s -> (forall k, f k <= f (S k)) ->
  concatenate1_from (slice_cols a 0 (f s))
    (map (fun k => slice_cols a (f k) (f (S k))) (seq s c))
  = Ok (slice_cols a 0 (f (s + c)%nat)).
Proof.
  intros H0 Hm. revert s H0. induction c as [|c IH]; intros s H0.
  - cbn [seq map concatenate1_from]. now rewrite Nat.add_0_r.
  - cbn [seq map concatenate1_from].
    pose proof (Hm s).
    rewrite concatenate1_adjacent by lia. cbn [rbind].
    rewrite IH by lia. do 3 f_equal. lia.
Qed.

Lemma concatenate1_all_slices (a : ndarray) (f : nat -> Z) (c : nat) :
  f O = 0 -> (forall k, f k <= f (S k)) -> (0 < c)%nat ->
  concatenate1_all (map (fun k => slice_cols a (f k) (f (S k))) (seq 0 c))
  = Ok (slice_cols a 0 (f c)).
Proof.
  intros H0 Hm Hc. destruct c as [|c]; [lia|].
  cbn [seq map concatenate1_all]. rewrite H0.
  pose proof (Hm O).
  rewrite concatenate1_from_slices by (assumption || lia). reflexivity.
Qed.

Lemma flat_map_map {A B C : Type} (g : A -> B) (f : B -> list C) (l : list A) :
  flat_map f (map g l) = flat_map (fun x => f (g x)) l.
Proof. induction l as [|x l IH]; [reflexivity|]. cbn. now rewrite IH. Qed.

Lemma wf_nonempty_cols (a : ndarray) :
  wf_ndarray a = true -> elements a <> [] -> (0 < ncols a)%nat.
Proof.
  intros Hwf Hne. apply wf_ndarray_rows in Hwf.
  destruct (ncols a) as [|n] eqn:E; [|lia]. exfalso. apply Hne.
  unfold elements. induction Hwf as [|r rs Hr _ IH]; [reflexivity|].
  cbn [concat]. destruct r; [exact IH|discriminate].
Qed.

(** X1. On a well-formed spectrogram with at least one element, with a
    positive chunk length and a storage that accepts the writes,
    [create_tensor] completes; it writes, window after window, an acoustic
    chunk and a symbolic chunk; no acoustic chunk is empty, and joining the
    acoustic chunks along the time axis, in the order of the writes, gives
    back the normalised spectrogram: no frame is lost or repeated. *)
Theorem X1_acoustic_chunks_reassemble (piano_roll mel : ndarray) (stem : string)
    (chunk_len : Z) (save_path : Path) (st : storage) :
  wf_ndarray mel = true -> elements mel <> [] -> 0 < chunk_len ->
  Z.of_nat (ncols piano_roll) < 2 ^ 63 ->
  Z.of_nat (ncols mel) + chunk_len <= 2 ^ 63 ->
  (forall log p, can_write st log p = true) ->
  exists norm_db st' pieces,
    norm_sg 24 128 mel = Ok norm_db /\
    create_tensor piano_roll mel stem chunk_len save_path st = (Ok tt, st') /\
    written st' = written st ++
      flat_map (piece_artifacts save_path stem chunk_len) pieces /\
    Z.of_nat (length pieces) = ceil_div (Z.of_nat (ncols mel)) chunk_len /\
    Forall (fun sg => (0 < ncols sg)%nat /\ nrows sg = nrows norm_db)
           (spec_chunks pieces) /\
    concatenate1_all (spec_chunks pieces) = Ok norm_db.
Proof.
  intros Hwf Hne Hl Hpr Hn Hw.
  destruct (create_tensor_run piano_roll mel stem chunk_len save_path st
              Hne Hl Hpr Hn Hw) as (nd & Hnd & Hsh & Hwfn & Hrun).
  injection Hsh as Hnr Hnc. rewrite Hwf in Hwfn.
  pose proof (wf_nonempty_cols mel Hwf Hne) as Hpos.
  set (T := Z.of_nat (ncols mel)) in *.
  destruct (ceil_div_bounds T chunk_len ltac:(lia) Hl) as (C0 & Cup & Clo).
  set (t := Z.of_nat (ncols piano_roll)) in *.
  exists nd. eexists.
  exists (map (fun k =>
            (Z.of_nat k * chunk_len,
             slice_cols nd (Z.of_nat k * chunk_len) (Z.of_nat (S k) * chunk_len),
             with_marker
               (slice_cols piano_roll
                  (sym_index_of t T (Z.of_nat k * chunk_len))
                  (sym_index_of t T (Z.of_nat k * chunk_len + chunk_len)))))
          (seq 0 (Z.to_nat (ceil_div T chunk_len)))).
  split; [exact Hnd|]. split; [exact Hrun|]. cbn [written].
  split; [|split; [|split]].
  - f_equal. unfold window_starts. rewrite !flat_map_map.
    apply flat_map_ext. intros k. unfold artifacts_of_window, piece_artifacts.
    cbn [fst snd]. fold t. rewrite Hnc. fold T.
    replace (Z.of_nat (S k) * chunk_len) with (Z.of_nat k * chunk_len + chunk_len)
      by lia.
    reflexivity.
  - rewrite length_map, length_seq. lia.
  - unfold spec_chunks. rewrite map_map. cbn [fst snd].
    apply Forall_map, Forall_forall. intros k Hk. apply in_seq in Hk.
    split.
    + cbn [slice_cols ncols]. unfold slice_len.
      pose proof (slice_index_nonneg (ncols nd) (Z.of_nat k * chunk_len)
                    ltac:(nia)).
      pose proof (slice_index_nonneg (ncols nd) (Z.of_nat (S k) * chunk_len)
                    ltac:(nia)).
      rewrite Hnc in *. fold T in H, H0. nia.
    + unfold nrows. cbn [slice_cols rows]. now rewrite length_map.
  - unfold spec_chunks. rewrite map_map. cbn [fst snd].
    rewrite (concatenate1_all_slices nd (fun k => Z.of_nat k * chunk_len))
      by (try reflexivity; intros; lia).
    f_equal. apply slice_cols_all; [exact Hwfn|].
    rewrite Hnc. fold T. lia.
Qed.

(** ** Rounding a fraction of units *)

Lemma rne_error (n d : Z) :
  0 < d -> - d <= 2 * (rne n d * d - n) <= d.
Proof.
  intros Hd. unfold rne.
  pose proof (Z.div_mod n d ltac:(lia)). pose proof (Z.mod_pos_bound n d Hd).
  destruct (Z.compare_spec (2 * (n mod d)) d); [destruct (Z.even _)| |]; nia.
Qed.

Lemma rne_cross_mono (n1 d1 n2 d2 : Z) :
  0 <= n1 -> 0 < d1 -> 0 < d2 -> n1 * d2 <= n2 * d1 ->
  rne n1 d1 <= rne n2 d2.
Proof.
  intros H1 Hd1 Hd2 H.
  rewrite <- (rne_scale n1 d1 d2), <- (rne_scale n2 d2 d1) by lia.
  rewrite (Z.mul_comm d2 d1). apply rne_mono; nia.
Qed.

Lemma div_cross_mono (n1 d1 n2 d2 : Z) :
  0 <= n1 -> 0 < d1 -> 0 < d2 -> n1 * d2 <= n2 * d1 -> n1 / d1 <= n2 / d2.
Proof.
  intros H1 Hd1 Hd2 H.
  apply Z.div_le_lower_bound; [lia|].
  pose proof (Z.mul_div_le n1 d1 Hd1).
  pose proof (Z.div_pos n1 d1 H1 Hd1). nia.
Qed.

Section Fraction.

Variable prec : Z.
Hypothesis Hprec : 1 < prec.

Local Abbreviation frnd := (sf_frnd prec).
Local Abbreviation rnd := (sf_rnd prec).

Lemma frnd_one (v : Z) : frnd v 1 = rnd v.
Proof. unfold sf_frnd, sf_rnd. now rewrite Z.div_1_r, Z.mul_1_l. Qed.

Lemma frnd_scale (n d t : Z) :
  0 < d -> 0 < t -> frnd (n * t) (d * t) = frnd n d.
Proof.
  intros Hd Ht. unfold sf_frnd. rewrite Z.div_mul_cancel_r by lia.
  set (k := Z.max _ 0).
  assert (0 < 2 ^ k) by (apply Z.pow_pos_nonneg; lia).
  replace (d * t * 2 ^ k) with (d * 2 ^ k * t) by lia.
  rewrite rne_scale by nia. reflexivity.
Qed.

(** A fraction that is an integer rounds as that integer. *)
Lemma frnd_exact (v d : Z) : 0 < d -> frnd (v * d) d = rnd v.
Proof.
  intros Hd. rewrite <- frnd_one.
  rewrite <- (frnd_scale v 1 d) by lia. now rewrite Z.mul_1_l.
Qed.

Lemma frnd_bounds (n d : Z) :
  0 <= n -> 0 < d ->
  0 <= frnd n d <= 2 ^ Zdigits2 (n / d) /\
  (0 < n / d -> 2 ^ (Zdigits2 (n / d) - 1) <= frnd n d).
Proof.
  intros Hn Hd. unfold sf_frnd.
  pose proof (Z.div_pos n d Hn Hd) as Hq.
  pose proof (Z.div_mod n d ltac:(lia)) as Hdm.
  pose proof (Z.mod_pos_bound n d Hd) as Hmb.
  set (g := Zdigits2 (n / d)).
  assert (Hg : 0 <= g) by (apply Zdigits2_nonneg; lia).
  set (k := Z.max (g - prec) 0).
  assert (Hk : 0 < 2 ^ k) by (apply Z.pow_pos_nonneg; lia).
  assert (Hgk : 2 ^ g = 2 ^ (g - k) * 2 ^ k).
  { rewrite <- Z.pow_add_r by lia. f_equal. lia. }
  assert (Hup : n / d < 2 ^ g).
  { destruct (Z.eq_dec (n / d) 0) as [E|NE].
    - rewrite E. apply Z.pow_pos_nonneg; lia.
    - apply Zdigits2_bounds. lia. }
  pose proof (rne_nonneg n (d * 2 ^ k) Hn ltac:(nia)) as R0.
  split; [split; [nia|]|].
  - rewrite Hgk. apply Z.mul_le_mono_nonneg_r; [lia|].
    apply rne_le_int; [nia|].
    replace (2 ^ (g - k) * (d * 2 ^ k)) with (2 ^ g * d) by (rewrite Hgk; lia).
    nia.
  - intros Hpos.
    pose proof (Zdigits2_bounds (n / d) Hpos) as [Hl _]. fold g in Hl.
    pose proof (Zdigits2_pos (n / d) Hpos) as Hgp. fold g in Hgp.
    assert (Hgk' : 2 ^ (g - 1) = 2 ^ (g - 1 - k) * 2 ^ k).
    { rewrite <- Z.pow_add_r by lia. f_equal. lia. }
    rewrite Hgk'. apply Z.mul_le_mono_nonneg_r; [lia|].
    apply rne_ge_int; [nia|].
    replace (2 ^ (g - 1 - k) * (d * 2 ^ k)) with (2 ^ (g - 1) * d)
      by (rewrite Hgk'; lia).
    nia.
Qed.

(** Rounding is monotone. *)
Lemma frnd_mono (n1 d1 n2 d2 : Z) :
  0 <= n1 -> 0 < d1 -> 0 < d2 -> n1 * d2 <= n2 * d1 ->
  frnd n1 d1 <= frnd n2 d2.
Proof.
  intros H1 Hd1 Hd2 H.
  assert (H2 : 0 <= n2) by nia.
  pose proof (div_cross_mono n1 d1 n2 d2 H1 Hd1 Hd2 H) as Hq.
  pose proof (Z.div_pos n1 d1 H1 Hd1) as Hq1.
  pose proof (Zdigits2_mono (n1 / d1) (n2 / d2) ltac:(lia)) as Hg.
  destruct (Z.eq_dec (Zdigits2 (n1 / d1)) (Zdigits2 (n2 / d2))) as [E|NE].
  - unfold sf_frnd. rewrite E. set (k := Z.max _ 0).
    assert (0 < 2 ^ k) by (apply Z.pow_pos_nonneg; lia).
    apply Z.mul_le_mono_nonneg_r; [lia|].
    apply rne_cross_mono; nia.
  - destruct (frnd_bounds n1 d1 H1 Hd1) as [[_ U] _].
    destruct (frnd_bounds n2 d2 H2 Hd2) as [_ L].
    assert (0 < n2 / d2).
    { destruct (Z.eq_dec (n2 / d2) 0) as [E0|]; [|lia].
      exfalso. rewrite E0 in *. cbn [Zdigits2] in *.
      pose proof (Zdigits2_nonneg (n1 / d1) Hq1). lia. }
    specialize (L ltac:(lia)).
    assert (2 ^ Zdigits2 (n1 / d1) <= 2 ^ (Zdigits2 (n2 / d2) - 1))
      by (apply Z.pow_le_mono_r; lia).
    lia.
Qed.

(** The error of rounding is at most half a unit in the last place. *)
Lemma frnd_error (n d : Z) :
  0 <= n -> 0 < d ->
  let k := Z.max (Zdigits2 (n / d) - prec) 0 in
  - (d * 2 ^ k) <= 2 * (frnd n d * d - n) <= d * 2 ^ k.
Proof.
  intros Hn Hd k. unfold sf_frnd. fold k.
  assert (0 < 2 ^ k) by (apply Z.pow_pos_nonneg; lia).
  pose proof (rne_error n (d * 2 ^ k) ltac:(nia)). nia.
Qed.

Variable emax : Z.
Hypothesis Hemax : prec < emax.

Local Abbreviation emin := (emin prec emax).
Local Abbreviation fexp := (fexp prec emax).
Local Abbreviation rounded := (sf_rounded prec emax).

(** [sf_rounded], in units of [2^emin]. *)
Lemma rounded_frnd (n d e b : Z) :
  0 <= n -> 0 < d -> e <= fexp (Zdigits2 (n / d) + e) ->
  b <= e -> b <= emin ->
  rounded n d e = frnd (n * 2 ^ (e - b)) (d * 2 ^ (emin - b)).
Proof.
  intros Hn Hd Hpre Hbe Hbm. unfold sf_rounded, sf_frnd.
  set (c := fexp (Zdigits2 (n / d) + e)) in *.
  assert (Hcdef : c = Z.max (Zdigits2 (n / d) + e - prec) emin) by reflexivity.
  clearbody c.
  pose proof (Z.div_pos n d Hn Hd) as Hq.
  assert (Pe : 0 < 2 ^ (e - b)) by (apply Z.pow_pos_nonneg; lia).
  assert (Pm : 0 < 2 ^ (emin - b)) by (apply Z.pow_pos_nonneg; lia).
  assert (Hdig : Z.max (Zdigits2 (n * 2 ^ (e - b) / (d * 2 ^ (emin - b))) - prec) 0
                 = c - emin).
  { destruct (Z.le_gt_cases emin e) as [Hge|Hlt].
    - (* the fraction is shifted left *)
      assert (E : 2 ^ (e - b) = 2 ^ (e - emin) * 2 ^ (emin - b)).
      { rewrite <- Z.pow_add_r by lia. f_equal. lia. }
      rewrite E, Z.mul_assoc, Z.div_mul_cancel_r by lia.
      destruct (Z.eq_dec (n / d) 0) as [E0|NE0].
      + rewrite E0 in Hcdef. cbn [Zdigits2] in Hcdef.
        assert (e = emin) by lia. subst e.
        rewrite Z.sub_diag, Z.mul_1_r, E0. cbn [Zdigits2]. lia.
      + assert (Pj : 0 < 2 ^ (e - emin)) by (apply Z.pow_pos_nonneg; lia).
        pose proof (Zdigits2_bounds (n / d) ltac:(lia)) as [L U].
        pose proof (Zdigits2_pos (n / d) ltac:(lia)) as Gp.
        pose proof (Z.div_mod n d ltac:(lia)) as Hdm.
        pose proof (Z.mod_pos_bound n d Hd) as Hmb.
        assert (Lo : d * 2 ^ (Zdigits2 (n / d) - 1) <= n) by nia.
        assert (Up : n < d * 2 ^ Zdigits2 (n / d)) by nia.
        assert (Zdigits2 (n * 2 ^ (e - emin) / d) = Zdigits2 (n / d) + (e - emin)).
        { apply Zdigits2_unique.
          - split.
            + apply Z.div_le_lower_bound; [lia|].
              replace (Zdigits2 (n / d) + (e - emin) - 1)
                with ((Zdigits2 (n / d) - 1) + (e - emin)) by lia.
              rewrite Z.pow_add_r by lia. nia.
            + apply Z.div_lt_upper_bound; [lia|].
              rewrite Z.pow_add_r by lia. nia.
          - apply Z.div_str_pos. nia. }
        lia.
    - (* the fraction is shifted right *)
      assert (E : 2 ^ (emin - b) = 2 ^ (emin - e) * 2 ^ (e - b)).
      { rewrite <- Z.pow_add_r by lia. f_equal. lia. }
      rewrite E, Z.mul_assoc, Z.div_mul_cancel_r by lia.
      assert (Pj : 0 < 2 ^ (emin - e)) by (apply Z.pow_pos_nonneg; lia).
      rewrite <- Z.div_div by lia.
      destruct (Z.eq_dec (n / d) 0) as [E0|NE0].
      + rewrite E0 in *. rewrite Z.div_0_l by lia. cbn [Zdigits2] in *. lia.
      + rewrite Zdigits2_div_pow2 by lia. lia. }
  rewrite Hdig. f_equal.
  destruct (Z.le_gt_cases e c) as [Hec|Hec]; [|lia].
  assert (Pc : 0 < 2 ^ (c - e)) by (apply Z.pow_pos_nonneg; lia).
  replace (d * 2 ^ (emin - b) * 2 ^ (c - emin)) with (d * 2 ^ (c - e) * 2 ^ (e - b)).
  - symmetry. apply rne_scale; nia.
  - rewrite <- !Z.mul_assoc, <- !Z.pow_add_r by lia. do 2 f_equal. lia.
Qed.

End Fraction.

(** ** The operations on the values, in units of [2^emin] *)

Section Ops.

Variables prec emax : Z.
Hypothesis Hprec : 1 < prec.
Hypothesis Hemax : prec < emax.

Local Abbreviation emin := (emin prec emax).
Local Abbreviation fexp := (fexp prec emax).
Local Abbreviation ord := (sf_ord prec emax).
Local Abbreviation rnd := (sf_rnd prec).
Local Abbreviation frnd := (sf_frnd prec).
Local Abbreviation rounded := (sf_rounded prec emax).
Local Abbreviation is_rounding := (sf_is_rounding prec emax).
Local Abbreviation valid := (valid_binary prec emax).
Local Abbreviation upto := (nonneg_upto prec emax).

Lemma frnd_0 (d : Z) : 0 < d -> frnd 0 d = 0.
Proof.
  intros Hd. unfold sf_frnd. rewrite Z.div_0_l by lia. cbn [Zdigits2].
  rewrite Z.max_r by lia. change (2 ^ 0) with 1.
  rewrite !Z.mul_1_r. unfold rne. rewrite Z.mod_0_l, Z.div_0_l by lia.
  cbn [Z.mul]. destruct (Z.compare_spec 0 d); lia.
Qed.

Lemma upto_ord (t : Z) (f : spec_float) :
  upto t f ->
  valid f = true /\ is_finite f = true /\ 0 <= ord f /\
  (ord f = 0 -> f = S754_zero false).
Proof.
  intros (F & S & O). apply (fv_iff prec emax) in F. destruct F as [V Fi].
  split; [exact V|]. split; [exact Fi|].
  destruct S as [->|(m & e & ->)].
  - cbn [sf_ord]. split; [lia|reflexivity].
  - destruct (valid_finite prec emax _ _ _ V) as (B & _).
    pose proof (ord_sign prec emax Hprec false m e ltac:(lia)) as P. cbv beta iota in P.
    split; [lia|]. intros E. rewrite E in P. lia.
Qed.

Lemma rounding_ord (w : Z) (r : spec_float) :
  is_rounding false w r -> 0 <= w -> is_finite r = true -> ord r = w.
Proof.
  intros R Hw F.
  pose proof (is_rounding_overflow prec emax false w r R Hw F) as Hlt.
  destruct (is_rounding_finite prec emax false w r R ltac:(lia)) as (_ & _ & O & _).
  exact O.
Qed.

(** The exponent of an exact product is canonical or below. *)
Lemma mul_pre (sx sy : bool) (mx my : positive) (ex ey : Z) :
  valid (S754_finite sx mx ex) = true -> valid (S754_finite sy my ey) = true ->
  ex + ey <= fexp (Zdigits2 (Zpos mx * Zpos my / 1) + (ex + ey)).
Proof.
  intros Vx Vy.
  destruct (valid_finite prec emax _ _ _ Vx) as (Bx & Dx & Nx & _).
  destruct (valid_finite prec emax _ _ _ Vy) as (By & Dy & Ny & _).
  rewrite Z.div_1_r.
  pose proof (Zdigits2_bounds (Zpos mx) ltac:(lia)) as [Lx _].
  pose proof (Zdigits2_bounds (Zpos my) ltac:(lia)) as [Ly _].
  pose proof (Zdigits2_pos (Zpos mx) ltac:(lia)).
  pose proof (Zdigits2_pos (Zpos my) ltac:(lia)).
  assert (Zdigits2 (Zpos mx) + Zdigits2 (Zpos my) - 2
          < Zdigits2 (Zpos mx * Zpos my)).
  { apply Zdigits2_gt_iff; [lia|lia|].
    replace (Zdigits2 (Z.pos mx) + Zdigits2 (Z.pos my) - 2)
      with ((Zdigits2 (Z.pos mx) - 1) + (Zdigits2 (Z.pos my) - 1)) by lia.
    rewrite Z.pow_add_r by lia.
    apply Z.mul_le_mono_nonneg; try lia; apply Z.pow_nonneg; lia. }
  unfold SpecFloat.fexp, SpecFloat.emin in *. lia.
Qed.

(** The product of two floats that are zero or positive is the rounding
    of the exact product. *)
Lemma SFmul_ord (x y : spec_float) (a b : Z) :
  upto a x -> upto b y -> 0 <= a -> 0 <= b -> a + b < emax ->
  upto (a + b) (SFmul prec emax x y) /\
  ord (SFmul prec emax x y) = frnd (ord x * ord y) (2 ^ (- emin)).
Proof.
  intros Ux Uy Ha Hb Hab.
  pose proof (mul_upto prec emax Hprec Hemax x y a b Ux Uy Ha Hb Hab) as U.
  split; [exact U|].
  destruct (upto_ord _ _ U) as (_ & Fi & _).
  pose proof (emin_neg prec emax Hprec Hemax) as [En _].
  assert (PU : 0 < 2 ^ (- emin)) by (apply Z.pow_pos_nonneg; lia).
  destruct Ux as (Fx & Sx & _), Uy as (Fy & Sy & _).
  destruct Sx as [->|(mx & ex & ->)]; destruct Sy as [->|(my & ey & ->)].
  - cbn [SFmul xorb sf_ord]. now rewrite Z.mul_0_l, frnd_0.
  - cbn [SFmul xorb sf_ord]. now rewrite Z.mul_0_l, frnd_0.
  - cbn [SFmul xorb sf_ord]. now rewrite Z.mul_0_r, frnd_0.
  - apply (fv_iff prec emax) in Fx, Fy. destruct Fx as [Vx _], Fy as [Vy _].
    destruct (valid_finite prec emax _ _ _ Vx) as (Bx & _).
    destruct (valid_finite prec emax _ _ _ Vy) as (By & _).
    pose proof (SFmul_rounding prec emax Hprec Hemax false false mx my ex ey Vx Vy)
      as R. cbn [xorb] in R.
    pose proof (mul_pre false false mx my ex ey Vx Vy) as Hpre.
    pose proof (rounded_nonneg prec emax Hprec (Zpos mx * Zpos my) 1 (ex + ey)
                  ltac:(lia) ltac:(lia) Hpre) as R0.
    rewrite (rounding_ord _ _ R R0 Fi).
    rewrite (rounded_frnd prec Hprec emax _ _ _ (2 * emin)) by lia.
    cbn [sf_ord cond_Zopp]. f_equal.
    + replace (ex + ey - 2 * emin) with ((ex - emin) + (ey - emin)) by lia.
      rewrite Z.pow_add_r by lia. lia.
    + rewrite Z.mul_1_l. f_equal. lia.
Qed.

(** The quotient of two positive integers is the rounding of the exact
    quotient. *)
Lemma div_ints_ord (t n a : Z) :
  0 < t < 2 ^ a -> 0 < n -> 0 <= a < emax ->
  let r := (let '(q, e, l) := SFdiv_core_binary prec emax t 0 n 0 in
            binary_round_aux prec emax false q e l) in
  upto a r /\ ord r = frnd (t * 2 ^ (- emin)) n.
Proof.
  intros Ht Hn Ha r.
  pose proof (div_ints_upto prec emax Hprec Hemax t n a Ht Hn Ha) as U.
  fold r in U. split; [exact U|].
  destruct (upto_ord _ _ U) as (_ & Fi & _).
  pose proof (emin_neg prec emax Hprec Hemax) as [En _].
  destruct (SFdiv_core_binary_spec prec emax Hprec t 0 n 0 ltac:(lia) Hn)
    as (e' & s & Hc & Hs & Es & Hpre).
  subst r. rewrite Hc in *.
  assert (Ps : 0 < 2 ^ s) by (apply Z.pow_pos_nonneg; lia).
  pose proof (binary_round_aux_rounding prec emax Hprec Hemax false (t * 2 ^ s) n e'
                ltac:(nia) Hn Hpre) as R.
  pose proof (rounded_nonneg prec emax Hprec (t * 2 ^ s) n e'
                ltac:(nia) Hn Hpre) as R0.
  rewrite (rounding_ord _ _ R R0 Fi).
  set (b := Z.min e' emin).
  rewrite (rounded_frnd prec Hprec emax _ _ _ b) by lia.
  assert (Pb : 0 < 2 ^ (emin - b)) by (apply Z.pow_pos_nonneg; lia).
  rewrite <- (frnd_scale prec Hprec (t * 2 ^ (- emin)) n (2 ^ (emin - b))) by lia.
  f_equal. rewrite <- !Z.mul_assoc, <- !Z.pow_add_r by lia. do 2 f_equal. lia.
Qed.

(** The conversion of an integer is the rounding of the integer. *)
Lemma normalize_ord (n a : Z) :
  0 <= n < 2 ^ a -> 0 <= a < emax ->
  upto a (binary_normalize prec emax n 0 false) /\
  ord (binary_normalize prec emax n 0 false) = rnd (n * 2 ^ (- emin)).
Proof.
  intros Hn Ha.
  pose proof (normalize_upto prec emax Hprec Hemax n a Hn Ha) as U.
  split; [exact U|].
  destruct (upto_ord _ _ U) as (_ & Fi & _).
  pose proof (emin_neg prec emax Hprec Hemax) as [En _].
  destruct n as [|p|p]; [|clear Hn|lia].
  - cbn [binary_normalize sf_ord Z.mul]. symmetry. apply rnd_0. exact Hprec.
  - cbn [binary_normalize] in *.
    pose proof (binary_round_rounding prec emax Hprec Hemax false p 0 ltac:(lia)) as R.
    assert (P : 0 < 2 ^ (0 - emin)) by (apply Z.pow_pos_nonneg; lia).
    pose proof (rnd_nonneg prec Hprec (Z.pos p * 2 ^ (0 - emin)) ltac:(nia)) as R0.
    rewrite (rounding_ord _ _ R R0 Fi). reflexivity.
Qed.

End Ops.

(** ** The symbolic index as a rounding of integers *)

Lemma unit64_pos : 0 < unit64.
Proof. unfold unit64. apply Z.pow_pos_nonneg; lia. Qed.

Lemma round_half_even_shift_rne (m k : Z) :
  0 <= k -> PyFloat.round_half_even_shift m k = rne m (2 ^ k).
Proof.
  intros Hk. unfold PyFloat.round_half_even_shift, rne.
  rewrite Z.shiftr_div_pow2, !Z.shiftl_mul_pow2 by assumption.
  assert (Hp : 0 < 2 ^ k) by (apply Z.pow_pos_nonneg; lia).
  pose proof (Z.div_mod m (2 ^ k) ltac:(lia)) as Hd.
  replace (m - m / 2 ^ k * 2 ^ k) with (m mod 2 ^ k) by lia.
  rewrite Z.mul_1_l. reflexivity.
Qed.

Lemma rne_0 (d : Z) : 0 < d -> rne 0 d = 0.
Proof. intros Hd. exact (rne_exact 0 d Hd). Qed.

Lemma round_ord (t : Z) (x : spec_float) :
  nonneg_upto 53 1024 t x ->
  PyFloat.round x = Ok (rne (sf_ord 53 1024 x) unit64).
Proof.
  intros (F & S & _). pose proof unit64_pos as PU.
  destruct S as [->|(m & e & ->)].
  - cbn [PyFloat.round sf_ord]. now rewrite rne_0.
  - apply (fv_iff 53 1024) in F. destruct F as [V _].
    destruct (valid_finite 53 1024 _ _ _ V) as (B & _).
    change (emin 53 1024) with (-1074) in B.
    cbn [PyFloat.round sf_ord cond_Zopp]. f_equal.
    change (emin 53 1024) with (-1074). unfold unit64.
    destruct (Z.leb_spec 0 e) as [He|He].
    + rewrite Z.shiftl_mul_pow2 by assumption.
      replace (e - -1074) with (e + 1074) by lia.
      rewrite Z.pow_add_r, Z.mul_assoc by lia.
      symmetry. apply rne_exact. apply Z.pow_pos_nonneg; lia.
    + rewrite round_half_even_shift_rne by lia.
      assert (E : 2 ^ 1074 = 2 ^ (- e) * 2 ^ (e - -1074)).
      { rewrite <- Z.pow_add_r by lia. f_equal. lia. }
      rewrite E. symmetry.
      apply rne_scale; apply Z.pow_pos_nonneg; lia.
Qed.

Lemma of_int_ord (i a : Z) :
  0 <= i < 2 ^ a -> 0 <= a < 1024 ->
  exists f, PyFloat.of_int i = Ok f /\ nonneg_upto 53 1024 a f /\
            sf_ord 53 1024 f = sf_rnd 53 (i * unit64).
Proof.
  intros Hi Ha. unfold PyFloat.of_int.
  destruct (normalize_ord 53 1024 ltac:(lia) ltac:(lia) i a Hi Ha) as (U & O).
  eexists. split; [|split; [exact U|exact O]].
  eapply upto_finite_or_overflow. exact U.
Qed.

Lemma int_true_div_ord (t n a : Z) :
  0 <= t < 2 ^ a -> 0 < n -> 0 <= a < 1024 ->
  exists q, PyFloat.int_true_div t n = Ok q /\ nonneg_upto 53 1024 a q /\
            sf_ord 53 1024 q = sf_frnd 53 (t * unit64) n.
Proof.
  intros Ht Hn Ha. unfold PyFloat.int_true_div.
  destruct (Z.eqb_spec n 0); [lia|].
  destruct (Z.ltb_spec n 0); [lia|].
  destruct (Z.eqb_spec t 0) as [->|Hnz].
  - exists (S754_zero false). split; [reflexivity|].
    split; [apply zero_upto|].
    cbn [sf_ord Z.mul]. symmetry. apply frnd_0; lia.
  - destruct (Z.ltb_spec t 0); [lia|]. cbn [xorb].
    rewrite (Z.abs_eq t), (Z.abs_eq n) by lia.
    destruct (div_ints_ord 53 1024 ltac:(lia) ltac:(lia) t n a
                ltac:(lia) Hn Ha) as (U & O).
    change PyFloat.prec with 53. change PyFloat.emax with 1024.
    destruct (SFdiv_core_binary 53 1024 t 0 n 0) as [[q e] l].
    eexists. split; [|split; [exact U|exact O]].
    eapply upto_finite_or_overflow. exact U.
Qed.

(** For a piano roll of fewer than [2^63] columns, a positive [song_len] and
    a frame index in [0 .. 2^63), the symbolic index is [sym_index_value]. *)
Lemma sym_index_formula (t n i : Z) :
  0 <= t < 2 ^ 63 -> 0 < n -> 0 <= i < 2 ^ 63 ->
  sym_index t n i = Ok (sym_index_value t n i).
Proof.
  intros Ht Hn Hi. unfold sym_index, PyFloat.int_mul_float, sym_index_value.
  destruct (int_true_div_ord t n 63 Ht Hn ltac:(lia)) as (q & -> & Uq & Oq).
  destruct (of_int_ord i 63 Hi ltac:(lia)) as (f & -> & Uf & Of).
  cbn [rbind].
  destruct (SFmul_ord 53 1024 ltac:(lia) ltac:(lia) f q 63 63 Uf Uq
              ltac:(lia) ltac:(lia) ltac:(lia)) as (Up & Op).
  change PyFloat.prec with 53. change PyFloat.emax with 1024.
  rewrite (round_ord _ _ Up).
  change (- emin 53 1024) with 1074 in Op. fold unit64 in Op.
  rewrite Op, Of, Oq. reflexivity.
Qed.

Lemma rnd_shift_exact (prec v j : Z) :
  1 < prec -> 0 <= v < 2 ^ prec -> 0 <= j ->
  sf_rnd prec (v * 2 ^ j) = v * 2 ^ j.
Proof.
  intros Hp Hv Hj. destruct (Z.eq_dec v 0) as [->|NZ].
  - cbn [Z.mul]. now apply rnd_0.
  - unfold sf_rnd. rewrite Zdigits2_mul_pow2 by lia.
    assert (Zdigits2 v <= prec) by (apply Zdigits2_le_iff; lia).
    pose proof (Zdigits2_pos v ltac:(lia)).
    set (k := Z.max (Zdigits2 v + j - prec) 0).
    assert (E : 2 ^ j = 2 ^ (j - k) * 2 ^ k).
    { rewrite <- Z.pow_add_r by lia. f_equal. lia. }
    rewrite E at 1. rewrite Z.mul_assoc.
    rewrite rne_exact by (apply Z.pow_pos_nonneg; lia).
    rewrite E. lia.
Qed.

Lemma rnd_unit_exact (v : Z) :
  0 <= v < 2 ^ 53 -> sf_rnd 53 (v * unit64) = v * unit64.
Proof. intros Hv. apply rnd_shift_exact; lia. Qed.

Lemma rne_near (v d g : Z) :
  0 < d -> - d < 2 * (v - g * d) < d -> rne v d = g.
Proof.
  intros Hd H. pose proof (rne_error v d Hd). nia.
Qed.

Lemma sym_index_value_mono (t n i j : Z) :
  0 <= t -> 0 < n -> 0 <= i <= j ->
  0 <= sym_index_value t n i <= sym_index_value t n j.
Proof.
  intros Ht Hn Hij. unfold sym_index_value. pose proof unit64_pos as PU.
  assert (Hq : 0 <= sf_frnd 53 (t * unit64) n)
    by (apply (frnd_bounds 53); lia || nia).
  assert (Hi : 0 <= sf_rnd 53 (i * unit64)) by (apply rnd_nonneg; lia || nia).
  assert (Hm : sf_rnd 53 (i * unit64) <= sf_rnd 53 (j * unit64))
    by (apply rnd_mono; lia || nia).
  set (q := sf_frnd 53 (t * unit64) n) in *.
  set (a := sf_rnd 53 (i * unit64)) in *.
  set (b := sf_rnd 53 (j * unit64)) in *.
  assert (Ha : 0 <= sf_frnd 53 (a * q) unit64)
    by (apply (frnd_bounds 53); lia || nia).
  split.
  - apply rne_nonneg; lia.
  - apply rne_mono; [|lia]. split; [lia|].
    clearbody q a b.
    apply frnd_mono;
      [lia | apply Z.mul_nonneg_nonneg; lia | lia | lia |].
    apply Z.mul_le_mono_nonneg_r; [lia|].
    apply Z.mul_le_mono_nonneg_r; lia.
Qed.

(** When the piano roll has [k] times the frames of the spectrogram the
    symbolic index of frame [i] is [k * i]. *)
Lemma sym_index_value_multiple (k n i : Z) :
  0 <= k < 2 ^ 53 -> 0 < n -> 0 <= i < 2 ^ 53 -> k * i < 2 ^ 53 ->
  sym_index_value (k * n) n i = k * i.
Proof.
  intros Hk Hn Hi Hki. unfold sym_index_value. pose proof unit64_pos as PU.
  replace (k * n * unit64) with (k * unit64 * n) by lia.
  rewrite frnd_exact by lia.
  unfold unit64 in *.
  rewrite !rnd_shift_exact by lia.
  replace (i * 2 ^ 1074 * (k * 2 ^ 1074)) with (k * i * 2 ^ 1074 * 2 ^ 1074) by lia.
  rewrite frnd_exact by lia.
  rewrite rnd_shift_exact by nia.
  apply rne_exact. lia.
Qed.

(** The symbolic index of the last frame bound is the length of the piano
    roll. *)
Lemma sym_index_value_end (t n : Z) :
  0 <= t < 2 ^ 51 -> 0 < n < 2 ^ 53 -> sym_index_value t n n = t.
Proof.
  intros Ht Hn. unfold sym_index_value. pose proof unit64_pos as PU.
  destruct (Z.eq_dec t 0) as [->|NZ].
  { cbn [Z.mul]. rewrite frnd_0, Z.mul_0_r, frnd_0 by lia.
    apply rne_0; lia. }
  assert (EU : unit64 = 4 * 2 ^ 1072) by reflexivity.
  assert (P2 : 0 < 2 ^ 1072) by (apply Z.pow_pos_nonneg; lia).
  rewrite (rnd_unit_exact n) by lia.
  set (q := sf_frnd 53 (t * unit64) n).
  replace (n * unit64 * q) with (n * q * unit64) by lia.
  rewrite frnd_exact by lia.
  (* the quotient is within a quarter of [t / n] *)
  assert (Hq : (4 * t - 1) * 2 ^ 1072 <= n * q <= (4 * t + 1) * 2 ^ 1072).
  { pose proof (frnd_error 53 ltac:(lia) (t * unit64) n ltac:(nia) ltac:(lia)) as E.
    cbv zeta in E. fold q in E.
    set (g := Zdigits2 (t * unit64 / n)) in *.
    assert (Hb : n * 2 ^ Z.max (g - 53) 0 <= 2 * 2 ^ 1072).
    { destruct (Z.le_gt_cases g 53) as [Hs|Hl].
      - rewrite Z.max_r by lia. change (2 ^ 0) with 1.
        assert (2 ^ 53 <= 2 ^ 1072) by (apply Z.pow_le_mono_r; lia). lia.
      - rewrite Z.max_l by lia.
        assert (Hg : 2 ^ (g - 1) <= t * unit64 / n).
        { apply Zdigits2_gt_iff; try lia.
          destruct (Z.eq_dec (t * unit64 / n) 0) as [E0|]; [|
            pose proof (Z.div_pos (t * unit64) n ltac:(nia) ltac:(lia)); lia].
          exfalso. subst g. rewrite E0 in Hl. cbn in Hl. lia. }
        pose proof (Z.mul_div_le (t * unit64) n ltac:(lia)) as Hd.
        assert (E1 : 2 ^ (g - 1) = 2 ^ (g - 53) * 2 ^ 52).
        { rewrite <- Z.pow_add_r by lia. f_equal. lia. }
        assert (P3 : 0 < 2 ^ (g - 53)) by (apply Z.pow_pos_nonneg; lia).
        assert (H1 : n * 2 ^ (g - 53) * 2 ^ 52 <= t * unit64) by nia.
        assert (H2 : t * unit64 < 2 ^ 51 * (4 * 2 ^ 1072)) by (rewrite EU; nia).
        change (2 ^ 52) with (2 * 2 ^ 51) in H1.
        change (2 ^ 51) with 2251799813685248 in *. nia. }
    rewrite EU in E. nia. }
  assert (Hr : (4 * t - 1) * 2 ^ 1072 <= sf_rnd 53 (n * q) <= (4 * t + 1) * 2 ^ 1072).
  { rewrite <- (rnd_shift_exact 53 (4 * t - 1) 1072) by lia.
    rewrite <- (rnd_shift_exact 53 (4 * t + 1) 1072) by lia.
    split; apply rnd_mono; lia || nia. }
  apply rne_near; [lia|]. rewrite EU. lia.
Qed.

(** ** The symbolic window follows the acoustic window *)

Lemma sym_index_of_value (t n i : Z) :
  0 <= t < 2 ^ 63 -> 0 < n -> 0 <= i < 2 ^ 63 ->
  sym_index_of t n i = sym_index_value t n i.
Proof.
  intros Ht Hn Hi. unfold sym_index_of.
  now rewrite sym_index_formula.
Qed.

(** X3. The symbolic frame index grows with the acoustic frame index: frame
    [0] maps to column [0], frame [song_len] to column [pr_frames], the
    frames in between to the columns in between, in order, and the frames
    past the end of the recording to [pr_frames] or beyond. *)
Theorem X3_symbolic_index_monotone (pr_frames song_len : Z) :
  0 <= pr_frames < 2 ^ 51 -> 0 < song_len < 2 ^ 53 ->
  sym_index pr_frames song_len 0 = Ok 0 /\
  sym_index pr_frames song_len song_len = Ok pr_frames /\
  forall i j, 0 <= i <= j -> j < 2 ^ 63 ->
    exists a b,
      sym_index pr_frames song_len i = Ok a /\
      sym_index pr_frames song_len j = Ok b /\
      0 <= a <= b /\
      (j <= song_len -> b <= pr_frames) /\
      (song_len <= i -> pr_frames <= a).
Proof.
  intros Ht Hn.
  assert (Ht' : 0 <= pr_frames < 2 ^ 63) by lia.
  split; [apply sym_index_zero; lia|].
  split.
  - rewrite sym_index_formula by lia. f_equal.
    now apply sym_index_value_end.
  - intros i j Hij Hj.
    exists (sym_index_value pr_frames song_len i),
           (sym_index_value pr_frames song_len j).
    rewrite !sym_index_formula by lia.
    split; [reflexivity|]. split; [reflexivity|].
    split; [apply sym_index_value_mono; lia|].
    split; intros H.
    + rewrite <- (sym_index_value_end pr_frames song_len Ht Hn) at 2.
      apply sym_index_value_mono; lia.
    + rewrite <- (sym_index_value_end pr_frames song_len Ht Hn) at 1.
      apply sym_index_value_mono; lia.
Qed.

(** X4. When the piano roll has [k] times the frames of the recording, the
    window [(start, stop)] is cut from the piano roll at
    [(k * start, k * stop)], exactly. *)
Theorem X4_extract_chunk_integer_ratio (piano_roll norm_db : ndarray)
    (k start stop song_len : Z) :
  Z.of_nat (ncols piano_roll) = k * song_len ->
  0 < song_len -> 0 <= k < 2 ^ 53 -> k * song_len < 2 ^ 63 ->
  0 <= start < 2 ^ 53 -> 0 <= stop < 2 ^ 53 ->
  k * start < 2 ^ 53 -> k * stop < 2 ^ 53 ->
  sym_index (Z.of_nat (ncols piano_roll)) song_len start = Ok (k * start) /\
  sym_index (Z.of_nat (ncols piano_roll)) song_len stop = Ok (k * stop) /\
  extract_chunk piano_roll norm_db start stop song_len =
  Ok (with_marker (slice_cols piano_roll (k * start) (k * stop)),
      slice_cols norm_db start stop).
Proof.
  intros Hk Hn Hk' Hkn Hs Hp Hks Hkp.
  assert (E1 : sym_index (Z.of_nat (ncols piano_roll)) song_len start
               = Ok (k * start)).
  { rewrite Hk, sym_index_formula by lia. f_equal.
    now apply sym_index_value_multiple. }
  assert (E2 : sym_index (Z.of_nat (ncols piano_roll)) song_len stop
               = Ok (k * stop)).
  { rewrite Hk, sym_index_formula by lia. f_equal.
    now apply sym_index_value_multiple. }
  split; [exact E1|]. split; [exact E2|].
  rewrite extract_chunk_spec, E1, E2. reflexivity.
Qed.

(** X5. For a piano roll without columns every symbolic chunk consists of the
    terminal marker alone. *)
Theorem X5_extract_chunk_empty_roll (piano_roll norm_db : ndarray)
    (start stop song_len : Z) :
  ncols piano_roll = 0%nat -> 0 < song_len ->
  0 <= start < 2 ^ 53 -> 0 <= stop < 2 ^ 53 ->
  exists pr_chunk,
    extract_chunk piano_roll norm_db start stop song_len
      = Ok (pr_chunk, slice_cols norm_db start stop) /\
    shape pr_chunk = (S (nrows piano_roll), 1%nat) /\
    rows pr_chunk = repeat [f_zero] (nrows piano_roll) ++ [[f_one]].
Proof.
  intros H0 Hn Hs Hp.
  assert (E : forall i, 0 <= i < 2 ^ 53 ->
                sym_index (Z.of_nat (ncols piano_roll)) song_len i = Ok 0).
  { intros i Hi. rewrite H0. change (Z.of_nat 0) with (0 * song_len).
    rewrite sym_index_formula by lia. f_equal.
    apply (sym_index_value_multiple 0 song_len i); lia. }
  eexists. split.
  { rewrite extract_chunk_spec, !E by assumption. reflexivity. }
  unfold shape, nrows, with_marker, slice_cols. cbn [ncols rows].
  rewrite H0. split.
  - rewrite length_app, !length_map. cbn [length]. f_equal. lia.
  - f_equal. rewrite map_map.
    induction (rows piano_roll) as [|r rs IH]; [reflexivity|].
    cbn [map length repeat]. rewrite IH. f_equal.
    unfold slice_list, slice_len, slice_index.
    cbn [Z.ltb Z.compare Z.min Z.to_nat]. destruct (length r); reflexivity.
Qed.

(** ** The symbolic chunks of a run *)

Lemma flat_map_ext_in {A B : Type} (f g : A -> list B) (l : list A) :
  (forall x, In x l -> f x = g x) -> flat_map f l = flat_map g l.
Proof.
  intros H. induction l as [|x l IH]; [reflexivity|].
  cbn [flat_map]. rewrite (H x (or_introl eq_refl)), IH; [reflexivity|].
  intros y Hy. apply H. now right.
Qed.

(** X2. On well-formed arrays (a spectrogram with at least one element and
    fewer than [2^53] frames, a piano roll of fewer than [2^51] columns),
    with a positive chunk length and a storage that accepts the writes,
    every symbolic chunk [create_tensor] writes is a slice of the piano roll
    with the terminal marker, and these slices, joined along the time axis
    in the order of the writes, give back the piano roll: every column of
    the piano roll is in exactly one symbolic chunk. *)
Theorem X2_symbolic_chunks_reassemble (piano_roll mel : ndarray) (stem : string)
    (chunk_len : Z) (save_path : Path) (st : storage) :
  wf_ndarray piano_roll = true -> wf_ndarray mel = true ->
  elements mel <> [] -> 0 < chunk_len < 2 ^ 62 ->
  Z.of_nat (ncols piano_roll) < 2 ^ 51 -> Z.of_nat (ncols mel) < 2 ^ 53 ->
  (forall log p, can_write st log p = true) ->
  exists st' pieces slices,
    create_tensor piano_roll mel stem chunk_len save_path st = (Ok tt, st') /\
    written st' = written st ++
      flat_map (piece_artifacts save_path stem chunk_len) pieces /\
    map snd pieces = map with_marker slices /\
    concatenate1_all slices = Ok piano_roll.
Proof.
  intros Hwfp Hwf Hne Hl Hpr Hn Hw.
  destruct (create_tensor_run piano_roll mel stem chunk_len save_path st
              Hne ltac:(lia) ltac:(lia) ltac:(lia) Hw)
    as (nd & Hnd & Hsh & Hwfn & Hrun).
  injection Hsh as Hnr Hnc.
  pose proof (wf_nonempty_cols mel Hwf Hne) as Hpos.
  set (T := Z.of_nat (ncols mel)) in *.
  destruct (ceil_div_bounds T chunk_len ltac:(lia) ltac:(lia)) as (C0 & Cup & Clo).
  set (t := Z.of_nat (ncols piano_roll)) in *.
  set (c := ceil_div T chunk_len) in *.
  set (f := fun k : nat =>
              sym_index_value t T (Z.min (Z.of_nat k * chunk_len) (c * chunk_len))).
  assert (Hcl : c * chunk_len < 2 ^ 63) by nia.
  assert (Hf : forall k, (k <= Z.to_nat c)%nat ->
                 sym_index_of t T (Z.of_nat k * chunk_len) = f k).
  { intros k Hk. unfold f. rewrite Z.min_l by nia.
    apply sym_index_of_value; lia || nia. }
  eexists.
  exists (map (fun k =>
            (Z.of_nat k * chunk_len,
             slice_cols nd (Z.of_nat k * chunk_len) (Z.of_nat (S k) * chunk_len),
             with_marker (slice_cols piano_roll (f k) (f (S k)))))
          (seq 0 (Z.to_nat c))).
  exists (map (fun k => slice_cols piano_roll (f k) (f (S k))) (seq 0 (Z.to_nat c))).
  split; [exact Hrun|]. cbn [written]. split; [|split].
  - f_equal. unfold window_starts. fold c. rewrite !flat_map_map.
    apply flat_map_ext_in. intros k Hk. apply in_seq in Hk.
    unfold artifacts_of_window, piece_artifacts.
    cbn [fst snd]. fold t. rewrite Hnc. fold T.
    replace (Z.of_nat k * chunk_len + chunk_len) with (Z.of_nat (S k) * chunk_len)
      by lia.
    rewrite !Hf by lia. reflexivity.
  - rewrite !map_map. reflexivity.
  - rewrite (concatenate1_all_slices piano_roll f (Z.to_nat c)).
    + f_equal. apply slice_cols_all; [exact Hwfp|]. fold t.
      unfold f. rewrite Z2Nat.id, Z.min_r by lia.
      rewrite <- (sym_index_value_end t T) at 1 by lia.
      apply sym_index_value_mono; lia.
    + unfold f. cbn [Z.of_nat Z.mul]. rewrite Z.min_l by nia.
      rewrite <- (sym_index_of_value t T 0) by lia.
      unfold sym_index_of. now rewrite sym_index_zero by lia.
    + intros k. unfold f. apply sym_index_value_mono; lia || nia.
    + nia.
Qed.

(** ** A NaN in the spectrogram *)

Lemma fmax_nan_l (y : spec_float) : fmax S754_nan y = S754_nan.
Proof. reflexivity. Qed.

Lemma fmax_nan_r (x : spec_float) : fmax x S754_nan = S754_nan.
Proof. destruct x; reflexivity. Qed.

Lemma fold_fmax_nan (xs : list spec_float) (x : spec_float) :
  In S754_nan (x :: xs) -> fold_left fmax xs x = S754_nan.
Proof.
  revert x. induction xs as [|y ys IH]; intros x H.
  - destruct H as [->|[]]. reflexivity.
  - cbn [fold_left]. apply IH. destruct H as [->|[->|H]].
    + left. apply fmax_nan_l.
    + left. apply fmax_nan_r.
    + now right.
Qed.

Lemma norm_value_nan (prec emax : Z) (hi v : spec_float) :
  norm_value prec emax S754_nan hi v = S754_nan.
Proof. unfold norm_value. destruct v; reflexivity. Qed.

(** X6. One NaN among the elements makes the minimum NaN, and with it every
    element of the result of [norm_sg]. *)
Theorem X6_norm_sg_nan (prec emax : Z) (a : ndarray) :
  In S754_nan (elements a) ->
  exists out,
    norm_sg prec emax a = Ok out /\
    array_min a = Ok S754_nan /\ array_max a = Ok S754_nan /\
    shape out = shape a /\
    rows out = map (map (fun _ => S754_nan)) (rows a).
Proof.
  intros H.
  assert (Hlo : array_min a = Ok S754_nan).
  { unfold array_min. destruct (elements a) as [|x xs]; [destruct H|].
    now rewrite fold_fmin_nan. }
  assert (Hhi : array_max a = Ok S754_nan).
  { unfold array_max. destruct (elements a) as [|x xs]; [destruct H|].
    now rewrite fold_fmax_nan. }
  exists (map_array (norm_value prec emax S754_nan S754_nan) a).
  split; [now apply norm_sg_spec|]. split; [exact Hlo|]. split; [exact Hhi|].
  split; [apply map_array_shape|].
  cbn [map_array rows]. apply map_ext. intros r. apply map_ext. intros v.
  apply norm_value_nan.
Qed.

(** ** The names of the artifacts of a run *)

Lemma append_inv_head (s a b : string) :
  (s ++ a)%string = (s ++ b)%string -> a = b.
Proof.
  induction s as [|c s IH]; cbn [append]; intros H; [exact H|].
  injection H as H. now apply IH.
Qed.

(** The decimal digits of a number end where the next ["-"] stands. *)
Lemma digits_dash_inj (d1 d2 : Decimal.uint) (r1 r2 : string) :
  (NilEmpty.string_of_uint d1 ++ String "-" r1)%string
  = (NilEmpty.string_of_uint d2 ++ String "-" r2)%string ->
  d1 = d2 /\ r1 = r2.
Proof.
  revert d2. induction d1 as [|d1 IH|d1 IH|d1 IH|d1 IH|d1 IH|d1 IH|d1 IH|d1 IH
                              |d1 IH|d1 IH];
    intros [|d2|d2|d2|d2|d2|d2|d2|d2|d2|d2];
    cbn [NilEmpty.string_of_uint append]; intros H; try discriminate H;
    try (injection H as H; destruct (IH d2 H) as [-> ->]; now split).
  injection H as ->. now split.
Qed.

Lemma str_int_digits (m : Z) :
  0 <= m ->
  exists d, str_int m = NilEmpty.string_of_uint d /\ Z.to_int m = Decimal.Pos d.
Proof.
  intros Hm. unfold str_int. destruct m as [|p|p]; [| |lia].
  - eexists. split; reflexivity.
  - cbn [Z.to_int NilZero.string_of_int].
    exists (Pos.to_uint p). split; [|reflexivity].
    unfold NilZero.string_of_uint.
    destruct (Pos.to_uint p) eqn:E; try reflexivity.
    exfalso. now apply (DecimalPos.Unsigned.to_uint_nonnil p).
Qed.

Lemma str_int_dash_inj (m1 m2 : Z) (r1 r2 : string) :
  0 <= m1 -> 0 <= m2 ->
  (str_int m1 ++ String "-" r1)%string = (str_int m2 ++ String "-" r2)%string ->
  m1 = m2 /\ r1 = r2.
Proof.
  intros H1 H2 H.
  destruct (str_int_digits m1 H1) as (d1 & E1 & T1).
  destruct (str_int_digits m2 H2) as (d2 & E2 & T2).
  rewrite E1, E2 in H. destruct (digits_dash_inj _ _ _ _ H) as [-> ->].
  split; [|reflexivity].
  rewrite <- (DecimalZ.of_to m1), <- (DecimalZ.of_to m2). congruence.
Qed.

(** Two artifacts have the same name only if they belong to the same window
    and are of the same kind. *)
Lemma artifact_name_inj (m1 m2 chunk_len : Z) (stem k1 k2 : string) :
  0 <= m1 -> 0 <= m2 ->
  k1 = "spec"%string \/ k1 = "piano"%string ->
  k2 = "spec"%string \/ k2 = "piano"%string ->
  artifact_name m1 chunk_len stem k1 = artifact_name m2 chunk_len stem k2 ->
  m1 = m2 /\ k1 = k2.
Proof.
  intros H1 H2 K1 K2 H. unfold artifact_name in H.
  change ("-" ++ ?x)%string with (String "-" x) in H.
  destruct (str_int_dash_inj _ _ _ _ H1 H2 H) as [-> R].
  split; [reflexivity|].
  apply append_inv_head in R. injection R as R. apply append_inv_head in R.
  injection R as R.
  destruct K1 as [->| ->], K2 as [->| ->]; try reflexivity; discriminate R.
Qed.

Lemma NoDup_flat_map {A B : Type} (g : A -> list B) (l : list A) :
  NoDup l -> (forall x, In x l -> NoDup (g x)) ->
  (forall x y b, In x l -> In y l -> In b (g x) -> In b (g y) -> x = y) ->
  NoDup (flat_map g l).
Proof.
  intros Hl. induction Hl as [|x l Hx Hl IH]; intros Hg Hd; [constructor|].
  cbn [flat_map]. apply NoDup_app.
  - apply Hg. now left.
  - apply IH.
    + intros y Hy. apply Hg. now right.
    + intros y z b Hy Hz. apply Hd; now right.
  - intros b Hb Hb'. apply in_flat_map in Hb'. destruct Hb' as (y & Hy & Hby).
    assert (x = y) by (apply (Hd x y b); auto; [now left|now right]).
    subst y. contradiction.
Qed.

Lemma window_starts_NoDup (n l : Z) : 0 < l -> NoDup (window_starts n l).
Proof.
  intros Hl. unfold window_starts.
  generalize (Z.to_nat (ceil_div n l)). intros c.
  assert (H : forall s, NoDup (map (fun k => Z.of_nat k * l) (seq s c))).
  { induction c as [|c IH]; intros s; [constructor|].
    cbn [seq map]. constructor; [|apply IH].
    intros Hin. apply in_map_iff in Hin. destruct Hin as (k & E & Hk).
    apply in_seq in Hk. nia. }
  apply H.
Qed.

Lemma flat_map_length_const {A B : Type} (g : A -> list B) (n : nat) (l : list A) :
  (forall x, length (g x) = n) -> length (flat_map g l) = (n * length l)%nat.
Proof.
  intros H. induction l as [|x l IH]; [cbn; lia|].
  cbn [flat_map length]. rewrite length_app, H, IH. lia.
Qed.

Lemma map_flat_map {A B C : Type} (f : B -> C) (g : A -> list B) (l : list A) :
  map f (flat_map g l) = flat_map (fun x => map f (g x)) l.
Proof.
  induction l as [|x l IH]; [reflexivity|].
  cbn [flat_map]. now rewrite map_app, IH.
Qed.

Lemma artifact_path_inj (save_path : Path) (stem : string) (chunk_len : Z)
    (m1 m2 : Z) (k1 k2 : string) :
  0 <= m1 -> 0 <= m2 ->
  k1 = "spec"%string \/ k1 = "piano"%string ->
  k2 = "spec"%string \/ k2 = "piano"%string ->
  joinpath save_path (artifact_name m1 chunk_len stem k1)
  = joinpath save_path (artifact_name m2 chunk_len stem k2) ->
  m1 = m2 /\ k1 = k2.
Proof.
  intros H1 H2 K1 K2 H. unfold joinpath in H. apply app_inv_head in H.
  injection H as H. now apply (artifact_name_inj m1 m2 chunk_len stem).
Qed.

(** X7. In a run of [create_tensor] that completes, no two writes go to the
    same path: no artifact of a recording overwrites another artifact of
    the same run. *)
Theorem X7_create_tensor_paths_distinct (piano_roll mel : ndarray) (stem : string)
    (chunk_len : Z) (save_path : Path) (st : storage) :
  elements mel <> [] -> 0 < chunk_len ->
  Z.of_nat (ncols piano_roll) < 2 ^ 63 ->
  Z.of_nat (ncols mel) + chunk_len <= 2 ^ 63 ->
  (forall log p, can_write st log p = true) ->
  exists st' ws,
    create_tensor piano_roll mel stem chunk_len save_path st = (Ok tt, st') /\
    written st' = written st ++ ws /\
    Z.of_nat (length ws) = 2 * ceil_div (Z.of_nat (ncols mel)) chunk_len /\
    NoDup (map fst ws).
Proof.
  intros Hne Hl Hpr Hn Hw.
  destruct (create_tensor_run piano_roll mel stem chunk_len save_path st
              Hne Hl Hpr Hn Hw) as (nd & _ & _ & _ & Hrun).
  set (T := Z.of_nat (ncols mel)) in *.
  destruct (ceil_div_bounds T chunk_len ltac:(lia) Hl) as (C0 & _ & _).
  eexists. eexists. split; [exact Hrun|]. cbn [written].
  split; [reflexivity|]. split.
  - rewrite (flat_map_length_const _ 2) by reflexivity.
    unfold window_starts. rewrite length_map, length_seq. lia.
  - rewrite map_flat_map. apply NoDup_flat_map.
    + now apply window_starts_NoDup.
    + intros m Hm. apply window_starts_bounds in Hm; [|lia|lia].
      cbn [artifacts_of_window map fst].
      constructor; [|constructor; [intros []|constructor]].
      intros [E|[]]. unfold spec_path, piano_path in E.
      apply artifact_path_inj in E; auto; try lia.
      destruct E as [_ E]. discriminate E.
    + intros m1 m2 b H1 H2 B1 B2.
      apply window_starts_bounds in H1; [|lia|lia].
      apply window_starts_bounds in H2; [|lia|lia].
      cbn [artifacts_of_window map fst] in B1, B2.
      unfold spec_path, piano_path in B1, B2.
      destruct B1 as [<-|[<-|[]]]; destruct B2 as [E|[E|[]]];
        apply artifact_path_inj in E; auto; lia.
Qed.

(** ** The normalizer keeps the order of the values *)

Section NormOrder.

Variables prec emax : Z.
Hypothesis Hprec : 1 < prec.
Hypothesis Hemax : prec < emax.

Local Abbreviation emin := (emin prec emax).
Local Abbreviation ord := (sf_ord prec emax).
Local Abbreviation rnd := (sf_rnd prec).
Local Abbreviation frnd := (sf_frnd prec).
Local Abbreviation rounded := (sf_rounded prec emax).
Local Abbreviation valid := (valid_binary prec emax).
Local Abbreviation fv := (finite_valid prec emax).

(** Rounding depends on the value of the fraction only. *)
Lemma frnd_ratio (n1 d1 n2 d2 : Z) :
  0 <= n1 -> 0 < d1 -> 0 < d2 -> n1 * d2 = n2 * d1 ->
  frnd n1 d1 = frnd n2 d2.
Proof.
  intros H1 Hd1 Hd2 E.
  assert (H2 : 0 <= n2) by nia.
  apply Z.le_antisymm; apply (frnd_mono prec Hprec); lia.
Qed.

(** The value [norm_sg] computes, in units of [2^emin]: the rounded
    quotient of the rounded differences. *)
Lemma norm_value_ord (lo hi v : spec_float) :
  fv lo = true -> fv hi = true -> fv v = true ->
  ord lo <= ord v <= ord hi -> ord lo < ord hi ->
  is_finite (SFsub prec emax hi lo) = true ->
  ord (norm_value prec emax lo hi v)
  = frnd (rnd (ord v - ord lo) * 2 ^ (- emin)) (rnd (ord hi - ord lo)).
Proof.
  intros Hlo Hhi Hv Hb Hne Hfin.
  destruct (norm_value_range prec emax Hprec Hemax lo hi v Hlo Hhi Hv Hb Hne Hfin)
    as (Fy & _ & _ & Y0 & _).
  cbv zeta in Fy, Y0.
  apply (fv_iff prec emax) in Hlo, Hhi, Hv, Fy.
  destruct Hlo as [Vlo Flo], Hhi as [Vhi Fhi], Hv as [Vv Fv], Fy as [_ Fy].
  pose proof (emin_neg prec emax Hprec Hemax) as [En _].
  assert (PU : 0 < 2 ^ (- emin)) by (apply Z.pow_pos_nonneg; lia).
  (* the denominator *)
  destruct (SFsub_rounding prec emax Hprec Hemax hi lo Vhi Vlo Fhi Flo) as (_ & Rd & _).
  cbv zeta in Rd. specialize (Rd ltac:(lia)).
  pose proof (rnd_pos prec Hprec (ord hi - ord lo) ltac:(lia)) as Pd.
  pose proof (is_rounding_overflow prec emax _ _ _ Rd ltac:(lia) Hfin) as Ud.
  destruct (is_rounding_finite prec emax _ _ _ Rd ltac:(lia)) as (_ & Vd & Od & _ & Dp).
  destruct (Dp Pd) as (md & ed & Ed). cbn [cond_Zopp] in Od.
  (* the numerator *)
  destruct (SFsub_rounding prec emax Hprec Hemax v lo Vv Vlo Fv Flo) as (_ & Ra & _).
  cbv zeta in Ra.
  destruct (Z.eq_dec (ord v - ord lo) 0) as [Ez|Nz].
  - rewrite Y0 by lia. rewrite Ez, (rnd_0 prec Hprec). cbn [Z.mul].
    symmetry. unfold sf_frnd. rewrite Z.div_0_l by lia. cbn [Zdigits2].
    rewrite Z.max_r by lia. change (2 ^ 0) with 1. rewrite !Z.mul_1_r.
    apply (rne_exact 0). lia.
  - specialize (Ra ltac:(lia)).
    pose proof (rnd_pos prec Hprec (ord v - ord lo) ltac:(lia)) as Pa.
    pose proof (rnd_mono prec Hprec (ord v - ord lo) (ord hi - ord lo) ltac:(lia))
      as Mad.
    destruct (is_rounding_finite prec emax _ _ _ Ra ltac:(lia))
      as (_ & Va & Oa & _ & Ap).
    destruct (Ap Pa) as (ma & ea & Ea). cbn [cond_Zopp] in Oa.
    unfold norm_value in *. rewrite Ea, Ed in *.
    cbn [sf_ord cond_Zopp] in Oa, Od. rewrite <- Oa, <- Od.
    destruct (valid_finite prec emax _ _ _ Va) as (Ba & _).
    destruct (valid_finite prec emax _ _ _ Vd) as (Bd & _).
    destruct (SFdiv_rounding prec emax Hprec Hemax false false ma md ea ed)
      as (e' & s & Hs & Es & Hpre & R).
    cbn [xorb] in R.
    assert (Ps : 0 < 2 ^ s) by (apply Z.pow_pos_nonneg; lia).
    pose proof (rounded_nonneg prec emax Hprec (Zpos ma * 2 ^ s) (Zpos md) e'
                  ltac:(nia) ltac:(lia) Hpre) as R0.
    rewrite (rounding_ord prec emax _ _ R R0 Fy).
    set (b := Z.min e' emin).
    rewrite (rounded_frnd prec Hprec emax _ _ _ b) by lia.
    assert (P1 : 0 < 2 ^ (e' - b)) by (apply Z.pow_pos_nonneg; lia).
    assert (P2 : 0 < 2 ^ (emin - b)) by (apply Z.pow_pos_nonneg; lia).
    assert (P3 : 0 < 2 ^ (ea - emin)) by (apply Z.pow_pos_nonneg; lia).
    assert (P4 : 0 < 2 ^ (ed - emin)) by (apply Z.pow_pos_nonneg; lia).
    apply frnd_ratio; try nia.
    transitivity (Zpos ma * Zpos md * (2 ^ s * 2 ^ (e' - b) * 2 ^ (ed - emin)));
      [lia|].
    transitivity (Zpos ma * Zpos md
                  * (2 ^ (ea - emin) * 2 ^ (- emin) * 2 ^ (emin - b))); [|lia].
    f_equal. rewrite <- !Z.pow_add_r by lia. f_equal. lia.
Qed.

End NormOrder.

(** X8. On an array of finite values whose minimum is below its maximum and
    whose range does not overflow, [norm_sg] keeps the order of the values:
    an element that is not above another one is not above it after the
    normalisation. *)
Theorem X8_norm_sg_monotone (prec emax : Z) (a : ndarray) (lo hi : spec_float) :
  1 < prec -> prec < emax ->
  Forall (fun v => finite_valid prec emax v = true) (elements a) ->
  array_min a = Ok lo -> array_max a = Ok hi ->
  SFltb lo hi = true ->
  is_finite (SFsub prec emax hi lo) = true ->
  norm_sg prec emax a
    = Ok (map_array (fun v => SFdiv prec emax (SFsub prec emax v lo)
                                              (SFsub prec emax hi lo)) a) /\
  forall v w, In v (elements a) -> In w (elements a) ->
    SFleb v w = true ->
    SFleb (SFdiv prec emax (SFsub prec emax v lo) (SFsub prec emax hi lo))
          (SFdiv prec emax (SFsub prec emax w lo) (SFsub prec emax hi lo)) = true.
Proof.
  intros Hprec Hemax Hall Hlo Hhi Hlt Hfin.
  split; [exact (norm_sg_spec prec emax a lo hi Hlo Hhi)|].
  intros v w Hv Hw Hvw.
  change (SFleb (norm_value prec emax lo hi v) (norm_value prec emax lo hi w) = true).
  assert (Hnv : Forall (fun v => number_valid prec emax v = true) (elements a)).
  { revert Hall. apply Forall_impl. intros x. apply fv_nv. }
  destruct (array_min_max_eord prec emax Hprec Hemax a lo hi Hnv Hlo Hhi)
    as (Ilo & Ihi & Hb).
  rewrite Forall_forall in Hall, Hb.
  pose proof (Hall lo Ilo) as Flo. pose proof (Hall hi Ihi) as Fhi.
  pose proof (Hall v Hv) as Fv. pose proof (Hall w Hw) as Fw.
  pose proof (Hb v Hv) as Bv. pose proof (Hb w Hw) as Bw.
  pose proof Flo as Flo'. pose proof Fhi as Fhi'.
  pose proof Fv as Fv'. pose proof Fw as Fw'.
  apply (fv_iff prec emax) in Flo', Fhi', Fv', Fw'.
  destruct Flo' as [Vlo Flo'], Fhi' as [Vhi Fhi'], Fv' as [Vv Fv'], Fw' as [Vw Fw'].
  rewrite !eord_finite in Bv, Bw by assumption.
  rewrite (SFltb_ord prec emax Hprec lo hi) in Hlt by assumption.
  apply Z.ltb_lt in Hlt.
  rewrite (SFleb_ord prec emax Hprec v w) in Hvw by assumption.
  apply Z.leb_le in Hvw.
  destruct (norm_value_range prec emax Hprec Hemax lo hi v Flo Fhi Fv Bv Hlt Hfin)
    as (Fyv & _).
  destruct (norm_value_range prec emax Hprec Hemax lo hi w Flo Fhi Fw Bw Hlt Hfin)
    as (Fyw & _).
  cbv zeta in Fyv, Fyw. apply (fv_iff prec emax) in Fyv, Fyw.
  rewrite (SFleb_ord prec emax Hprec) by tauto.
  apply Z.leb_le.
  rewrite !(norm_value_ord prec emax Hprec Hemax lo hi) by assumption.
  pose proof (emin_neg prec emax Hprec Hemax) as [En _].
  assert (PU : 0 < 2 ^ (- emin prec emax)) by (apply Z.pow_pos_nonneg; lia).
  pose proof (rnd_pos prec Hprec (sf_ord prec emax hi - sf_ord prec emax lo)
                ltac:(lia)) as Pd.
  pose proof (rnd_nonneg prec Hprec (sf_ord prec emax v - sf_ord prec emax lo)
                ltac:(lia)) as Pv.
  pose proof (rnd_mono prec Hprec (sf_ord prec emax v - sf_ord prec emax lo)
                (sf_ord prec emax w - sf_ord prec emax lo) ltac:(lia)) as M.
  apply (frnd_mono prec Hprec);
    [apply Z.mul_nonneg_nonneg; lia | lia | lia |].
  apply Z.mul_le_mono_nonneg_r; [lia|].
  apply Z.mul_le_mono_nonneg_r; lia.
Qed.

(** ** Normalising twice *)

Lemma Forall2_map_rows {A : Type} (P : A -> A -> Prop) (g : A -> A)
    (rs : list (list A)) :
  (forall r y, In r rs -> In y r -> P y (g y)) ->
  Forall2 (Forall2 P) rs (map (map g) rs).
Proof.
  intros H. induction rs as [|r rs IH]; [constructor|].
  cbn [map]. constructor.
  - assert (Hr : forall y, In y r -> P y (g y))
      by (intros y Hy; apply (H r y); [now left|exact Hy]).
    clear H IH. induction r as [|y r IHr]; [constructor|].
    cbn [map]. constructor; [apply Hr; now left|].
    apply IHr. intros z Hz. apply Hr. now right.
  - apply IH. intros r' y Hr' Hy. apply (H r' y); [now right|exact Hy].
Qed.

(** X9. On an array of finite values whose minimum is below its maximum and
    whose range does not overflow, the result of [norm_sg] has minimum [0.0]
    and maximum [1.0], and normalising it again changes no value. *)
Theorem X9_norm_sg_idempotent (prec emax : Z) (a : ndarray) (lo hi : spec_float) :
  1 < prec -> prec < emax ->
  Forall (fun v => finite_valid prec emax v = true) (elements a) ->
  array_min a = Ok lo -> array_max a = Ok hi ->
  SFltb lo hi = true ->
  is_finite (SFsub prec emax hi lo) = true ->
  exists out lo2 hi2 out2,
    norm_sg prec emax a = Ok out /\
    array_min out = Ok lo2 /\ SFeqb lo2 (S754_zero false) = true /\
    array_max out = Ok hi2 /\ SFeqb hi2 (SFone prec emax) = true /\
    norm_sg prec emax out = Ok out2 /\
    shape out2 = shape out /\
    Forall2 (Forall2 (fun y z => SFeqb z y = true)) (rows out) (rows out2).
Proof.
  intros Hprec Hemax Hall Hlo Hhi Hlt Hfin.
  pose proof (norm_sg_spec prec emax a lo hi Hlo Hhi) as Hn.
  set (out := map_array (norm_value prec emax lo hi) a) in *.
  assert (Hnv : Forall (fun v => number_valid prec emax v = true) (elements a)).
  { revert Hall. apply Forall_impl. intros x. apply fv_nv. }
  destruct (array_min_max_eord prec emax Hprec Hemax a lo hi Hnv Hlo Hhi)
    as (Ilo & Ihi & Hb).
  rewrite Forall_forall in Hall, Hb.
  pose proof (Hall lo Ilo) as Flo. pose proof (Hall hi Ihi) as Fhi.
  assert (Vf : forall v, In v (elements a) ->
                 valid_binary prec emax v = true /\ is_finite v = true).
  { intros v Hv. apply (fv_iff prec emax). now apply Hall. }
  assert (Hlt' : sf_ord prec emax lo < sf_ord prec emax hi).
  { rewrite (SFltb_ord prec emax Hprec lo hi) in Hlt
      by (apply Vf; assumption). now apply Z.ltb_lt. }
  destruct (SFone_valid prec emax Hprec Hemax) as (m1 & e1 & E1 & V1 & O1).
  assert (F1 : is_finite (SFone prec emax) = true) by now rewrite E1.
  pose proof (emin_neg prec emax Hprec Hemax) as [En _].
  set (U := 2 ^ (0 - emin prec emax)) in *.
  assert (PU : 0 < U) by (apply Z.pow_pos_nonneg; lia).
  (* every value of the result *)
  assert (Hy : forall v, In v (elements a) ->
            let y := norm_value prec emax lo hi v in
            finite_valid prec emax y = true /\ 0 <= sf_ord prec emax y <= U /\
            (sf_ord prec emax v = sf_ord prec emax lo -> sf_ord prec emax y = 0) /\
            (sf_ord prec emax v = sf_ord prec emax hi -> sf_ord prec emax y = U)).
  { intros v Hv y. pose proof (Hb v Hv) as Bv.
    rewrite !eord_finite in Bv by (apply Vf; assumption).
    destruct (norm_value_range prec emax Hprec Hemax lo hi v Flo Fhi
                (Hall v Hv) Bv Hlt' Hfin) as (Fy & By & _ & Y0 & Y1).
    cbv zeta in Fy, By, Y0, Y1. rewrite O1 in By, Y1. auto. }
  assert (Hout : forall y, In y (elements out) ->
            finite_valid prec emax y = true /\ 0 <= sf_ord prec emax y <= U).
  { intros y Hin. unfold out in Hin. rewrite map_array_elements in Hin.
    apply in_map_iff in Hin. destruct Hin as (v & <- & Hv).
    destruct (Hy v Hv) as (Fy & By & _). auto. }
  assert (Hne : elements out <> []).
  { unfold out. rewrite map_array_elements.
    destruct (elements a); [destruct Ilo|discriminate]. }
  destruct (array_min_max_nonempty out Hne) as (lo2 & hi2 & Hlo2 & Hhi2).
  assert (Hnv2 : Forall (fun v => number_valid prec emax v = true) (elements out)).
  { apply Forall_forall. intros y Hin. apply fv_nv. now apply Hout. }
  destruct (array_min_max_eord prec emax Hprec Hemax out lo2 hi2 Hnv2 Hlo2 Hhi2)
    as (Ilo2 & Ihi2 & Hb2).
  rewrite Forall_forall in Hb2.
  assert (Vf2 : forall y, In y (elements out) ->
                  valid_binary prec emax y = true /\ is_finite y = true).
  { intros y Hin. apply (fv_iff prec emax). now apply Hout. }
  assert (In0 : In (norm_value prec emax lo hi lo) (elements out)).
  { unfold out. rewrite map_array_elements. now apply in_map. }
  assert (In1 : In (norm_value prec emax lo hi hi) (elements out)).
  { unfold out. rewrite map_array_elements. now apply in_map. }
  assert (Olo2 : sf_ord prec emax lo2 = 0).
  { pose proof (Hb2 _ In0) as B. rewrite !eord_finite in B by (apply Vf2; assumption).
    destruct (Hy lo Ilo) as (_ & _ & Y0 & _). rewrite (Y0 eq_refl) in B.
    destruct (Hout lo2 Ilo2) as (_ & B0). lia. }
  assert (Ohi2 : sf_ord prec emax hi2 = U).
  { pose proof (Hb2 _ In1) as B. rewrite !eord_finite in B by (apply Vf2; assumption).
    destruct (Hy hi Ihi) as (_ & _ & _ & Y1). rewrite (Y1 eq_refl) in B.
    destruct (Hout hi2 Ihi2) as (_ & B0). lia. }
  destruct (Vf2 lo2 Ilo2) as [Vlo2 Flo2]. destruct (Vf2 hi2 Ihi2) as [Vhi2 Fhi2].
  assert (RU : sf_rnd prec U = U)
    by (apply (pow2_units_rnd prec emax Hprec); lia).
  assert (LU : U < 2 ^ (emax - emin prec emax))
    by (apply Z.pow_lt_mono_r; lia).
  (* the range of the result does not overflow *)
  assert (Hfin2 : is_finite (SFsub prec emax hi2 lo2) = true).
  { destruct (SFsub_rounding prec emax Hprec Hemax hi2 lo2 Vhi2 Vlo2 Fhi2 Flo2)
      as (_ & Rd & _). cbv zeta in Rd. rewrite Olo2, Ohi2, Z.sub_0_r, RU in Rd.
    specialize (Rd PU).
    now destruct (is_rounding_finite prec emax _ _ _ Rd ltac:(lia)) as (F & _). }
  exists out, lo2, hi2, (map_array (norm_value prec emax lo2 hi2) out).
  split; [exact Hn|]. split; [exact Hlo2|]. split.
  { rewrite (SFeqb_ord prec emax Hprec) by (assumption || reflexivity).
    rewrite Olo2. reflexivity. }
  split; [exact Hhi2|]. split.
  { rewrite (SFeqb_ord prec emax Hprec) by assumption.
    rewrite Ohi2, O1. apply Z.eqb_refl. }
  split; [now apply norm_sg_spec|]. split; [apply map_array_shape|].
  cbn [map_array rows]. apply Forall2_map_rows. intros r y Hr Hin.
  assert (Hye : In y (elements out)) by now apply (in_elements out r).
  destruct (Hout y Hye) as (Fy & By). destruct (Vf2 y Hye) as [Vy Fiy].
  pose proof (Hb2 y Hye) as B2. rewrite !eord_finite in B2 by assumption.
  assert (FVlo2 : finite_valid prec emax lo2 = true) by now apply Hout.
  assert (FVhi2 : finite_valid prec emax hi2 = true) by now apply Hout.
  assert (Lt2 : sf_ord prec emax lo2 < sf_ord prec emax hi2) by lia.
  destruct (norm_value_range prec emax Hprec Hemax lo2 hi2 y
              FVlo2 FVhi2 Fy B2 Lt2 Hfin2) as (Fz & _).
  cbv zeta in Fz. apply (fv_iff prec emax) in Fz.
  rewrite (SFeqb_ord prec emax Hprec) by tauto.
  apply Z.eqb_eq.
  rewrite (norm_value_ord prec emax Hprec Hemax lo2 hi2 y
             FVlo2 FVhi2 Fy B2 Lt2 Hfin2).
  rewrite Olo2, Ohi2, !Z.sub_0_r, RU.
  assert (Ry : sf_rnd prec (sf_ord prec emax y) = sf_ord prec emax y).
  { destruct y as [s|s| |s m e]; try discriminate.
    - cbn [sf_ord]. now apply rnd_0.
    - destruct s.
      + pose proof (valid_finite prec emax _ _ _ Vy) as (Be & _).
        pose proof (ord_sign prec emax Hprec true m e ltac:(lia)) as S.
        cbv beta iota in S. lia.
      + cbn [sf_ord cond_Zopp]. now apply (rnd_valid prec emax false). }
  rewrite Ry. replace (2 ^ (- emin prec emax)) with U by (unfold U; f_equal; lia).
  rewrite (frnd_exact prec Hprec) by lia. exact Ry.
Qed.

(** ** The properties on the sample inputs *)

Lemma X1_acoustic_chunks_reassemble_witness :
  exists norm_db st' pieces,
    norm_sg 24 128 ex_mel = Ok norm_db /\
    create_tensor ex_piano_roll ex_mel "a" 2 ["out"%string] ex_storage
      = (Ok tt, st') /\
    written st' = written ex_storage ++
      flat_map (piece_artifacts ["out"%string] "a" 2) pieces /\
    Z.of_nat (length pieces) = ceil_div (Z.of_nat (ncols ex_mel)) 2 /\
    Forall (fun sg => (0 < ncols sg)%nat /\ nrows sg = nrows norm_db)
           (spec_chunks pieces) /\
    concatenate1_all (spec_chunks pieces) = Ok norm_db.
Proof.
  apply (X1_acoustic_chunks_reassemble ex_piano_roll ex_mel "a" 2
           ["out"%string] ex_storage).
  - reflexivity.
  - vm_compute. discriminate.
  - lia.
  - vm_compute. reflexivity.
  - vm_compute. discriminate.
  - reflexivity.
Defined.

Lemma X2_symbolic_chunks_reassemble_witness :
  exists st' pieces slices,
    create_tensor ex_piano_roll ex_mel "a" 2 ["out"%string] ex_storage
      = (Ok tt, st') /\
    written st' = written ex_storage ++
      flat_map (piece_artifacts ["out"%string] "a" 2) pieces /\
    map snd pieces = map with_marker slices /\
    concatenate1_all slices = Ok ex_piano_roll.
Proof.
  apply (X2_symbolic_chunks_reassemble ex_piano_roll ex_mel "a" 2
           ["out"%string] ex_storage).
  - reflexivity.
  - reflexivity.
  - vm_compute. discriminate.
  - lia.
  - vm_compute. reflexivity.
  - vm_compute. reflexivity.
  - reflexivity.
Defined.

Lemma X3_symbolic_index_monotone_witness :
  sym_index 10 5 0 = Ok 0 /\
  sym_index 10 5 5 = Ok 10 /\
  forall i j, 0 <= i <= j -> j < 2 ^ 63 ->
    exists a b,
      sym_index 10 5 i = Ok a /\ sym_index 10 5 j = Ok b /\
      0 <= a <= b /\ (j <= 5 -> b <= 10) /\ (5 <= i -> 10 <= a).
Proof. apply (X3_symbolic_index_monotone 10 5); lia. Defined.

Lemma X4_extract_chunk_integer_ratio_witness :
  sym_index (Z.of_nat (ncols ex_piano_roll)) 5 1 = Ok (2 * 1) /\
  sym_index (Z.of_nat (ncols ex_piano_roll)) 5 3 = Ok (2 * 3) /\
  extract_chunk ex_piano_roll ex_mel 1 3 5 =
  Ok (with_marker (slice_cols ex_piano_roll (2 * 1) (2 * 3)),
      slice_cols ex_mel 1 3).
Proof.
  apply (X4_extract_chunk_integer_ratio ex_piano_roll ex_mel 2 1 3 5);
    try lia.
  reflexivity.
Defined.

Lemma X5_extract_chunk_empty_roll_witness :
  exists pr_chunk,
    extract_chunk ex_empty ex_mel 0 2 5 = Ok (pr_chunk, slice_cols ex_mel 0 2) /\
    shape pr_chunk = (S (nrows ex_empty), 1%nat) /\
    rows pr_chunk = repeat [f_zero] (nrows ex_empty) ++ [[f_one]].
Proof.
  apply (X5_extract_chunk_empty_roll ex_empty ex_mel 0 2 5); try lia.
  reflexivity.
Defined.

Lemma X6_norm_sg_nan_witness :
  exists out,
    norm_sg 24 128 ex_nan = Ok out /\
    array_min ex_nan = Ok S754_nan /\ array_max ex_nan = Ok S754_nan /\
    shape out = shape ex_nan /\
    rows out = map (map (fun _ => S754_nan)) (rows ex_nan).
Proof.
  apply (X6_norm_sg_nan 24 128 ex_nan). vm_compute. tauto.
Defined.

Lemma X7_create_tensor_paths_distinct_witness :
  exists st' ws,
    create_tensor ex_piano_roll ex_mel "a" 2 ["out"%string] ex_storage
      = (Ok tt, st') /\
    written st' = written ex_storage ++ ws /\
    Z.of_nat (length ws) = 2 * ceil_div (Z.of_nat (ncols ex_mel)) 2 /\
    NoDup (map fst ws).
Proof.
  apply (X7_create_tensor_paths_distinct ex_piano_roll ex_mel "a" 2
           ["out"%string] ex_storage).
  - vm_compute. discriminate.
  - lia.
  - vm_compute. reflexivity.
  - vm_compute. discriminate.
  - reflexivity.
Defined.

Lemma X8_norm_sg_monotone_witness :
  norm_sg 24 128 ex_mel
    = Ok (map_array
            (fun v => SFdiv 24 128 (SFsub 24 128 v (S754_finite true 10485760 (-17)))
                        (SFsub 24 128 (S754_zero false)
                           (S754_finite true 10485760 (-17)))) ex_mel) /\
  forall v w, In v (elements ex_mel) -> In w (elements ex_mel) ->
    SFleb v w = true ->
    SFleb (SFdiv 24 128 (SFsub 24 128 v (S754_finite true 10485760 (-17)))
             (SFsub 24 128 (S754_zero false) (S754_finite true 10485760 (-17))))
          (SFdiv 24 128 (SFsub 24 128 w (S754_finite true 10485760 (-17)))
             (SFsub 24 128 (S754_zero false) (S754_finite true 10485760 (-17))))
    = true.
Proof.
  apply (X8_norm_sg_monotone 24 128 ex_mel
           (S754_finite true 10485760 (-17)) (S754_zero false)).
  - lia.
  - lia.
  - repeat constructor.
  - vm_compute. reflexivity.
  - vm_compute. reflexivity.
  - reflexivity.
  - reflexivity.
Defined.

Lemma X9_norm_sg_idempotent_witness :
  exists out lo2 hi2 out2,
    norm_sg 24 128 ex_mel = Ok out /\
    array_min out = Ok lo2 /\ SFeqb lo2 (S754_zero false) = true /\
    array_max out = Ok hi2 /\ SFeqb hi2 (SFone 24 128) = true /\
    norm_sg 24 128 out = Ok out2 /\
    shape out2 = shape out /\
    Forall2 (Forall2 (fun y z => SFeqb z y = true)) (rows out) (rows out2).
Proof.
  apply (X9_norm_sg_idempotent 24 128 ex_mel
           (S754_finite true 10485760 (-17)) (S754_zero false)).
  - lia.
  - lia.
  - repeat constructor.
  - vm_compute. reflexivity.
  - vm_compute. reflexivity.
  - reflexivity.
  - reflexivity.
Defined.

(** ** The folder driver *)

Lemma driver_for_app {X : Type} (l1 l2 : list X)
    (body : X -> storage -> driver_result * storage) (st : storage) :
  driver_for (l1 ++ l2) body st =
  match driver_for l1 body st with
  | (DOk, st1) => driver_for l2 body st1
  | (DRaise e, st1) => (DRaise e, st1)
  end.
Proof.
  revert st. induction l1 as [|x l1 IH]; intros st; [reflexivity|].
  cbn [app driver_for].
  destruct (body x st) as [[|e] st1]; [apply IH|reflexivity].
Qed.

Lemma driver_for_skip {X : Type} (l : list X)
    (body : X -> storage -> driver_result * storage) (st : storage) :
  (forall x, In x l -> body x st = (DOk, st)) ->
  driver_for l body st = (DOk, st).
Proof.
  intros H. induction l as [|x l IH]; [reflexivity|].
  cbn [driver_for]. rewrite (H x (or_introl eq_refl)).
  apply IH. intros y Hy. apply H. now right.
Qed.

Lemma name_of_child (p : PurePath) (name : string) : name_of (child p name) = name.
Proof. unfold name_of, child. cbn [parts]. apply last_last. Qed.

(** [path_joinpath] on an entry of the directory itself. *)
Lemma path_joinpath_child (d : PurePath) (y : string) :
  path_joinpath d (child d y) =
  if rooted d then child d y
  else {| rooted := false; parts := parts d ++ parts d ++ [y] |}.
Proof.
  unfold path_joinpath, child. cbn [rooted parts].
  destruct (rooted d); reflexivity.
Qed.

(** X10. [main] hands to [convert_folder] the path
    [maestro_dir.joinpath(year_folder)], where [year_folder] already starts
    with [maestro_dir].  For a rooted [maestro_dir] this is the year folder.
    For a relative [maestro_dir] with at least one component it is another
    path, [maestro_dir / maestro_dir / name]: when that path cannot be
    listed, [main] fails with the [OSError] of the listing at the first
    year folder, and writes nothing. *)
Theorem X10_main_relative_dir (env : environment) (maestro_dir : PurePath)
    (sr chunk_len : Z) (ds_save_path : Path) (st : storage)
    (before after : list string) (y : string) :
  listdir env maestro_dir = Ok (before ++ y :: after) ->
  (forall n, In n before -> is_dir env (child maestro_dir n) = false) ->
  is_dir env (child maestro_dir y) = true ->
  (rooted maestro_dir = true ->
   path_joinpath maestro_dir (child maestro_dir y) = child maestro_dir y) /\
  (rooted maestro_dir = false ->
   path_joinpath maestro_dir (child maestro_dir y)
     = {| rooted := false;
          parts := parts maestro_dir ++ parts maestro_dir ++ [y] |} /\
   (parts maestro_dir <> [] ->
    path_joinpath maestro_dir (child maestro_dir y) <> child maestro_dir y) /\
   (listdir env {| rooted := false;
                   parts := parts maestro_dir ++ parts maestro_dir ++ [y] |}
      = Raise OSError ->
    main env maestro_dir sr chunk_len ds_save_path st
      = (DRaise (Raised OSError), st))).
Proof.
  intros Hl Hb Hy. rewrite path_joinpath_child. split; [now intros ->|].
  intros Hr. rewrite Hr. split; [reflexivity|]. split.
  - intros Hne E. unfold child in E. rewrite Hr in E.
    injection E as E. apply (f_equal (@length string)) in E.
    rewrite !length_app in E. cbn [length] in E.
    destruct (parts maestro_dir); [now apply Hne|cbn [length] in E; lia].
  - intros Hd. unfold main. rewrite Hl, map_app. cbn [map].
    rewrite driver_for_app, driver_for_skip.
    + cbn [driver_for]. rewrite Hy, path_joinpath_child, Hr.
      unfold convert_folder. now rewrite Hd.
    + intros x Hx. apply in_map_iff in Hx. destruct Hx as (n & <- & Hn).
      now rewrite (Hb n Hn).
Qed.

(** X11. [convert_folder] has no handler around the work on one recording.
    When the pattern of an audio file matches no MIDI file, the indexing of
    the empty list raises [IndexError]; when [create_tensor] raises, that
    exception is passed on.  In both cases the artifacts of the recordings
    before it remain and the recordings after it are not processed. *)
Theorem X11_convert_folder_aborts (env : environment) (audio_midi_dir : PurePath)
    (sr chunk_len : Z) (save_path : Path) (st st1 : storage)
    (names : list string) (before after : list PurePath) (audio_path : PurePath) :
  listdir env audio_midi_dir = Ok names ->
  audio_list audio_midi_dir names = before ++ audio_path :: after ->
  driver_for before (convert_one env audio_midi_dir sr chunk_len save_path) st
    = (DOk, st1) ->
  (glob env audio_midi_dir ("*" ++ path_stem env audio_path ++ ".midi")%string = [] ->
   convert_folder env audio_midi_dir sr chunk_len save_path st
     = (DRaise IndexError, st1)) /\
  (forall midi rest e st2,
     glob env audio_midi_dir ("*" ++ path_stem env audio_path ++ ".midi")%string
       = midi :: rest ->
     create_tensor_paths env audio_path midi sr chunk_len save_path st1
       = (Raise e, st2) ->
     convert_folder env audio_midi_dir sr chunk_len save_path st
       = (DRaise (Raised e), st2)).
Proof.
  intros Hl Ha Hb. unfold convert_folder. rewrite Hl, Ha, driver_for_app, Hb.
  cbn [driver_for]. split.
  - intros Hg. unfold convert_one. now rewrite Hg.
  - intros midi rest e st2 Hg Hc. unfold convert_one. now rewrite Hg, Hc.
Qed.

Lemma X10_main_relative_dir_witness :
  (rooted ex_data = true ->
   path_joinpath ex_data (child ex_data "2004") = child ex_data "2004") /\
  (rooted ex_data = false ->
   path_joinpath ex_data (child ex_data "2004")
     = {| rooted := false;
          parts := parts ex_data ++ parts ex_data ++ ["2004"%string] |} /\
   (parts ex_data <> [] ->
    path_joinpath ex_data (child ex_data "2004") <> child ex_data "2004") /\
   (listdir ex_env {| rooted := false;
                      parts := parts ex_data ++ parts ex_data ++ ["2004"%string] |}
      = Raise OSError ->
    main ex_env ex_data 16000 2 ["out"%string] ex_storage
      = (DRaise (Raised OSError), ex_storage))).
Proof.
  apply (X10_main_relative_dir ex_env ex_data 16000 2 ["out"%string] ex_storage
           [] ["README"%string] "2004").
  - reflexivity.
  - intros n [].
  - reflexivity.
Defined.

Lemma X11_convert_folder_aborts_witness :
  (glob ex_env (child ex_data "2004")
     ("*" ++ path_stem ex_env (child (child ex_data "2004") "b.wav") ++ ".midi")%string
     = [] ->
   convert_folder ex_env (child ex_data "2004") 16000 2 ["out"%string] ex_storage
     = (DRaise IndexError,
        snd (create_tensor ex_piano_roll ex_mel "a" 2 ["out"%string] ex_storage))) /\
  (forall midi rest e st2,
     glob ex_env (child ex_data "2004")
       ("*" ++ path_stem ex_env (child (child ex_data "2004") "b.wav") ++ ".midi")%string
       = midi :: rest ->
     create_tensor_paths ex_env (child (child ex_data "2004") "b.wav") midi 16000 2
       ["out"%string]
       (snd (create_tensor ex_piano_roll ex_mel "a" 2 ["out"%string] ex_storage))
       = (Raise e, st2) ->
     convert_folder ex_env (child ex_data "2004") 16000 2 ["out"%string] ex_storage
       = (DRaise (Raised e), st2)).
Proof.
  apply (X11_convert_folder_aborts ex_env (child ex_data "2004") 16000 2
           ["out"%string] ex_storage
           (snd (create_tensor ex_piano_roll ex_mel "a" 2 ["out"%string] ex_storage))
           ["a.wav"%string; "a.midi"%string; "b.wav"%string]
           [child (child ex_data "2004") "a.wav"] []
           (child (child ex_data "2004") "b.wav")).
  - reflexivity.
  - reflexivity.
  - vm_compute. reflexivity.
Defined.

(** [contains] is the substring test. *)
Lemma prefix_app (sub s : string) :
  prefix sub s = true <-> exists b, s = (sub ++ b)%string.
Proof.
  revert s. induction sub as [|c sub IH]; intros s.
  - simpl. split; [intros _; now exists s|intros _; now destruct s].
  - destruct s as [|d s]; simpl.
    + split; [discriminate|]. intros (b & E). discriminate E.
    + destruct (ascii_dec c d) as [->|N].
      * rewrite IH. split; intros (b & E); exists b.
        -- now rewrite E.
        -- now injection E.
      * split; [discriminate|]. intros (b & E). injection E as E1 _.
        now subst.
Qed.

Lemma contains_spec (sub s : string) :
  contains sub s = true <-> exists a b, s = (a ++ sub ++ b)%string.
Proof.
  induction s as [|c s IH]; cbn [contains].
  - rewrite orb_false_r, prefix_app. split.
    + intros (b & E). now exists EmptyString, b.
    + intros (a & b & E). destruct a; [now exists b|discriminate E].
  - rewrite orb_true_iff, prefix_app, IH. split.
    + intros [(b & E)|(a & b & E)].
      * now exists EmptyString, b.
      * exists (String c a), b. cbn [append]. now rewrite E.
    + intros (a & b & E). destruct a as [|d a]; cbn [append] in E.
      * left. now exists b.
      * right. injection E as _ E. now exists a, b.
Qed.

(** ** Recordings with the same stem *)

(** X12. The paths [create_tensor] writes depend on the recording through
    its stem and its number of frames only: two recordings with the same
    stem and as many frames, processed with the same chunk length and
    destination (for instance from two year folders, which [main] all sends
    to one destination), are written to the same paths, in the same order,
    so that the second run overwrites every artifact of the first. *)
Theorem X12_same_stem_same_paths (piano_roll1 mel1 piano_roll2 mel2 : ndarray)
    (stem : string) (chunk_len : Z) (save_path : Path) (st1 st2 : storage) :
  elements mel1 <> [] -> elements mel2 <> [] ->
  ncols mel1 = ncols mel2 -> 0 < chunk_len ->
  Z.of_nat (ncols piano_roll1) < 2 ^ 63 ->
  Z.of_nat (ncols piano_roll2) < 2 ^ 63 ->
  Z.of_nat (ncols mel1) + chunk_len <= 2 ^ 63 ->
  (forall log p, can_write st1 log p = true) ->
  (forall log p, can_write st2 log p = true) ->
  exists st1' st2' ws1 ws2,
    create_tensor piano_roll1 mel1 stem chunk_len save_path st1 = (Ok tt, st1') /\
    create_tensor piano_roll2 mel2 stem chunk_len save_path st2 = (Ok tt, st2') /\
    written st1' = written st1 ++ ws1 /\
    written st2' = written st2 ++ ws2 /\
    map fst ws1 = map fst ws2 /\
    map fst ws1 =
      flat_map (fun m_sec => [spec_path save_path stem chunk_len m_sec;
                              piano_path save_path stem chunk_len m_sec])
               (window_starts (Z.of_nat (ncols mel1)) chunk_len).
Proof.
  intros Hne1 Hne2 Hc Hl Hp1 Hp2 Hn Hw1 Hw2.
  destruct (create_tensor_run piano_roll1 mel1 stem chunk_len save_path st1
              Hne1 Hl Hp1 Hn Hw1) as (nd1 & _ & _ & _ & R1).
  destruct (create_tensor_run piano_roll2 mel2 stem chunk_len save_path st2
              Hne2 Hl Hp2 ltac:(rewrite <- Hc; exact Hn) Hw2)
    as (nd2 & _ & _ & _ & R2).
  do 4 eexists. split; [exact R1|]. split; [exact R2|]. cbn [written].
  split; [reflexivity|]. split; [reflexivity|].
  rewrite <- Hc, !map_flat_map. split; reflexivity.
Qed.

Lemma X12_same_stem_same_paths_witness :
  exists st1' st2' ws1 ws2,
    create_tensor ex_piano_roll ex_mel "a" 2 ["out"%string] ex_storage
      = (Ok tt, st1') /\
    create_tensor ex_empty ex_mel "a" 2 ["out"%string] ex_storage = (Ok tt, st2') /\
    written st1' = written ex_storage ++ ws1 /\
    written st2' = written ex_storage ++ ws2 /\
    map fst ws1 = map fst ws2 /\
    map fst ws1 =
      flat_map (fun m_sec => [spec_path ["out"%string] "a" 2 m_sec;
                              piano_path ["out"%string] "a" 2 m_sec])
               (window_starts (Z.of_nat (ncols ex_mel)) 2).
Proof.
  apply (X12_same_stem_same_paths ex_piano_roll ex_mel ex_empty ex_mel "a" 2
           ["out"%string] ex_storage ex_storage).
  - vm_compute. discriminate.
  - vm_compute. discriminate.
  - reflexivity.
  - lia.
  - vm_compute. reflexivity.
  - vm_compute. reflexivity.
  - vm_compute. discriminate.
  - reflexivity.
  - reflexivity.
Defined.

(** ** The audio files of a folder *)

Lemma child_inj (d : PurePath) (n n' : string) : child d n = child d n' -> n = n'.
Proof.
  unfold child. intros E. injection E as E.
  now apply app_inv_head in E; injection E.
Qed.

Lemma audio_list_filter (d : PurePath) (names : list string) :
  audio_list d names = map (child d) (filter (contains ".wav") names).
Proof.
  unfold audio_list. induction names as [|n names IH]; [reflexivity|].
  cbn [map filter]. rewrite name_of_child.
  destruct (contains ".wav" n); cbn [map]; now rewrite IH.
Qed.

(** X13. [convert_folder] takes as audio files the entries of the folder
    whose name has [.wav] somewhere in it, not only at its end, in the order
    of the listing: an entry is processed exactly when its name is
    [a ++ ".wav" ++ b] for some [a] and [b], so that a name such as
    [x.wav.txt] is taken too. *)
Theorem X13_audio_list_substring (audio_midi_dir : PurePath) (names : list string) :
  audio_list audio_midi_dir names
    = map (child audio_midi_dir) (filter (contains ".wav") names) /\
  (forall n, In (child audio_midi_dir n) (audio_list audio_midi_dir names) <->
             In n names /\ exists a b, n = (a ++ ".wav" ++ b)%string) /\
  (forall x, In (x ++ ".wav.txt")%string names ->
             In (child audio_midi_dir (x ++ ".wav.txt"))
                (audio_list audio_midi_dir names)).
Proof.
  assert (M : forall n, In (child audio_midi_dir n) (audio_list audio_midi_dir names) <->
                        In n names /\ exists a b, n = (a ++ ".wav" ++ b)%string).
  { intros n. rewrite audio_list_filter, in_map_iff. split.
    - intros (n' & E & Hin). apply child_inj in E. subst n'.
      apply filter_In in Hin. destruct Hin as [Hin Hc].
      split; [exact Hin|]. now apply contains_spec.
    - intros (Hin & Hex). exists n. split; [reflexivity|].
      apply filter_In. split; [exact Hin|]. now apply contains_spec. }
  split; [apply audio_list_filter|]. split; [exact M|].
  intros x Hin. apply M. split; [exact Hin|]. now exists x, ".txt"%string.
Qed.

Lemma X13_audio_list_substring_witness :
  In (child ex_data "x.wav.txt") (audio_list ex_data ["x.wav.txt"%string]).
Proof.
  apply (proj2 (proj2 (X13_audio_list_substring ex_data ["x.wav.txt"%string])) "x"%string).
  now left.
Defined.
